(** * Whammy: a shallow embedding of the WebM muxer of [src/whammy.js]

    The development follows the source file top to bottom: the JavaScript
    primitives the code relies on, the numeric helpers ([numToBuffer],
    [numToFixedBuffer], [bitsToBuffer], ...), the EBML serializer
    ([generateEBML]), the block packer ([makeSimpleBlock]), the WebP frame
    decoder ([parseWebP]) and the muxer ([toWebM]).

    Conventions of the model.
    - A JavaScript number that the code uses as an integer is a [Z]; the
      model covers integer-valued numbers (durations in whole milliseconds),
      on which [Math.round] is the identity.
    - The operators [&], [|], [<<] and [>>] work on the 32-bit wrap of their
      operands, as in the language; the wrap is written out ([ToInt32]).
    - A JavaScript string is the list of its UTF-16 code units ([jsstring]);
      a [Uint8Array] is a list of integers in [0, 256).
    - [throw] is the [Throw] constructor of the [result] monad.
    - [generateEBML] is modelled with [outputAsArray = true]; a [Blob] holds
      the same bytes.
    - [parseRIFF] is modelled on binary strings (what [atob] returns);
      [parseWebP] takes the chunk map that [parseRIFF] returns.  The
      [WhammyVideo] class and [fromImageArray], which work on the DOM and
      on the [base-64] package, are not modelled. *)

From Stdlib Require Import ZArith Lia String Ascii.
From stdpp Require Import base list gmap strings.

#[local] Set Warnings "-register-all".

Local Open Scope Z_scope.

(** ** Exceptions

    [OutOfFuel] is no JavaScript exception: the model of a [while] loop
    returns it when its fuel is spent, and the loops are proved never to
    do so. *)

Inductive error :=
| NoFramesProvided
| InconsistentWidth (frameNo : nat)
| InconsistentHeight (frameNo : nat)
| InvalidDuration (frameNo : nat)
| TrackNumberNotSupported
| RangeError
| TypeError
| OutOfFuel.

Inductive result (A : Type) :=
| OK (a : A)
| Throw (e : error).

Arguments OK {A} a.
Arguments Throw {A} e.

#[global] Instance result_ret : MRet result := fun A a => OK a.
#[global] Instance result_bind : MBind result :=
  fun A B f m => match m with OK a => f a | Throw e => Throw e end.

Definition is_OK {A} (r : result A) : bool :=
  match r with OK _ => true | Throw _ => false end.

(** ** JavaScript primitives *)

(** Strings as lists of code units; a number that may be [NaN] ([None]). *)
Abbreviation jsstring := (list Z).
Abbreviation bytes := (list Z) (only parsing).
Abbreviation number := (option Z).

Module JS.

Definition ToInt32 (x : Z) : Z := (x + 2 ^ 31) mod 2 ^ 32 - 2 ^ 31.
Definition ToUint32 (x : Z) : Z := x mod 2 ^ 32.
Definition ToUint16 (x : Z) : Z := x mod 2 ^ 16.
Definition ToUint8 (x : Z) : Z := x mod 2 ^ 8.

(** [a & b], [a | b], [a << b], [a >> b] *)
Definition and (a b : Z) : Z := Z.land (ToInt32 a) (ToInt32 b).
Definition or (a b : Z) : Z := Z.lor (ToInt32 a) (ToInt32 b).
Definition shl (a b : Z) : Z := ToInt32 (Z.shiftl (ToInt32 a) (ToUint32 b mod 32)).
Definition sar (a b : Z) : Z := Z.shiftr (ToInt32 a) (ToUint32 b mod 32).

(** The integer operators read [NaN] as 0. *)
Definition int_of (x : number) : Z := default 0 x.

(** Truthiness of a number used as a condition. *)
Definition truthy (x : Z) : bool := negb (x =? 0).

Definition of_string (s : string) : jsstring :=
  map (fun a => Z.of_nat (nat_of_ascii a)) (list_ascii_of_string s).

Definition fromCharCode (x : Z) : jsstring := [ToUint16 x].

Definition charCodeAt (s : jsstring) (i : Z) : number :=
  if i <? 0 then None else s !! Z.to_nat i.

Fixpoint starts_with (pat s : jsstring) : bool :=
  match pat, s with
  | [], _ => true
  | _ :: _, [] => false
  | p :: pat', c :: s' => (p =? c) && starts_with pat' s'
  end.

(** [s.indexOf(pat)], scanning from position [k] of the original string:
    the first position at which [pat] starts, or -1. *)
Fixpoint indexOf_from (s pat : jsstring) (k : Z) : Z :=
  if starts_with pat s then k
  else match s with
       | [] => -1
       | _ :: s' => indexOf_from s' pat (k + 1)
       end.

Definition indexOf (s pat : jsstring) : Z := indexOf_from s pat 0.

(** [s.slice(start)]: a negative [start] counts from the end. *)
Definition slice (s : jsstring) (start : Z) : jsstring :=
  let len := Z.of_nat (length s) in
  let from := if start <? 0 then Z.max (len + start) 0 else Z.min start len in
  drop (Z.to_nat from) s.

(** The characters of [n.toString(2)] on an integer, and of the bit
    strings the serializer builds from them. *)
Inductive bit_char := C0 | C1 | CMinus.

Local Abbreviation bitstring := (list bit_char).

Fixpoint pos_toString2 (p : positive) : bitstring :=
  match p with
  | xH => [C1]
  | xO q => pos_toString2 q ++ [C0]
  | xI q => pos_toString2 q ++ [C1]
  end.

Definition toString2 (n : Z) : bitstring :=
  match n with
  | Z0 => [C0]
  | Zpos p => pos_toString2 p
  | Zneg p => CMinus :: pos_toString2 p
  end.

(** [c.repeat(count)]: a negative count (also -Infinity) is a RangeError. *)
Definition repeat_char (c : bit_char) (count : Z) : result bitstring :=
  if count <? 0 then Throw RangeError else OK (repeat c (Z.to_nat count)).

(** The longest run of binary digits at the head of [s], read as a
    number; [None] when there is no digit. *)
Fixpoint radix2_run (s : bitstring) (acc : Z) (seen : bool) : number :=
  match s with
  | C0 :: r => radix2_run r (2 * acc) true
  | C1 :: r => radix2_run r (2 * acc + 1) true
  | _ => if seen then Some acc else None
  end.

(** [parseInt(s, 2)] *)
Definition parseInt2 (s : bitstring) : number :=
  match s with
  | CMinus :: r => Z.opp <$> radix2_run r 0 false
  | _ => radix2_run s 0 false
  end.

(** [Math.ceil(Math.log(len) / Math.log(2))] for [len >= 1], as the real
    number it denotes (the least [k] with [len <= 2^k]); the rounding of
    the floating-point quotient is outside the model.  At [len = 1] the
    language fixes [Math.log(1) = +0], so the value there is exactly 0. *)
Definition ceil_log2 (len : Z) : Z := Z.log2_up len.

(** [Math.ceil(k / 8)] for an integer [k >= 0]. *)
Definition ceil_div8 (k : Z) : Z := (k + 7) / 8.

End JS.

Abbreviation bitstring := (list JS.bit_char).

(** ** Constants *)

Definition CLUSTER_MAX_DURATION : Z := 30000.
Definition TIMECODE_SCALE : Z := 1000000.

Module EBML_IDS.
Definition EBML : Z := 0x1a45dfa3.
Definition Segment : Z := 0x18538067.
Definition Info : Z := 0x1549a966.
Definition Tracks : Z := 0x1654ae6b.
Definition TrackEntry : Z := 0xae.
Definition Cluster : Z := 0x1f43b675.
Definition Cues : Z := 0x1c53bb6b.
Definition CuePoint : Z := 0xbb.
Definition CueTrackPositions : Z := 0xb7.
Definition SimpleBlock : Z := 0xa3.
End EBML_IDS.

(** The VP8 keyframe start code ['\x9d\x01\x2a']. *)
Definition KEYFRAME_MARKER : jsstring := [0x9d; 0x01; 0x2a].

(** ** Numeric helpers *)

(** [numToBuffer]: the loop [while (num > 0) { parts.push(num & 0xff);
    num = num >> 8; }].  After one round [num] is a 32-bit value, so the
    loop ends within four rounds; [fuel] bounds the rounds. *)
Fixpoint numToBuffer_loop (fuel : nat) (num : Z) (parts : list Z) : list Z :=
  match fuel with
  | O => parts
  | S fuel' =>
    if 0 <? num
    then numToBuffer_loop fuel' (JS.sar num 8) (parts ++ [JS.and num 0xff])
    else parts
  end.

Definition numToBuffer (num : Z) : bytes :=
  rev (numToBuffer_loop 4 num []).

(** [numToFixedBuffer]: [parts[i]] for [i = size - 1] down to 0. *)
Fixpoint numToFixedBuffer (num : Z) (size : nat) : bytes :=
  match size with
  | O => []
  | S size' => numToFixedBuffer (JS.sar num 8) size' ++ [JS.and num 0xff]
  end.

(** [strToBuffer]: each code unit stored into a [Uint8Array]. *)
Definition strToBuffer (str : jsstring) : bytes := map JS.ToUint8 str.

(** [bitsToBuffer]: the loop over [paddedBits] in steps of 8 characters;
    [fuel] is the length of the string, which the loop cannot exceed. *)
Fixpoint bitsToBuffer_loop (fuel : nat) (paddedBits : bitstring) : list number :=
  match fuel, paddedBits with
  | _, [] => []
  | O, _ => []
  | S fuel', _ =>
    JS.parseInt2 (take 8 paddedBits) :: bitsToBuffer_loop fuel' (drop 8 paddedBits)
  end.

Definition bitsToBuffer (bits : bitstring) : bytes :=
  let r := (length bits mod 8)%nat in
  let pad := if (r =? 0)%nat then [] else repeat JS.C0 (8 - r) in
  let paddedBits := pad ++ bits in
  map (fun x => JS.ToUint8 (JS.int_of x))
      (bitsToBuffer_loop (length paddedBits) paddedBits).

(** The size descriptor that [generateEBML] computes between an element's
    id and its content (the lines under "Calculate size"), for a content of
    [len] bytes.  [Math.log(0)] is -Infinity, which [repeat] rejects. *)
Definition vintSize (len : Z) : result bytes :=
  if len =? 0 then Throw RangeError
  else
    let zeroes := JS.ceil_div8 (JS.ceil_log2 len) in
    let sizeStr := JS.toString2 len in
    pad ← JS.repeat_char JS.C0 ((zeroes * 7 + 7 + 1) - Z.of_nat (length sizeStr));
    let padded := pad ++ sizeStr in
    lead ← JS.repeat_char JS.C0 zeroes;
    let size := lead ++ [JS.C1] ++ padded in
    OK (bitsToBuffer size).

(** [doubleToString]: the eight bytes of the IEEE-754 binary64 value of
    [num], most significant first.  [float64_bits] gives the bit pattern of
    an integer; it is exact below 2^53 and rounds to nearest-even above. *)
Definition float64_bits (num : Z) : Z :=
  if num =? 0 then 0
  else
    let sign := if num <? 0 then 1 else 0 in
    let a := Z.abs num in
    let e := Z.log2 a in
    let '(e, m) :=
      if e <=? 52 then (e, a * 2 ^ (52 - e))
      else
        let sh := e - 52 in
        let q := Z.shiftr a sh in
        let r := a mod 2 ^ sh in
        let half := 2 ^ (sh - 1) in
        let q := if (half <? r) || ((r =? half) && Z.odd q) then q + 1 else q in
        if q =? 2 ^ 53 then (e + 1, 2 ^ 52) else (e, q) in
    if 1023 <? e then sign * 2 ^ 63 + 2047 * 2 ^ 52
    else sign * 2 ^ 63 + (e + 1023) * 2 ^ 52 + (m - 2 ^ 52).

Definition doubleToString (num : Z) : jsstring :=
  let bits := float64_bits num in
  map (fun i => Z.shiftr bits (8 * Z.of_nat i) mod 256) (rev (seq 0 8)).

(** ** The element tree

    An entry of the JSON handed to [generateEBML] is either already encoded
    (a byte array, which has no [id]) or an object [{ id, data, size }]
    with a non-zero [id], whose [data] is a number, a string or a list of
    entries.  [size = 0] stands for an absent [size] (both are falsy). *)
Inductive edata :=
| DNum (n : Z)
| DStr (s : jsstring)
| DList (l : list element)
with element :=
| Encoded (b : bytes)
| Element (id : Z) (data : edata) (size : nat).

(** ** [generateEBML] *)

Fixpoint generateEBML_element (elt : element) : result bytes :=
  match elt with
  | Encoded b => OK b
  | Element id data size =>
    data ← match data with
           | DList l =>
             (fix generateEBML_list (json : list element) : result bytes :=
                match json with
                | [] => OK []
                | elt' :: json' =>
                  b ← generateEBML_element elt';
                  rest ← generateEBML_list json';
                  OK (b ++ rest)
                end) l
           | DNum n =>
             OK (match size with
                 | O => bitsToBuffer (JS.toString2 n)
                 | S _ => numToFixedBuffer n size
                 end)
           | DStr s => OK (strToBuffer s)
           end;
    let len := Z.of_nat (length data) in
    size ← vintSize len;
    OK (numToBuffer id ++ size ++ data)
  end.

Fixpoint generateEBML (json : list element) : result bytes :=
  match json with
  | [] => OK []
  | elt :: json' =>
    b ← generateEBML_element elt;
    rest ← generateEBML json';
    OK (b ++ rest)
  end.

(** ** [makeSimpleBlock] *)

Module Block.
Record t := mk {
  trackNum : Z;
  timecode : Z;
  keyframe : Z;
  invisible : Z;
  lacing : Z;
  discardable : Z;
  frame : jsstring
}.
End Block.

Definition block_flags (b : Block.t) : Z :=
  let flags := 0 in
  let flags := if JS.truthy (Block.keyframe b) then JS.or flags 128 else flags in
  let flags := if JS.truthy (Block.invisible b) then JS.or flags 8 else flags in
  let flags := if JS.truthy (Block.lacing b)
               then JS.or flags (JS.shl (Block.lacing b) 1) else flags in
  let flags := if JS.truthy (Block.discardable b) then JS.or flags 1 else flags in
  flags.

Definition block_header (b : Block.t) : jsstring :=
  let flags := block_flags b in
  concat (map JS.fromCharCode
              [JS.or (Block.trackNum b) 0x80;
               JS.sar (Block.timecode b) 8;
               JS.and (Block.timecode b) 0xff;
               flags]).

Definition makeSimpleBlock (b : Block.t) : result jsstring :=
  if 127 <? Block.trackNum b then Throw TrackNumberNotSupported
  else
    let header := block_header b in
    OK (header ++ Block.frame b).

(** ** [parseWebP]

    The result of [parseRIFF] maps a chunk id to the list of the chunks of
    that id; a chunk is a string or, for a container, a nested map. *)
Inductive chunk :=
| Leaf (s : jsstring)
| Nested (chunks : gmap string (list chunk)).

Abbreviation riff_chunks := (gmap string (list chunk)).

Module WebP.
Record t := mk {
  width : Z;
  height : Z;
  data : jsstring;
  riff : riff_chunks;
  horizontalScale : Z;
  verticalScale : Z
}.
End WebP.

(** [riff.RIFF[0].WEBP[0]]; reading a property of [undefined] is a
    TypeError, and so is calling [indexOf] on what is not a string. *)
Definition riff_payload (riff : riff_chunks) : result jsstring :=
  match riff !! "RIFF"%string with
  | Some (Nested chunks :: _) =>
    match chunks !! "WEBP"%string with
    | Some (Leaf VP8 :: _) => OK VP8
    | _ => Throw TypeError
    end
  | _ => Throw TypeError
  end.

(** [bytes[i]] is only used as an operand of [<<] and [|], which read
    the [NaN] of a position past the end as 0. *)
Definition parseWebP (riff : riff_chunks) : result WebP.t :=
  VP8 ← riff_payload riff;
  let frameStart := JS.indexOf VP8 KEYFRAME_MARKER in
  let bytes (i : Z) := JS.int_of (JS.charCodeAt VP8 (frameStart + 3 + i)) in
  let tmp1 := JS.or (JS.shl (bytes 1) 8) (bytes 0) in
  let width := JS.and tmp1 0x3FFF in
  let horizontalScale := JS.sar tmp1 14 in
  let tmp2 := JS.or (JS.shl (bytes 3) 8) (bytes 2) in
  let height := JS.and tmp2 0x3FFF in
  let verticalScale := JS.sar tmp2 14 in
  OK {| WebP.width := width;
        WebP.height := height;
        WebP.data := VP8;
        WebP.riff := riff;
        WebP.horizontalScale := horizontalScale;
        WebP.verticalScale := verticalScale |}.

(** ** The muxer *)

Module Frame.
Record t := mk {
  width : Z;
  height : Z;
  duration : Z;
  data : jsstring
}.
End Frame.

Module Info.
Record t := mk {
  duration : Z;
  width : Z;
  height : Z
}.
End Info.

(** [validateFrames]: the loop over [frames[1..]]; [i] is the index of the
    head of [rest]. *)
Fixpoint validateFrames_loop (i : nat) (rest : list Frame.t)
         (width height totalDuration : Z) : result Z :=
  match rest with
  | [] => OK totalDuration
  | frame :: rest' =>
    if negb (Frame.width frame =? width) then Throw (InconsistentWidth (i + 1))
    else if negb (Frame.height frame =? height) then Throw (InconsistentHeight (i + 1))
    else if (Frame.duration frame <? 0) || (0x7fff <? Frame.duration frame)
    then Throw (InvalidDuration (i + 1))
    else validateFrames_loop (S i) rest' width height
                             (totalDuration + Frame.duration frame)
  end.

Definition validateFrames (frames : list Frame.t) : result Info.t :=
  match frames with
  | [] => Throw NoFramesProvided
  | frame0 :: rest =>
    let width := Frame.width frame0 in
    let height := Frame.height frame0 in
    totalDuration ← validateFrames_loop 1 rest width height (Frame.duration frame0);
    OK {| Info.duration := totalDuration; Info.width := width; Info.height := height |}
  end.

Definition createEBMLHeader (info : Info.t) : element :=
  Element EBML_IDS.EBML (DList [
    Element 0x4286 (DNum 1) 0;
    Element 0x42f7 (DNum 1) 0;
    Element 0x42f2 (DNum 4) 0;
    Element 0x42f3 (DNum 8) 0;
    Element 0x4282 (DStr (JS.of_string "webm")) 0;
    Element 0x4287 (DNum 2) 0;
    Element 0x4285 (DNum 2) 0
  ]) 0.

Definition createSegmentInfo (duration : Z) : element :=
  Element EBML_IDS.Info (DList [
    Element 0x2ad7b1 (DNum TIMECODE_SCALE) 0;
    Element 0x4d80 (DStr (JS.of_string "whammy")) 0;
    Element 0x5741 (DStr (JS.of_string "whammy")) 0;
    Element 0x4489 (DStr (doubleToString duration)) 0
  ]) 0.

Definition createTracks (width height : Z) : element :=
  Element EBML_IDS.Tracks (DList [
    Element EBML_IDS.TrackEntry (DList [
      Element 0xd7 (DNum 1) 0;
      Element 0x73c5 (DNum 1) 0;
      Element 0x9c (DNum 0) 0;
      Element 0x22b59c (DStr (JS.of_string "und")) 0;
      Element 0x86 (DStr (JS.of_string "V_VP8")) 0;
      Element 0x258688 (DStr (JS.of_string "VP8")) 0;
      Element 0x83 (DNum 1) 0;
      Element 0xe0 (DList [
        Element 0xb0 (DNum width) 0;
        Element 0xba (DNum height) 0
      ]) 0
    ]) 0
  ]) 0.

(** The cue point pushed at the start of a round of the cluster loop; its
    CueClusterPosition is the placeholder 0 on 8 bytes. *)
Definition new_cuePoint (clusterTimecode : Z) : element :=
  Element EBML_IDS.CuePoint (DList [
    Element 0xb3 (DNum clusterTimecode) 0;
    Element EBML_IDS.CueTrackPositions (DList [
      Element 0xf7 (DNum 1) 0;
      Element 0xf1 (DNum 0) 8
    ]) 0
  ]) 0.

(** [cues.data.push(cuePoint)], where [cues] is the object [segment.data[2]]. *)
Definition cues_push (segment_data : list element) (cuePoint : element)
  : result (list element) :=
  match segment_data !! 2%nat with
  | Some (Element id (DList cuePoints) size) =>
    OK (<[2%nat := Element id (DList (cuePoints ++ [cuePoint])) size]> segment_data)
  | _ => Throw TypeError
  end.

(** The [do ... while] that collects the frames of one cluster.  [frame] is
    [frames[frameNumber]] and [rest] the frames after it; the result holds
    the frames left for the next clusters. *)
Fixpoint collect_frames (frame : Frame.t) (rest : list Frame.t)
         (clusterFrames : list Frame.t) (clusterDuration : Z)
  : list Frame.t * Z * list Frame.t :=
  let clusterFrames := clusterFrames ++ [frame] in
  let clusterDuration := clusterDuration + Frame.duration frame in
  match rest with
  | [] => (clusterFrames, clusterDuration, [])
  | frame' :: rest' =>
    if clusterDuration <? CLUSTER_MAX_DURATION
    then collect_frames frame' rest' clusterFrames clusterDuration
    else (clusterFrames, clusterDuration, rest)
  end.

(** The arguments [toWebM] packs a frame with. *)
Definition block_of (webp : Frame.t) (clusterCounter : Z) : Block.t :=
  {| Block.discardable := 0;
     Block.frame :=
       JS.slice (Frame.data webp)
                (JS.indexOf (Frame.data webp) KEYFRAME_MARKER - 3);
     Block.invisible := 0;
     Block.keyframe := 1;
     Block.lacing := 0;
     Block.trackNum := 1;
     Block.timecode := clusterCounter |}.

(** [clusterFrames.map(webp => ...)], threading [clusterCounter]. *)
Fixpoint cluster_blocks (clusterFrames : list Frame.t) (clusterCounter : Z)
  : result (list element) :=
  match clusterFrames with
  | [] => OK []
  | webp :: rest =>
    block ← makeSimpleBlock (block_of webp clusterCounter);
    blocks ← cluster_blocks rest (clusterCounter + Frame.duration webp);
    OK (Element EBML_IDS.SimpleBlock (DStr block) 0 :: blocks)
  end.

(** The loop [while (frameNumber < frames.length)]; [remaining] holds the
    frames from [frameNumber] on.  Each round consumes a frame, so
    [length frames] rounds of fuel are enough. *)
Fixpoint clusters_loop (fuel : nat) (remaining : list Frame.t)
         (clusterTimecode : Z) (segment_data : list element)
  : result (list element) :=
  match remaining with
  | [] => OK segment_data
  | frame :: rest =>
    match fuel with
    | O => Throw OutOfFuel
    | S fuel' =>
      segment_data ← cues_push segment_data (new_cuePoint clusterTimecode);
      let '(clusterFrames, clusterDuration, remaining') :=
        collect_frames frame rest [] 0 in
      blocks ← cluster_blocks clusterFrames 0;
      let cluster :=
        Element EBML_IDS.Cluster
                (DList (Element 0xe7 (DNum clusterTimecode) 0 :: blocks)) 0 in
      clusters_loop fuel' remaining' (clusterTimecode + clusterDuration)
                    (segment_data ++ [cluster])
    end
  end.

(** [cues.data[k].data[1].data[1].data = position] on the tree that
    [clusters_loop] builds; on any other shape the model stops with a
    TypeError. *)
Definition set_cue_position (segment_data : list element) (k : nat) (position : Z)
  : result (list element) :=
  match segment_data !! 2%nat with
  | Some (Element cid (DList cuePoints) csize) =>
    match cuePoints !! k with
    | Some (Element pid (DList pdata) psize) =>
      match pdata !! 1%nat with
      | Some (Element tid (DList tdata) tsize) =>
        match tdata !! 1%nat with
        | Some (Element fid _ fsize) =>
          let tdata' := <[1%nat := Element fid (DNum position) fsize]> tdata in
          let pdata' := <[1%nat := Element tid (DList tdata') tsize]> pdata in
          let cuePoints' := <[k := Element pid (DList pdata') psize]> cuePoints in
          OK (<[2%nat := Element cid (DList cuePoints') csize]> segment_data)
        | _ => Throw TypeError
        end
      | _ => Throw TypeError
      end
    | _ => Throw TypeError
    end
  | _ => Throw TypeError
  end.

(** The loop [for (i = 0; i < segment.data.length; i++)] that resolves the
    cue positions; [n] counts the rounds left. *)
Fixpoint positions_loop (n i : nat) (segment_data : list element) (position : Z)
  : result (list element * Z) :=
  match n with
  | O => OK (segment_data, position)
  | S n' =>
    segment_data ←
      (if (3 <=? i)%nat then set_cue_position segment_data (i - 3) position
       else OK segment_data);
    match segment_data !! i with
    | None => Throw TypeError
    | Some child =>
      data ← generateEBML [child];
      let position := position + Z.of_nat (length data) in
      let segment_data :=
        if (i =? 2)%nat then segment_data else <[i := Encoded data]> segment_data in
      positions_loop n' (S i) segment_data position
    end
  end.

(** The Segment's children when the cluster loop is done, and after the
    cue positions are resolved. *)
Definition segment_children (frames : list Frame.t) (info : Info.t)
  : result (list element) :=
  let segment_data :=
    [createSegmentInfo (Info.duration info);
     createTracks (Info.width info) (Info.height info);
     Element EBML_IDS.Cues (DList []) 0] in
  clusters_loop (length frames) frames 0 segment_data.

Definition resolved_children (frames : list Frame.t) (info : Info.t)
  : result (list element * Z) :=
  segment_data ← segment_children frames info;
  positions_loop (length segment_data) 0 segment_data 0.

Definition toWebM (frames : list Frame.t) : result bytes :=
  info ← validateFrames frames;
  '(segment_data, _) ← resolved_children frames info;
  generateEBML [createEBMLHeader info;
                Element EBML_IDS.Segment (DList segment_data) 0].

(** ** [flattenArray]

    An item of the array handed to [flattenArray] is an array-like object
    (an [Array] or a [Uint8Array]: an object with a [length]), whose items
    are flattened in turn, or a value that is pushed as it is.  [output] is
    the array the items are pushed to. *)
Inductive array_item :=
| Value (x : Z)
| ArrayLike (items : list array_item).

Fixpoint flattenArray_item (item : array_item) (output : list Z) : list Z :=
  match item with
  | Value x => output ++ [x]
  | ArrayLike items =>
    (fix flattenArray_items (arr : list array_item) (output : list Z) : list Z :=
       match arr with
       | [] => output
       | item' :: arr' => flattenArray_items arr' (flattenArray_item item' output)
       end) items output
  end.

Fixpoint flattenArray (arr : list array_item) (output : list Z) : list Z :=
  match arr with
  | [] => output
  | item :: arr' => flattenArray arr' (flattenArray_item item output)
  end.

(** The array [ebml] that the loop of [generateEBML] fills: an entry
    without [id] is pushed as it is, an element pushes the buffers of its
    id, its size descriptor and its data (for nested data, the buffer the
    recursive call returns). *)
Definition Uint8Array (b : bytes) : array_item := ArrayLike (map Value b).

Fixpoint ebml_array (json : list element) : result (list array_item) :=
  match json with
  | [] => OK []
  | Encoded b :: json' =>
    ebml ← ebml_array json';
    OK (Uint8Array b :: ebml)
  | Element id data size :: json' =>
    data ← match data with
           | DList l => generateEBML l
           | DNum n =>
             OK (match size with
                 | O => bitsToBuffer (JS.toString2 n)
                 | S _ => numToFixedBuffer n size
                 end)
           | DStr s => OK (strToBuffer s)
           end;
    let len := Z.of_nat (length data) in
    size ← vintSize len;
    ebml ← ebml_array json';
    OK (Uint8Array (numToBuffer id) :: Uint8Array size :: Uint8Array data :: ebml)
  end.

(** ** [parseRIFF]

    [parseRIFF] is internal and is applied to what [atob] returns and to
    substrings of it: a binary string, whose code units are bytes.  Such a
    string is a [list ascii] here, and a chunk id (a property name of
    [chunks]) a [string]. *)
Abbreviation binary_string := (list ascii).

Definition code_units (s : binary_string) : jsstring :=
  map (fun c => Z.of_nat (nat_of_ascii c)) s.

(** [s.substr(start)] and [s.substr(start, length)] for an integer
    [start]; a [length] that is [NaN] counts as 0. *)
Definition substr_from {A} (s : list A) (start : Z) : list A :=
  let size := Z.of_nat (length s) in
  let from := if start <? 0 then Z.max (size + start) 0 else Z.min start size in
  drop (Z.to_nat from) s.

Definition substr {A} (s : list A) (start : Z) (len : number) : list A :=
  take (Z.to_nat (JS.int_of len)) (substr_from s start).

(** [bits.padStart(8, '0')] *)
Definition padStart8 (bits : bitstring) : bitstring :=
  repeat JS.C0 (8 - length bits) ++ bits.

(** The chunk length: [parseInt] in base 2 of the characters of
    [lenBytes], each written on eight binary digits. *)
Definition riff_length (lenBytes : binary_string) : number :=
  JS.parseInt2
    (concat (map (fun c => padStart8 (JS.toString2 (Z.of_nat (nat_of_ascii c))))
                 lenBytes)).

(** The loop [while (offset < string.length)]; [fuel] bounds the rounds
    and the depth of the nested calls, and the length of the string is
    enough of it.  When the length is [NaN], so is the new [offset], and
    the loop ends. *)
Fixpoint parseRIFF_loop (fuel : nat) (str : binary_string) (offset : Z)
         (chunks : riff_chunks) : result riff_chunks :=
  if offset <? Z.of_nat (length str) then
    match fuel with
    | O => Throw OutOfFuel
    | S fuel' =>
      let id := string_of_list_ascii (substr str offset (Some 4)) in
      let entries := default [] (chunks !! id) in
      if (String.eqb id "RIFF" || String.eqb id "LIST")%bool then
        let lenBytes := substr str (offset + 4) (Some 4) in
        let len := riff_length lenBytes in
        let data := substr str (offset + 8) len in
        nested ← parseRIFF_loop fuel' data 0 ∅;
        let chunks := <[id := entries ++ [Nested nested]]> chunks in
        match len with
        | Some len => parseRIFF_loop fuel' str (offset + 8 + len) chunks
        | None => OK chunks
        end
      else if String.eqb id "WEBP" then
        OK (<[id := entries ++ [Leaf (code_units (substr_from str (offset + 8)))]]> chunks)
      else
        OK (<[id := entries ++ [Leaf (code_units (substr_from str (offset + 4)))]]> chunks)
    end
  else OK chunks.

Definition parseRIFF (str : binary_string) : result riff_chunks :=
  parseRIFF_loop (length str) str 0 ∅.

(** [parseWebP(parseRIFF(decoded))]: how [compile] and [fromImageArray]
    read an image from the binary string that [atob] returns. *)
Definition webp_of_binary (decoded : binary_string) : result WebP.t :=
  riff ← parseRIFF decoded;
  parseWebP riff.

(** ** Reference notions used in the statements *)

(** The big-endian encoding of [v] on [width] bytes (the bytes of
    [v mod 2^(8 * width)], most significant first). *)
Definition big_endian (width : nat) (v : Z) : bytes :=
  map (fun i => (v / 256 ^ Z.of_nat (width - 1 - i)) mod 256) (seq 0 width).

(** The EBML rule for reading a size descriptor of up to 8 bytes: the
    number [k] of zero bits before the marker bit of the first byte says
    that [k] more bytes follow; the value is what remains of the first
    byte after the marker, followed by those bytes.  Returns the value and
    the bytes after the descriptor, or [None] when the descriptor is
    malformed or cut short. *)
Definition reference_vint_decode (bs : bytes) : option (Z * bytes) :=
  match bs with
  | [] => None
  | b :: rest =>
    if (b <=? 0) || (255 <? b) then None
    else
      let k := Z.to_nat (7 - Z.log2 b) in
      if (length rest <? k)%nat then None
      else
        let value :=
          fold_left (fun acc x => acc * 256 + x) (take k rest) (b - 2 ^ Z.log2 b) in
        Some (value, drop k rest)
  end.

(** The number of zero bits before the first set bit of a byte. *)
Definition leading_zero_bits (b : Z) : Z :=
  if b <=? 0 then 8 else 7 - Z.log2 b.

(** A cue point whose CueClusterPosition holds [position]. *)
Definition cuePoint_at (clusterTimecode position : Z) : element :=
  Element EBML_IDS.CuePoint (DList [
    Element 0xb3 (DNum clusterTimecode) 0;
    Element EBML_IDS.CueTrackPositions (DList [
      Element 0xf7 (DNum 1) 0;
      Element 0xf1 (DNum position) 8
    ]) 0
  ]) 0.

(** A cue table as pairs of a cluster start time and a position. *)
Definition cue_of (c : Z * Z) : element := cuePoint_at c.1 c.2.

(** The positions of consecutive byte strings laid out from [position]. *)
Fixpoint cluster_offsets (position : Z) (clusters : list bytes) : list Z :=
  match clusters with
  | [] => []
  | b :: rest => position :: cluster_offsets (position + Z.of_nat (length b)) rest
  end.

(** Each child rendered on its own, as the position loop does. *)
Fixpoint render_each (children : list element) : result (list bytes) :=
  match children with
  | [] => OK []
  | child :: rest =>
    b ← generateEBML [child];
    bs ← render_each rest;
    OK (b :: bs)
  end.

(** [e'] renders whenever [e] does, to as many bytes. *)
Definition same_size (e e' : element) : Prop :=
  forall b, generateEBML_element e = OK b ->
            exists b', generateEBML_element e' = OK b' /\ length b' = length b.

(** [e] renders, to between 1 and [n] bytes. *)
Definition renders (e : element) (n : Z) : Prop :=
  exists b, generateEBML_element e = OK b /\ 1 <= Z.of_nat (length b) <= n.

Definition sum_list_Z (ns : list Z) : Z := foldr Z.add 0 ns.

(** A size measure of the input: the payload bytes plus [k] per frame. *)
Definition frames_cost (k : Z) (frames : list Frame.t) : Z :=
  sum_list_Z (map (fun f => k + Z.of_nat (length (Frame.data f))) frames).

Definition payload_size (frames : list Frame.t) : Z := frames_cost 256 frames.

Definition sum_durations (frames : list Frame.t) : Z :=
  foldr (fun f acc => Frame.duration f + acc) 0 frames.

(** The clusters of the cluster loop, as pairs of a start time and the
    frames collected: the same rounds as [clusters_loop], keeping
    [clusterTimecode] and [clusterFrames] only. *)
Fixpoint cluster_plan (fuel : nat) (remaining : list Frame.t) (clusterTimecode : Z)
  : list (Z * list Frame.t) :=
  match remaining with
  | [] => []
  | frame :: rest =>
    match fuel with
    | O => []
    | S fuel' =>
      let '(clusterFrames, clusterDuration, remaining') :=
        collect_frames frame rest [] 0 in
      (clusterTimecode, clusterFrames)
        :: cluster_plan fuel' remaining' (clusterTimecode + clusterDuration)
    end
  end.

Definition clusters_of (frames : list Frame.t) : list (Z * list Frame.t) :=
  cluster_plan (length frames) frames 0.

(** The blocks [cluster_blocks] returns (packing never throws there: the
    track number is 1). *)
Fixpoint simple_blocks (clusterFrames : list Frame.t) (clusterCounter : Z)
  : list element :=
  match clusterFrames with
  | [] => []
  | webp :: rest =>
    let b := block_of webp clusterCounter in
    Element EBML_IDS.SimpleBlock (DStr (block_header b ++ Block.frame b)) 0
      :: simple_blocks rest (clusterCounter + Frame.duration webp)
  end.

(** The Cluster element built from the blocks of one cluster. *)
Definition cluster_element (clusterTimecode : Z) (blocks : list element) : element :=
  Element EBML_IDS.Cluster
          (DList (Element 0xe7 (DNum clusterTimecode) 0 :: blocks)) 0.

(** The chunk map of a file made of one RIFF container holding one WEBP
    chunk with payload [VP8]. *)
Definition riff_of_payload (VP8 : jsstring) : riff_chunks :=
  {[ "RIFF"%string := [Nested {[ "WEBP"%string := [Leaf VP8] ]}] ]}.

(** A sample input that makes two clusters (four frames of 10 s). *)
Definition two_cluster_frames : list Frame.t :=
  let f := Frame.mk 64 64 10000 [0x10; 0x02; 0x00; 0x9d; 0x01; 0x2a; 64; 0; 64; 0] in
  [f; f; f; f].

(** What [validateFrames] checks of a frame after the first. *)
Definition frame_accepted (width height : Z) (f : Frame.t) : Prop :=
  Frame.width f = width /\ Frame.height f = height /\
  0 <= Frame.duration f <= 32767.

(** The number a byte sequence denotes, most significant byte first. *)
Definition from_big_endian (bs : bytes) : Z :=
  fold_left (fun acc b => acc * 256 + b) bs 0.

(** The number a string of binary digits denotes. *)
Definition bit_value (c : JS.bit_char) : Z :=
  match c with JS.C1 => 1 | _ => 0 end.

Definition bits_value (bits : bitstring) : Z :=
  fold_left (fun acc c => 2 * acc + bit_value c) bits 0.

Definition is_digit (c : JS.bit_char) : bool :=
  match c with JS.CMinus => false | _ => true end.

(** The items of a nested array, left to right. *)
Fixpoint leaves (item : array_item) : list Z :=
  match item with
  | Value x => [x]
  | ArrayLike items => flat_map leaves items
  end.

(** The integer that an IEEE-754 binary64 bit pattern denotes, if it
    denotes one: a sign bit, eleven exponent bits biased by 1023 and
    fifty-two fraction bits under an implicit leading 1. *)
Definition float64_value (bits : Z) : option Z :=
  let sign := bits / 2 ^ 63 in
  let e := (bits / 2 ^ 52) mod 2 ^ 11 in
  let frac := bits mod 2 ^ 52 in
  let magnitude :=
    if e =? 0 then (if frac =? 0 then Some 0 else None)
    else if e =? 2047 then None
    else
      let m := 2 ^ 52 + frac in
      if 1075 <=? e then Some (m * 2 ^ (e - 1075))
      else if m mod 2 ^ (1075 - e) =? 0 then Some (m / 2 ^ (1075 - e))
      else None in
  (fun v => if sign =? 0 then v else - v) <$> magnitude.

(** Whatever [e] renders to is made of bytes. *)
Definition renders_bytes (e : element) : Prop :=
  forall b, generateEBML_element e = OK b -> Forall (fun x => 0 <= x < 256) b.

(** * Properties *)

(** ** The 32-bit operators *)

Lemma ToInt32_range x : - 2 ^ 31 <= JS.ToInt32 x < 2 ^ 31.
Proof.
  unfold JS.ToInt32.
  pose proof (Z.mod_pos_bound (x + 2 ^ 31) (2 ^ 32)). lia.
Qed.

Lemma ToInt32_small x : - 2 ^ 31 <= x < 2 ^ 31 -> JS.ToInt32 x = x.
Proof.
  intros H. unfold JS.ToInt32. rewrite Z.mod_small; lia.
Qed.

Lemma ToInt32_idem x : JS.ToInt32 (JS.ToInt32 x) = JS.ToInt32 x.
Proof. apply ToInt32_small, ToInt32_range. Qed.

Lemma and_0xff num : JS.and num 0xff = JS.ToInt32 num mod 256.
Proof.
  unfold JS.and. change (JS.ToInt32 255) with (Z.ones 8).
  rewrite Z.land_ones by lia. reflexivity.
Qed.

Lemma sar_8 num : JS.sar num 8 = JS.ToInt32 num / 256.
Proof.
  unfold JS.sar. change (JS.ToUint32 8 mod 32) with 8.
  rewrite Z.shiftr_div_pow2 by lia. reflexivity.
Qed.

Lemma sar_8_range num : - 2 ^ 31 <= JS.sar num 8 < 2 ^ 31.
Proof.
  rewrite sar_8. pose proof (ToInt32_range num) as H.
  split.
  - apply Z.div_le_lower_bound; lia.
  - apply Z.div_lt_upper_bound; lia.
Qed.

(** ** The fuel of the numeric loops is enough *)

Lemma numToBuffer_loop_done fuel num parts :
  num <= 0 -> numToBuffer_loop fuel num parts = parts.
Proof.
  intros H. destruct fuel; [reflexivity|]. simpl.
  destruct (Z.ltb_spec 0 num); [lia | reflexivity].
Qed.

Lemma sar_8_shrinks x n :
  0 <= n -> x < 2 ^ (n + 8) -> - 2 ^ 31 <= x < 2 ^ 31 -> JS.sar x 8 < 2 ^ n.
Proof.
  intros Hn Hx Hr. rewrite sar_8, ToInt32_small by lia.
  apply Z.div_lt_upper_bound; [lia|].
  rewrite Z.pow_add_r in Hx by lia. change (2 ^ 8) with 256 in Hx. lia.
Qed.

(** [numToBuffer]'s loop stops within four rounds: more fuel changes
    nothing. *)
Lemma numToBuffer_loop_fuel k num parts :
  numToBuffer_loop (4 + k) num parts = numToBuffer_loop 4 num parts.
Proof.
  cbn [Nat.add numToBuffer_loop].
  destruct (0 <? num); [|reflexivity].
  pose proof (sar_8_range num) as R1.
  assert (JS.sar num 8 < 2 ^ 23) as B1.
  { rewrite sar_8. pose proof (ToInt32_range num).
    apply Z.div_lt_upper_bound; lia. }
  destruct (0 <? JS.sar num 8); [|reflexivity].
  pose proof (sar_8_range (JS.sar num 8)) as R2.
  pose proof (sar_8_shrinks (JS.sar num 8) 15 ltac:(lia) B1 R1) as B2.
  destruct (0 <? JS.sar (JS.sar num 8) 8); [|reflexivity].
  pose proof (sar_8_range (JS.sar (JS.sar num 8) 8)) as R3.
  pose proof (sar_8_shrinks _ 7 ltac:(lia) B2 R2) as B3.
  destruct (Z.ltb_spec 0 (JS.sar (JS.sar (JS.sar num 8) 8) 8)) as [P3|]; [|reflexivity].
  apply numToBuffer_loop_done.
  rewrite (sar_8 (JS.sar (JS.sar (JS.sar num 8) 8) 8)), ToInt32_small by lia.
  rewrite Z.div_small; lia.
Qed.

(** [bitsToBuffer]'s loop ends before its fuel does. *)
Lemma bitsToBuffer_loop_fuel fuel : forall fuel' (s : bitstring),
  (length s <= fuel)%nat -> (length s <= fuel')%nat ->
  bitsToBuffer_loop fuel s = bitsToBuffer_loop fuel' s.
Proof.
  induction fuel as [|fuel IH]; intros fuel' s H H'.
  - destruct s; [|simpl in H; lia]. destruct fuel'; reflexivity.
  - destruct s as [|c s]; [destruct fuel'; reflexivity|].
    destruct fuel' as [|fuel']; [simpl in H'; lia|].
    cbn [bitsToBuffer_loop]. f_equal.
    apply IH; rewrite length_drop; simpl in *; lia.
Qed.

(** ** [numToFixedBuffer] *)

Lemma numToFixedBuffer_length num size :
  length (numToFixedBuffer num size) = size.
Proof.
  revert num. induction size as [|size IH]; intros num; simpl.
  - reflexivity.
  - rewrite length_app, IH. simpl. lia.
Qed.

Lemma big_endian_S width v :
  big_endian (S width) v = big_endian width (v / 256) ++ [v mod 256].
Proof.
  unfold big_endian. rewrite seq_S, map_app. simpl. f_equal.
  - apply map_ext_in. intros i Hi. apply in_seq in Hi.
    replace (width - 0 - i)%nat with (S (width - 1 - i)) by lia.
    rewrite Nat2Z.inj_succ, Z.pow_succ_r by lia.
    rewrite Z.div_div by lia. reflexivity.
  - replace (width - 0 - width)%nat with 0%nat by lia.
    simpl. rewrite Z.div_1_r. reflexivity.
Qed.

Lemma big_endian_mod width v :
  big_endian width (v mod 2 ^ (8 * Z.of_nat width)) = big_endian width v.
Proof.
  revert v. induction width as [|width IH]; intros v.
  - reflexivity.
  - rewrite !big_endian_S.
    replace (8 * Z.of_nat (S width)) with (8 + 8 * Z.of_nat width) by lia.
    rewrite Z.pow_add_r by lia. change (2 ^ 8) with 256.
    f_equal.
    + rewrite <- (IH (v / 256)). f_equal.
      rewrite Z.rem_mul_r by lia.
      rewrite (Z.mul_comm 256), Z.div_add by lia.
      rewrite (Z.div_small (v mod 256)) by (apply Z.mod_pos_bound; lia).
      reflexivity.
    + f_equal. rewrite Z.rem_mul_r by lia.
      rewrite (Z.mul_comm 256), Z.mod_add by lia.
      apply Z.mod_mod. lia.
Qed.

Lemma numToFixedBuffer_int32 num size :
  numToFixedBuffer num size = big_endian size (JS.ToInt32 num).
Proof.
  revert num. induction size as [|size IH]; intros num.
  - reflexivity.
  - simpl. rewrite IH, big_endian_S, and_0xff.
    rewrite (ToInt32_small (JS.sar num 8)) by apply sar_8_range.
    rewrite sar_8. reflexivity.
Qed.

(** C9 (as amended).  [numToFixedBuffer(num, size)] returns exactly [size]
    bytes whatever [num] is; they are the big-endian encoding, truncated
    or extended to [size] bytes, of the 32-bit wrap of [num]; hence, for
    [0 <= num < 2^31], of [num mod 2^(8 * size)] itself. *)
Theorem numToFixedBuffer_fixed_width (num : Z) (size : nat) :
  length (numToFixedBuffer num size) = size /\
  numToFixedBuffer num size
    = big_endian size (JS.ToInt32 num mod 2 ^ (8 * Z.of_nat size)) /\
  (0 <= num < 2 ^ 31 ->
   numToFixedBuffer num size = big_endian size (num mod 2 ^ (8 * Z.of_nat size))).
Proof.
  split; [apply numToFixedBuffer_length|].
  split.
  - rewrite big_endian_mod. apply numToFixedBuffer_int32.
  - intros H. rewrite big_endian_mod, numToFixedBuffer_int32.
    rewrite ToInt32_small by lia. reflexivity.
Qed.

Lemma numToFixedBuffer_fixed_width_witness :
  0 <= 183 < 2 ^ 31 /\
  numToFixedBuffer 183 8 = big_endian 8 (183 mod 2 ^ (8 * Z.of_nat 8)).
Proof.
  split; [lia|].
  apply (proj2 (proj2 (numToFixedBuffer_fixed_width 183 8))). lia.
Defined.

(** C9 as stated fails from 2^31 on: 2^32 is written as eight zero bytes,
    where its big-endian encoding on eight bytes is 00 00 00 01 00 00 00 00. *)
Lemma numToFixedBuffer_not_64_bit :
  numToFixedBuffer (2 ^ 32) 8 = [0; 0; 0; 0; 0; 0; 0; 0] /\
  big_endian 8 ((2 ^ 32) mod 2 ^ (8 * Z.of_nat 8)) = [0; 0; 0; 1; 0; 0; 0; 0].
Proof. split; reflexivity. Qed.

(** ** Bit-level facts used by the block packer and the frame decoder *)

Lemma lor_shiftl_low hi lo n :
  0 <= n -> 0 <= lo < 2 ^ n -> Z.lor (Z.shiftl hi n) lo = hi * 2 ^ n + lo.
Proof.
  intros Hn Hlo.
  rewrite <- (Z.shiftl_mul_pow2 hi n) by lia.
  rewrite <- Z.add_lor_land.
  assert (Z.land (Z.shiftl hi n) lo = 0) as ->; [|lia].
  apply Z.bits_inj'. intros m Hm.
  rewrite Z.land_spec, Z.bits_0.
  destruct (Z.lt_ge_cases m n) as [Hlt|Hge].
  - rewrite Z.shiftl_spec_low by lia. reflexivity.
  - rewrite <- (Z.mod_small lo (2 ^ n)) by lia.
    rewrite Z.mod_pow2_bits_high by lia. apply andb_false_r.
Qed.

Lemma lor_0x80 t : 0 <= t < 128 -> Z.lor 0x80 t = 128 + t.
Proof.
  intros H. change 0x80 with (Z.shiftl 1 7).
  rewrite lor_shiftl_low by lia. reflexivity.
Qed.

Lemma block_flags_bits (b : Block.t) :
  0 <= Block.lacing b <= 3 ->
  0 <= block_flags b < 256 /\
  Z.testbit (block_flags b) 7 = JS.truthy (Block.keyframe b) /\
  Z.testbit (block_flags b) 3 = JS.truthy (Block.invisible b) /\
  Z.land (Z.shiftr (block_flags b) 1) 3 = Block.lacing b /\
  Z.testbit (block_flags b) 0 = JS.truthy (Block.discardable b) /\
  Z.testbit (block_flags b) 4 = false /\
  Z.testbit (block_flags b) 5 = false /\
  Z.testbit (block_flags b) 6 = false.
Proof.
  intros Hl. unfold block_flags.
  assert (Block.lacing b = 0 \/ Block.lacing b = 1 \/
          Block.lacing b = 2 \/ Block.lacing b = 3) as Hc by lia.
  destruct (JS.truthy (Block.keyframe b)), (JS.truthy (Block.invisible b)),
           (JS.truthy (Block.discardable b));
    destruct Hc as [-> | [-> | [-> | ->]]]; vm_compute; intuition congruence.
Qed.

(** ** [makeSimpleBlock] *)

Lemma sar_8_uint16 tc : 0 <= tc < 2 ^ 16 -> JS.sar tc 8 = tc / 256 /\ 0 <= tc / 256 < 256.
Proof.
  intros H. rewrite sar_8, ToInt32_small by lia.
  split; [reflexivity|].
  split; [apply Z.div_pos; lia | apply Z.div_lt_upper_bound; lia].
Qed.

Lemma or_0x80 t : 0 <= t <= 127 -> JS.or t 0x80 = Z.lor 0x80 t /\ 128 <= Z.lor 0x80 t < 256.
Proof.
  intros H. unfold JS.or. rewrite ToInt32_small by lia.
  change (JS.ToInt32 128) with 128. rewrite Z.lor_comm.
  split; [reflexivity|]. rewrite lor_0x80 by lia. lia.
Qed.

Lemma ToUint16_small x : 0 <= x < 2 ^ 16 -> JS.ToUint16 x = x.
Proof. intros H. unfold JS.ToUint16. apply Z.mod_small. lia. Qed.

Lemma ToUint8_ToUint16 x : JS.ToUint8 (JS.ToUint16 x) = x mod 256.
Proof.
  unfold JS.ToUint8, JS.ToUint16.
  change (2 ^ 16) with (2 ^ 8 * 2 ^ 8).
  rewrite Z.rem_mul_r by lia. change (2 ^ 8) with 256.
  rewrite (Z.mul_comm 256), Z.mod_add by lia. apply Z.mod_mod. lia.
Qed.

Lemma block_header_bytes (b : Block.t) :
  0 <= Block.trackNum b <= 127 ->
  0 <= Block.timecode b < 2 ^ 16 ->
  0 <= Block.lacing b <= 3 ->
  block_header b
  = [Z.lor 0x80 (Block.trackNum b);
     Block.timecode b / 256;
     Block.timecode b mod 256;
     block_flags b].
Proof.
  intros Htr Htc Hl.
  destruct (block_flags_bits b Hl) as (Hf & _).
  pose proof (Z.mod_pos_bound (Block.timecode b) 256) as Hlo.
  unfold block_header.
  destruct (sar_8_uint16 _ Htc) as [-> Hhi].
  destruct (or_0x80 _ Htr) as [-> Hor].
  rewrite and_0xff, ToInt32_small by lia.
  simpl. unfold JS.fromCharCode.
  rewrite !ToUint16_small by lia. reflexivity.
Qed.

(** C5.  [makeSimpleBlock] throws exactly when [trackNum > 127]; otherwise
    it returns a four-character header followed by the frame unchanged.
    For a track number in [0, 127], a timecode on 16 bits and a lacing mode
    in [0, 3] the header is [0x80 | trackNum], the high and the low byte
    of the timecode, and the flags byte, whose bit 7 is [keyframe], bit 3
    [invisible], bits 1-2 the lacing mode and bit 0 [discardable].  For a
    negative timecode the same four bytes (in two's complement) are what
    the serializer writes for the block. *)
Theorem makeSimpleBlock_header (b : Block.t) :
  ((exists e, makeSimpleBlock b = Throw e) <-> 127 < Block.trackNum b) /\
  (Block.trackNum b <= 127 ->
   exists header, length header = 4%nat /\
                  makeSimpleBlock b = OK (header ++ Block.frame b)) /\
  (0 <= Block.trackNum b <= 127 ->
   0 <= Block.timecode b < 2 ^ 16 ->
   0 <= Block.lacing b <= 3 ->
   makeSimpleBlock b
   = OK ([Z.lor 0x80 (Block.trackNum b);
          Block.timecode b / 256;
          Block.timecode b mod 256;
          block_flags b] ++ Block.frame b) /\
   Z.testbit (block_flags b) 7 = JS.truthy (Block.keyframe b) /\
   Z.testbit (block_flags b) 3 = JS.truthy (Block.invisible b) /\
   Z.land (Z.shiftr (block_flags b) 1) 3 = Block.lacing b /\
   Z.testbit (block_flags b) 0 = JS.truthy (Block.discardable b) /\
   Z.testbit (block_flags b) 4 = false /\
   Z.testbit (block_flags b) 5 = false /\
   Z.testbit (block_flags b) 6 = false) /\
  (0 <= Block.trackNum b <= 127 ->
   - 2 ^ 31 <= Block.timecode b < 2 ^ 31 ->
   0 <= Block.lacing b <= 3 ->
   exists block,
     makeSimpleBlock b = OK block /\
     strToBuffer block
     = [Z.lor 0x80 (Block.trackNum b);
        (Block.timecode b / 256) mod 256;
        Block.timecode b mod 256;
        block_flags b] ++ strToBuffer (Block.frame b)).
Proof.
  unfold makeSimpleBlock.
  destruct (127 <? Block.trackNum b) eqn:Ht.
  - apply Z.ltb_lt in Ht. repeat split; try lia; eauto.
  - apply Z.ltb_ge in Ht. split; [|split; [|split]].
    + split; [intros [e He]; discriminate | lia].
    + intros _. eexists. split; [|reflexivity]. reflexivity.
    + intros Htr Htc Hl.
      destruct (block_flags_bits b Hl) as (Hf & H7 & H3 & H12 & H0 & H4 & H5 & H6).
      repeat split; try assumption.
      rewrite block_header_bytes by assumption. reflexivity.
    + intros Htr Htc Hl. eexists. split; [reflexivity|].
      destruct (block_flags_bits b Hl) as (Hf & _).
      destruct (or_0x80 _ Htr) as [Hor Hrange].
      unfold strToBuffer, block_header. rewrite map_app. f_equal.
      cbn [map concat app JS.fromCharCode].
      rewrite !ToUint8_ToUint16, Hor, sar_8, and_0xff, ToInt32_small by lia.
      rewrite Z.mod_mod by lia.
      rewrite (Z.mod_small (Z.lor 128 (Block.trackNum b))) by lia.
      rewrite (Z.mod_small (block_flags b)) by lia.
      reflexivity.
Qed.

Lemma makeSimpleBlock_header_witness :
  makeSimpleBlock (Block.mk 127 1000 1 0 0 0 [7; 8; 9])
  = OK ([255; 3; 232; 128] ++ [7; 8; 9]).
Proof.
  destruct (makeSimpleBlock_header (Block.mk 127 1000 1 0 0 0 [7; 8; 9]))
    as (_ & _ & H & _).
  apply H; simpl; lia.
Defined.

(** Track number 128 is rejected. *)
Example makeSimpleBlock_128 :
  makeSimpleBlock (Block.mk 128 0 1 0 0 0 []) = Throw TrackNumberNotSupported.
Proof. reflexivity. Qed.

(** ** [validateFrames] *)

Lemma validateFrames_loop_OK i rest width height d :
  Forall (frame_accepted width height) rest ->
  validateFrames_loop i rest width height d = OK (d + sum_durations rest).
Proof.
  intros H. revert i d. induction H as [|f rest (Hw & Hh & Hd) _ IH]; intros i d; simpl.
  - f_equal. lia.
  - rewrite Hw, Hh, !Z.eqb_refl. simpl.
    destruct (Z.ltb_spec (Frame.duration f) 0); [lia|].
    destruct (Z.ltb_spec 32767 (Frame.duration f)); [lia|]. simpl.
    rewrite IH. f_equal. lia.
Qed.

Lemma validateFrames_loop_inv i rest width height d t :
  validateFrames_loop i rest width height d = OK t ->
  Forall (frame_accepted width height) rest.
Proof.
  revert i d. induction rest as [|f rest IH]; intros i d; simpl.
  - constructor.
  - destruct (Z.eqb_spec (Frame.width f) width); simpl; [|discriminate].
    destruct (Z.eqb_spec (Frame.height f) height); simpl; [|discriminate].
    destruct (Z.ltb_spec (Frame.duration f) 0); simpl; [discriminate|].
    destruct (Z.ltb_spec 32767 (Frame.duration f)); simpl; [discriminate|].
    intros Hloop. constructor; [repeat split; lia | eauto].
Qed.

(** [validateFrames] accepts a list exactly when it is not empty and every
    frame after the first has the first frame's dimensions and a duration
    in [0, 32767]; the first frame's duration is not looked at. *)
Lemma validateFrames_OK_iff frames info :
  validateFrames frames = OK info <->
  exists frame0 rest,
    frames = frame0 :: rest /\
    Forall (frame_accepted (Frame.width frame0) (Frame.height frame0)) rest /\
    info = {| Info.duration := sum_durations frames;
              Info.width := Frame.width frame0;
              Info.height := Frame.height frame0 |}.
Proof.
  destruct frames as [|f0 rest]; simpl.
  - split; [discriminate | intros (? & ? & ? & _); discriminate].
  - split.
    + destruct (validateFrames_loop _ _ _ _ _) eqn:E; simpl; [|discriminate].
      intros [= <-]. exists f0, rest.
      pose proof (validateFrames_loop_inv _ _ _ _ _ _ E) as HF.
      rewrite (validateFrames_loop_OK _ _ _ _ _ HF) in E. injection E as <-.
      auto.
    + intros (f0' & rest' & [= <- <-] & HF & ->).
      rewrite (validateFrames_loop_OK _ _ _ _ _ HF). reflexivity.
Qed.

(** C3.  The duration check is inside the loop that starts at the second
    frame: a list whose first frame lasts 40000 ms passes [validateFrames],
    and [toWebM] returns a document for it. *)
Theorem validateFrames_first_duration_unchecked :
  (forall f : Frame.t,
      validateFrames [f]
      = OK {| Info.duration := Frame.duration f;
              Info.width := Frame.width f;
              Info.height := Frame.height f |}) /\
  let frames := [Frame.mk 64 64 40000 [0x10; 0x02; 0x00; 0x9d; 0x01; 0x2a; 64; 0; 64; 0]] in
  validateFrames frames = OK (Info.mk 40000 64 64) /\
  is_OK (toWebM frames) = true.
Proof.
  split; [intros f; reflexivity|].
  split; vm_compute; reflexivity.
Qed.

(** ** [indexOf] *)

Lemma starts_with_spec pat s :
  JS.starts_with pat s = true <-> exists post, s = pat ++ post.
Proof.
  revert s. induction pat as [|p pat IH]; intros s; simpl.
  - split; eauto.
  - destruct s as [|c s].
    + split; [discriminate | intros [post H]; discriminate].
    + rewrite andb_true_iff, Z.eqb_eq, IH. split.
      * intros [-> [post ->]]. eauto.
      * intros [post [= -> ->]]. eauto.
Qed.

Lemma indexOf_from_absent s pat k :
  (forall j, JS.starts_with pat (drop j s) = false) ->
  JS.indexOf_from s pat k = -1.
Proof.
  revert k. induction s as [|c s IH]; intros k H;
    pose proof (H 0%nat) as H0; rewrite drop_0 in H0;
    cbn [JS.indexOf_from]; rewrite H0.
  - reflexivity.
  - apply IH. intros j. apply (H (S j)).
Qed.

Lemma indexOf_from_first s pat k j :
  JS.starts_with pat (drop j s) = true ->
  (forall j', (j' < j)%nat -> JS.starts_with pat (drop j' s) = false) ->
  JS.indexOf_from s pat k = k + Z.of_nat j.
Proof.
  revert s k. induction j as [|j IH]; intros s k Hj Hfirst.
  - rewrite drop_0 in Hj. destruct s; cbn [JS.indexOf_from]; rewrite Hj; lia.
  - pose proof (Hfirst 0%nat ltac:(lia)) as H0. rewrite drop_0 in H0.
    destruct s as [|c s].
    + rewrite drop_nil in Hj. congruence.
    + cbn [JS.indexOf_from]. rewrite H0. rewrite (IH s (k + 1)).
      * lia.
      * exact Hj.
      * intros j' Hj'. apply (Hfirst (S j')). lia.
Qed.

Lemma starts_with_drop pat s j :
  JS.starts_with pat (drop j s) = true ->
  exists post, s = take j s ++ pat ++ post.
Proof.
  intros H. apply starts_with_spec in H as [post H].
  exists post. rewrite <- H. symmetry. apply take_drop.
Qed.

Lemma indexOf_absent s pat :
  (forall pre post, s <> pre ++ pat ++ post) -> JS.indexOf s pat = -1.
Proof.
  intros H. apply indexOf_from_absent. intros j.
  destruct (JS.starts_with pat (drop j s)) eqn:E; [|reflexivity].
  apply starts_with_drop in E as [post E]. destruct (H _ _ E).
Qed.

(** In [pre ++ pat ++ post], with no occurrence of [pat] starting inside
    [pre], [indexOf] is the length of [pre]. *)
Lemma indexOf_first pre pat post :
  (forall pre' post',
      pre ++ pat ++ post = pre' ++ pat ++ post' -> (length pre <= length pre')%nat) ->
  JS.indexOf (pre ++ pat ++ post) pat = Z.of_nat (length pre).
Proof.
  intros H. unfold JS.indexOf.
  rewrite (indexOf_from_first _ pat 0 (length pre)).
  - lia.
  - rewrite drop_app_length. apply starts_with_spec. eauto.
  - intros j' Hj'.
    destruct (JS.starts_with pat (drop j' (pre ++ pat ++ post))) eqn:E; [|reflexivity].
    apply starts_with_drop in E as [post' E].
    apply H in E. rewrite length_take in E. lia.
Qed.

(** ** [parseWebP] *)

Lemma le_word16 c0 c1 :
  0 <= c0 < 256 -> 0 <= c1 < 256 ->
  JS.or (JS.shl c1 8) c0 = c0 + 256 * c1 /\ 0 <= c0 + 256 * c1 < 2 ^ 16.
Proof.
  intros H0 H1. split; [|lia].
  unfold JS.or, JS.shl. change (JS.ToUint32 8 mod 32) with 8.
  rewrite (ToInt32_small c1), (ToInt32_small c0) by lia.
  rewrite ToInt32_idem, (ToInt32_small (Z.shiftl c1 8)).
  - rewrite lor_shiftl_low by lia. lia.
  - rewrite Z.shiftl_mul_pow2 by lia. change (2 ^ 8) with 256. lia.
Qed.

Lemma and_0x3FFF w : 0 <= w < 2 ^ 16 -> JS.and w 0x3FFF = w mod 2 ^ 14.
Proof.
  intros H. unfold JS.and. rewrite ToInt32_small by lia.
  change (JS.ToInt32 16383) with (Z.ones 14).
  apply Z.land_ones. lia.
Qed.

Lemma sar_14 w : 0 <= w < 2 ^ 16 -> JS.sar w 14 = w / 2 ^ 14.
Proof.
  intros H. unfold JS.sar. rewrite ToInt32_small by lia.
  change (JS.ToUint32 14 mod 32) with 14.
  apply Z.shiftr_div_pow2. lia.
Qed.

(** [parseWebP] on a payload whose [indexOf] is [k] and whose code units
    at [k + 3 .. k + 6], read with [NaN] as 0, are the bytes [c0 .. c3]. *)
Lemma parseWebP_words riff VP8 c0 c1 c2 c3 :
  riff_payload riff = OK VP8 ->
  let k := JS.indexOf VP8 KEYFRAME_MARKER in
  JS.int_of (JS.charCodeAt VP8 (k + 3 + 0)) = c0 ->
  JS.int_of (JS.charCodeAt VP8 (k + 3 + 1)) = c1 ->
  JS.int_of (JS.charCodeAt VP8 (k + 3 + 2)) = c2 ->
  JS.int_of (JS.charCodeAt VP8 (k + 3 + 3)) = c3 ->
  0 <= c0 < 256 -> 0 <= c1 < 256 -> 0 <= c2 < 256 -> 0 <= c3 < 256 ->
  parseWebP riff
  = OK {| WebP.width := (c0 + 256 * c1) mod 2 ^ 14;
          WebP.height := (c2 + 256 * c3) mod 2 ^ 14;
          WebP.data := VP8;
          WebP.riff := riff;
          WebP.horizontalScale := (c0 + 256 * c1) / 2 ^ 14;
          WebP.verticalScale := (c2 + 256 * c3) / 2 ^ 14 |}.
Proof.
  intros HP k E0 E1 E2 E3 H0 H1 H2 H3.
  unfold parseWebP. rewrite HP. cbn [mbind result_bind].
  fold k. rewrite E0, E1, E2, E3.
  destruct (le_word16 c0 c1 H0 H1) as [-> Hw0].
  destruct (le_word16 c2 c3 H2 H3) as [-> Hw1].
  rewrite !and_0x3FFF, !sar_14 by assumption.
  reflexivity.
Qed.

(** C4 (as amended).  When the payload holds no keyframe marker,
    [parseWebP] raises nothing: [indexOf] is -1 and the decoder returns a
    result whose two words are read at offsets 2..5 of the payload (a
    missing code unit reads as 0). *)
Theorem parseWebP_marker_absent (riff : riff_chunks) (VP8 : jsstring) :
  riff_payload riff = OK VP8 ->
  (forall pre post, VP8 <> pre ++ KEYFRAME_MARKER ++ post) ->
  Forall (fun c => 0 <= c < 256) VP8 ->
  let c (i : nat) := default 0 (VP8 !! i) in
  JS.indexOf VP8 KEYFRAME_MARKER = -1 /\
  parseWebP riff
  = OK {| WebP.width := (c 2%nat + 256 * c 3%nat) mod 2 ^ 14;
          WebP.height := (c 4%nat + 256 * c 5%nat) mod 2 ^ 14;
          WebP.data := VP8;
          WebP.riff := riff;
          WebP.horizontalScale := (c 2%nat + 256 * c 3%nat) / 2 ^ 14;
          WebP.verticalScale := (c 4%nat + 256 * c 5%nat) / 2 ^ 14 |}.
Proof.
  intros HP Habs Hb c.
  pose proof (indexOf_absent _ _ Habs) as Hk.
  split; [exact Hk|].
  assert (forall i : nat, JS.int_of (JS.charCodeAt VP8 (-1 + 3 + Z.of_nat i)) = c (2 + i)%nat)
    as Hc.
  { intros i. unfold JS.charCodeAt, c, JS.int_of.
    destruct (Z.ltb_spec (-1 + 3 + Z.of_nat i) 0); [lia|].
    replace (Z.to_nat (-1 + 3 + Z.of_nat i)) with (2 + i)%nat by lia. reflexivity. }
  assert (forall i : nat, 0 <= c i < 256) as Hr.
  { intros i. unfold c. destruct (VP8 !! i) as [x|] eqn:E; simpl; [|lia].
    rewrite Forall_forall in Hb. apply Hb.
    eapply list_elem_of_lookup_2. exact E. }
  apply parseWebP_words; try apply Hr; try exact HP; rewrite Hk.
  - exact (Hc 0%nat).
  - exact (Hc 1%nat).
  - exact (Hc 2%nat).
  - exact (Hc 3%nat).
Qed.

(** C8.  When the payload is [pre ++ marker ++ b0 b1 b2 b3 ++ rest], the
    marker does not start inside [pre] and the four code units are bytes,
    [parseWebP] returns the low 14 and the high 2 bits of the
    little-endian words [b0 + 256 b1] and [b2 + 256 b3]. *)
Theorem parseWebP_dimensions (riff : riff_chunks) (pre rest : jsstring) (b0 b1 b2 b3 : Z) :
  let VP8 := pre ++ KEYFRAME_MARKER ++ b0 :: b1 :: b2 :: b3 :: rest in
  riff_payload riff = OK VP8 ->
  (forall pre' post',
      VP8 = pre' ++ KEYFRAME_MARKER ++ post' -> (length pre <= length pre')%nat) ->
  0 <= b0 < 256 -> 0 <= b1 < 256 -> 0 <= b2 < 256 -> 0 <= b3 < 256 ->
  parseWebP riff
  = OK {| WebP.width := (b0 + 256 * b1) mod 2 ^ 14;
          WebP.height := (b2 + 256 * b3) mod 2 ^ 14;
          WebP.data := VP8;
          WebP.riff := riff;
          WebP.horizontalScale := (b0 + 256 * b1) / 2 ^ 14;
          WebP.verticalScale := (b2 + 256 * b3) / 2 ^ 14 |}.
Proof.
  intros VP8 HP Hfirst H0 H1 H2 H3.
  pose proof (indexOf_first pre KEYFRAME_MARKER (b0 :: b1 :: b2 :: b3 :: rest) Hfirst) as Hk.
  fold VP8 in Hk.
  assert (forall (i : nat) x,
             (b0 :: b1 :: b2 :: b3 :: rest) !! i = Some x ->
             JS.int_of (JS.charCodeAt VP8 (Z.of_nat (length pre) + 3 + Z.of_nat i)) = x)
    as Hc.
  { intros i x Hx. unfold JS.charCodeAt.
    destruct (Z.ltb_spec (Z.of_nat (length pre) + 3 + Z.of_nat i) 0); [lia|].
    replace (Z.to_nat (Z.of_nat (length pre) + 3 + Z.of_nat i))
      with (length pre + (3 + i))%nat by lia.
    unfold VP8. rewrite lookup_app_r by lia.
    replace (length pre + (3 + i) - length pre)%nat with (3 + i)%nat by lia.
    simpl. rewrite Hx. reflexivity. }
  apply parseWebP_words; try assumption; rewrite Hk.
  - apply (Hc 0%nat). reflexivity.
  - apply (Hc 1%nat). reflexivity.
  - apply (Hc 2%nat). reflexivity.
  - apply (Hc 3%nat). reflexivity.
Qed.

Lemma riff_payload_of_payload VP8 : riff_payload (riff_of_payload VP8) = OK VP8.
Proof.
  unfold riff_payload, riff_of_payload.
  rewrite lookup_singleton_eq. rewrite lookup_singleton_eq. reflexivity.
Qed.

Lemma no_marker_in_sample pre post :
  [1; 2; 3; 4; 5; 6] <> pre ++ KEYFRAME_MARKER ++ post.
Proof.
  intros H.
  assert (In 0x9d [1; 2; 3; 4; 5; 6]) as Hin.
  { rewrite H. apply in_or_app. right. left. reflexivity. }
  simpl in Hin. intuition discriminate.
Qed.

Lemma parseWebP_marker_absent_witness :
  parseWebP (riff_of_payload [1; 2; 3; 4; 5; 6])
  = OK {| WebP.width := 1027;
          WebP.height := 1541;
          WebP.data := [1; 2; 3; 4; 5; 6];
          WebP.riff := riff_of_payload [1; 2; 3; 4; 5; 6];
          WebP.horizontalScale := 0;
          WebP.verticalScale := 0 |}.
Proof.
  apply (parseWebP_marker_absent (riff_of_payload [1; 2; 3; 4; 5; 6]) [1; 2; 3; 4; 5; 6]).
  - apply riff_payload_of_payload.
  - apply no_marker_in_sample.
  - repeat constructor; lia.
Defined.

(** C4 as stated fails: a payload without the marker is decoded without
    any error. *)
Lemma parseWebP_no_marker_no_error :
  (forall pre post, [1; 2; 3; 4; 5; 6] <> pre ++ KEYFRAME_MARKER ++ post) /\
  is_OK (parseWebP (riff_of_payload [1; 2; 3; 4; 5; 6])) = true.
Proof.
  split; [apply no_marker_in_sample|].
  unfold parseWebP. rewrite riff_payload_of_payload. reflexivity.
Qed.

Lemma parseWebP_dimensions_witness :
  parseWebP (riff_of_payload ([0x10; 0x02; 0x00] ++ KEYFRAME_MARKER
                                ++ [0x40; 0x41; 0x80; 0xc2; 9]))
  = OK {| WebP.width := 320;
          WebP.height := 640;
          WebP.data := [0x10; 0x02; 0x00] ++ KEYFRAME_MARKER
                         ++ [0x40; 0x41; 0x80; 0xc2; 9];
          WebP.riff := riff_of_payload ([0x10; 0x02; 0x00] ++ KEYFRAME_MARKER
                                          ++ [0x40; 0x41; 0x80; 0xc2; 9]);
          WebP.horizontalScale := 1;
          WebP.verticalScale := 3 |}.
Proof.
  apply (parseWebP_dimensions _ [0x10; 0x02; 0x00] [9] 0x40 0x41 0x80 0xc2).
  - apply riff_payload_of_payload.
  - intros [|a [|b [|c pre']]] post'; simpl; try lia; intros [=].
  - lia.
  - lia.
  - lia.
  - lia.
Defined.

(** ** The cluster loop *)

Lemma sum_durations_app l1 l2 :
  sum_durations (l1 ++ l2) = sum_durations l1 + sum_durations l2.
Proof.
  unfold sum_durations. induction l1 as [|f l1 IH]; simpl; [reflexivity|].
  rewrite IH. lia.
Qed.

Lemma sum_durations_cons f l :
  sum_durations (f :: l) = Frame.duration f + sum_durations l.
Proof. reflexivity. Qed.

Lemma sum_durations_nonneg l :
  Forall (fun f => 0 <= Frame.duration f) l -> 0 <= sum_durations l.
Proof.
  induction 1 as [|f l Hf _ IH]; [reflexivity|].
  rewrite sum_durations_cons. lia.
Qed.

(** What one run of the [do ... while] does: it takes [frame] and a prefix
    [taken] of [rest]; it goes on only while the duration collected so far
    is below the threshold, and leaves frames only if the threshold is
    reached. *)
Lemma collect_frames_spec frame rest clusterFrames clusterDuration :
  exists taken remaining',
    collect_frames frame rest clusterFrames clusterDuration
    = (clusterFrames ++ frame :: taken,
       clusterDuration + sum_durations (frame :: taken),
       remaining') /\
    rest = taken ++ remaining' /\
    (forall i, (i < length taken)%nat ->
               clusterDuration + sum_durations (frame :: take i taken)
               < CLUSTER_MAX_DURATION) /\
    (remaining' <> [] ->
     CLUSTER_MAX_DURATION <= clusterDuration + sum_durations (frame :: taken)).
Proof.
  revert frame clusterFrames clusterDuration.
  induction rest as [|frame' rest IH]; intros frame clusterFrames clusterDuration.
  - exists [], []. cbn [collect_frames].
    rewrite sum_durations_cons. change (sum_durations []) with 0.
    rewrite Z.add_0_r. repeat split.
    + intros i Hi. simpl in Hi. lia.
    + congruence.
  - cbn [collect_frames].
    destruct (Z.ltb_spec (clusterDuration + Frame.duration frame) CLUSTER_MAX_DURATION)
      as [Hlt|Hge].
    + destruct (IH frame' (clusterFrames ++ [frame])
                   (clusterDuration + Frame.duration frame))
        as (taken & remaining' & E & Hrest & Hopen & Hclosed).
      exists (frame' :: taken), remaining'. rewrite E.
      rewrite <- app_assoc. cbn [app]. repeat split.
      * f_equal. f_equal. rewrite !sum_durations_cons. lia.
      * f_equal. exact Hrest.
      * intros [|i] Hi.
        -- rewrite take_0, sum_durations_cons. change (sum_durations []) with 0. lia.
        -- cbn [length] in Hi. specialize (Hopen i ltac:(lia)).
           cbn [take]. rewrite !sum_durations_cons in *. lia.
      * intros Hne. specialize (Hclosed Hne).
        rewrite !sum_durations_cons in *. lia.
    + exists [], (frame' :: rest).
      rewrite sum_durations_cons. change (sum_durations []) with 0.
      rewrite Z.add_0_r. repeat split.
      * intros i Hi. simpl in Hi. lia.
      * intros _. lia.
Qed.

Lemma cluster_blocks_OK clusterFrames clusterCounter :
  cluster_blocks clusterFrames clusterCounter
  = OK (simple_blocks clusterFrames clusterCounter).
Proof.
  revert clusterCounter.
  induction clusterFrames as [|webp rest IH]; intros clusterCounter; simpl.
  - reflexivity.
  - rewrite IH. reflexivity.
Qed.

(** The block of the [i]-th frame of a cluster is packed with the sum of
    the durations of the frames before it. *)
Lemma simple_blocks_lookup clusterFrames clusterCounter i (webp : Frame.t) :
  clusterFrames !! i = Some webp ->
  simple_blocks clusterFrames clusterCounter !! i
  = Some (let b := block_of webp (clusterCounter + sum_durations (take i clusterFrames)) in
          Element EBML_IDS.SimpleBlock (DStr (block_header b ++ Block.frame b)) 0).
Proof.
  revert clusterCounter i.
  induction clusterFrames as [|f rest IH]; intros c i H.
  - destruct i; discriminate.
  - destruct i as [|i].
    + injection H as ->. simpl. unfold sum_durations. simpl.
      rewrite Z.add_0_r. reflexivity.
    + simpl in H. cbn [simple_blocks lookup list_lookup].
      rewrite (IH _ _ H). cbn [take]. rewrite sum_durations_cons.
      rewrite Z.add_assoc. reflexivity.
Qed.

(** The rounds of the cluster loop, with enough fuel. *)
Lemma clusters_loop_plan fuel :
  forall remaining clusterTimecode info tracks cid cuePoints csize clusters,
    (length remaining <= fuel)%nat ->
    let plan := cluster_plan fuel remaining clusterTimecode in
    clusters_loop fuel remaining clusterTimecode
                  ([info; tracks; Element cid (DList cuePoints) csize] ++ clusters)
    = OK ([info; tracks;
           Element cid (DList (cuePoints ++ map (fun c => new_cuePoint c.1) plan)) csize]
            ++ clusters
            ++ map (fun c => cluster_element c.1 (simple_blocks c.2 0)) plan).
Proof.
  induction fuel as [|fuel IH];
    intros remaining tc info tracks cid cuePoints csize clusters Hfuel plan.
  - destruct remaining; [|simpl in Hfuel; lia].
    simpl. rewrite !app_nil_r. reflexivity.
  - destruct remaining as [|frame rest].
    + simpl. rewrite !app_nil_r. reflexivity.
    + subst plan. cbn [clusters_loop cluster_plan].
      destruct (collect_frames_spec frame rest [] 0)
        as (taken & remaining' & E & Hrest & _ & _).
      rewrite E. cbn [cues_push app lookup list_lookup mbind result_bind].
      rewrite cluster_blocks_OK. cbn [mbind result_bind].
      change (<[2%nat:=?x]> (?a :: ?b :: ?c :: ?l)) with (a :: b :: x :: l).
      cbn [list_insert].
      change ((info :: tracks :: ?c :: clusters) ++ [?x])
        with ([info; tracks; c] ++ (clusters ++ [x])).
      rewrite IH.
      * cbn [map fst snd]. rewrite <- !app_assoc. reflexivity.
      * simpl in Hfuel. rewrite Hrest, length_app in Hfuel. lia.
Qed.

Lemma cluster_plan_spec fuel :
  forall remaining clusterTimecode,
    (length remaining <= fuel)%nat ->
    let plan := cluster_plan fuel remaining clusterTimecode in
    concat (map snd plan) = remaining /\
    Forall (fun c : Z * list Frame.t =>
              c.2 <> [] /\
              forall i, (0 < i < length c.2)%nat ->
                        sum_durations (take i c.2) < CLUSTER_MAX_DURATION) plan /\
    (forall k c, plan !! k = Some c -> (S k < length plan)%nat ->
                 CLUSTER_MAX_DURATION <= sum_durations c.2) /\
    (remaining <> [] -> plan <> []).
Proof.
  induction fuel as [|fuel IH]; intros remaining tc Hfuel plan.
  - destruct remaining; [|simpl in Hfuel; lia].
    subst plan. simpl. repeat split; try constructor; try congruence.
    intros k c H. destruct k; discriminate.
  - destruct remaining as [|frame rest].
    + subst plan. simpl. repeat split; try constructor; try congruence.
      intros k c H. destruct k; discriminate.
    + subst plan. cbn [cluster_plan].
      destruct (collect_frames_spec frame rest [] 0)
        as (taken & remaining' & E & Hrest & Hopen & Hclosed).
      rewrite E. cbn [app].
      assert (length remaining' <= fuel)%nat as Hfuel'.
      { simpl in Hfuel. rewrite Hrest, length_app in Hfuel. lia. }
      destruct (IH remaining' (tc + (0 + sum_durations (frame :: taken))) Hfuel')
        as (Hcat & Hall & Hfull & Hne).
      repeat split.
      * cbn [map concat snd]. rewrite Hcat, Hrest. reflexivity.
      * constructor; [|exact Hall]. cbn [snd]. split; [congruence|].
        intros [|i] Hi; [lia|]. cbn [length] in Hi.
        specialize (Hopen i ltac:(lia)). cbn [take]. lia.
      * intros [|k] c Hc Hlen.
        -- injection Hc as <-. cbn [snd]. cbn [length] in Hlen.
           assert (remaining' <> []) as Hr.
           { intros ->. destruct fuel; simpl in Hlen; lia. }
           specialize (Hclosed Hr). lia.
        -- cbn [length] in Hlen. apply (Hfull k c Hc). lia.
      * discriminate.
Qed.

Lemma segment_children_plan frames info :
  let plan := clusters_of frames in
  segment_children frames info
  = OK ([createSegmentInfo (Info.duration info);
         createTracks (Info.width info) (Info.height info);
         Element EBML_IDS.Cues (DList (map (fun c => new_cuePoint c.1) plan)) 0]
          ++ map (fun c => cluster_element c.1 (simple_blocks c.2 0)) plan).
Proof.
  intros plan. unfold segment_children.
  change [createSegmentInfo (Info.duration info);
          createTracks (Info.width info) (Info.height info);
          Element EBML_IDS.Cues (DList []) 0]
    with ([createSegmentInfo (Info.duration info);
           createTracks (Info.width info) (Info.height info);
           Element EBML_IDS.Cues (DList []) 0] ++ []).
  rewrite clusters_loop_plan by lia. reflexivity.
Qed.

Lemma Forall_concat_inv {A} (P : A -> Prop) (ls : list (list A)) (l : list A) :
  Forall P (concat ls) -> l ∈ ls -> Forall P l.
Proof.
  induction ls as [|l0 ls IH]; simpl; intros H Hin.
  - inversion Hin.
  - apply Forall_app in H as [H0 H1].
    apply elem_of_cons in Hin as [-> | Hin]; auto.
Qed.

Lemma sum_durations_take_nonneg (fs : list Frame.t) i :
  Forall (fun f => 0 <= Frame.duration f <= 32767) fs ->
  0 <= sum_durations (take i fs).
Proof.
  intros H. apply sum_durations_nonneg.
  apply Forall_take. eapply Forall_impl; [exact H|]. simpl. intros; lia.
Qed.

(** C6.  The clusters [toWebM] builds are [clusters_of frames]: their
    frames, in order, are the input frames; no cluster is empty; within a
    cluster the duration collected before each further frame is below
    30000 ms; and a cluster followed by another one has reached 30000 ms.
    Four frames of 10000 ms give the clusters of frames 0-2 and frame 3,
    and a first frame of 32767 ms is a cluster of its own. *)
Theorem cluster_partition (frames : list Frame.t) (info : Info.t) :
  let plan := clusters_of frames in
  segment_children frames info
  = OK ([createSegmentInfo (Info.duration info);
         createTracks (Info.width info) (Info.height info);
         Element EBML_IDS.Cues (DList (map (fun c => new_cuePoint c.1) plan)) 0]
          ++ map (fun c => cluster_element c.1 (simple_blocks c.2 0)) plan) /\
  concat (map snd plan) = frames /\
  Forall (fun c : Z * list Frame.t => c.2 <> []) plan /\
  Forall (fun c : Z * list Frame.t =>
            forall i, (0 < i < length c.2)%nat ->
                      sum_durations (take i c.2) < CLUSTER_MAX_DURATION) plan /\
  (forall k c, plan !! k = Some c -> (S k < length plan)%nat ->
               CLUSTER_MAX_DURATION <= sum_durations c.2) /\
  (forall (w h : Z) (d0 d1 d2 d3 : jsstring),
      let f (d : jsstring) := Frame.mk w h 10000 d in
      clusters_of [f d0; f d1; f d2; f d3]
      = [(0, [f d0; f d1; f d2]); (30000, [f d3])]) /\
  (forall (w h : Z) (d0 d1 : jsstring),
      clusters_of [Frame.mk w h 32767 d0; Frame.mk w h 5 d1]
      = [(0, [Frame.mk w h 32767 d0]); (32767, [Frame.mk w h 5 d1])]).
Proof.
  intros plan.
  destruct (cluster_plan_spec (length frames) frames 0 (le_n _))
    as (Hcat & Hall & Hfull & _).
  split; [apply segment_children_plan|].
  split; [exact Hcat|].
  split; [eapply Forall_impl; [exact Hall|]; simpl; tauto|].
  split; [eapply Forall_impl; [exact Hall|]; simpl; tauto|].
  split; [exact Hfull|].
  split; reflexivity.
Qed.

Lemma cluster_partition_witness :
  CLUSTER_MAX_DURATION <= sum_durations (take 3 two_cluster_frames).
Proof.
  destruct (cluster_partition two_cluster_frames (Info.mk 40000 64 64))
    as (_ & _ & _ & _ & Hfull & _).
  apply (Hfull 0%nat (0, take 3 two_cluster_frames)); [reflexivity | simpl; lia].
Defined.

(** C10.  The clusters hold the input frames, each once and in the input
    order, and the SimpleBlocks of the clusters, taken in order, are the
    blocks of the input frames one by one. *)
Theorem clusters_keep_every_frame (frames : list Frame.t) (info : Info.t) :
  let plan := clusters_of frames in
  let blocks := concat (map (fun c : Z * list Frame.t => simple_blocks c.2 0) plan) in
  segment_children frames info
  = OK ([createSegmentInfo (Info.duration info);
         createTracks (Info.width info) (Info.height info);
         Element EBML_IDS.Cues (DList (map (fun c => new_cuePoint c.1) plan)) 0]
          ++ map (fun c => cluster_element c.1 (simple_blocks c.2 0)) plan) /\
  concat (map snd plan) = frames /\
  length blocks = length frames /\
  Forall2 (fun (webp : Frame.t) (blk : element) =>
             exists timecode block,
               makeSimpleBlock (block_of webp timecode) = OK block /\
               blk = Element EBML_IDS.SimpleBlock (DStr block) 0)
          frames blocks.
Proof.
  intros plan blocks.
  destruct (cluster_plan_spec (length frames) frames 0 (le_n _)) as (Hcat & _).
  fold (clusters_of frames) in Hcat. fold plan in Hcat.
  split; [apply segment_children_plan|].
  split; [exact Hcat|].
  assert (forall fs c,
             Forall2 (fun (webp : Frame.t) (blk : element) =>
                        exists timecode block,
                          makeSimpleBlock (block_of webp timecode) = OK block /\
                          blk = Element EBML_IDS.SimpleBlock (DStr block) 0)
                     fs (simple_blocks fs c)) as Hblocks.
  { induction fs as [|webp fs IH]; intros c; simpl; constructor; [|apply IH].
    eexists c, _. split; reflexivity. }
  assert (Forall2 (fun (webp : Frame.t) (blk : element) =>
                     exists timecode block,
                       makeSimpleBlock (block_of webp timecode) = OK block /\
                       blk = Element EBML_IDS.SimpleBlock (DStr block) 0)
                  (concat (map snd plan)) blocks) as HF.
  { subst blocks. clear Hcat. induction plan as [|c plan IH]; simpl.
    - constructor.
    - apply Forall2_app; [apply Hblocks | exact IH]. }
  rewrite Hcat in HF.
  split; [symmetry; eapply Forall2_length; exact HF | exact HF].
Qed.

(** C7.  In every cluster [toWebM] builds, the block of the [i]-th frame
    is packed with track 1, keyframe 1, invisible 0, lacing 0,
    discardable 0 and, as timecode, the sum of the durations of the frames
    before it in that cluster (0 for the first).  When the durations are
    in [0, 32767] that timecode is in [0, 30000) and the block starts with
    the bytes 81, timecode high, timecode low, 80.  Three frames of
    1000 ms make one cluster with blocks at 0, 1000 and 2000. *)
Theorem cluster_block_timecodes (frames : list Frame.t) (info : Info.t) :
  let plan := clusters_of frames in
  segment_children frames info
  = OK ([createSegmentInfo (Info.duration info);
         createTracks (Info.width info) (Info.height info);
         Element EBML_IDS.Cues (DList (map (fun c => new_cuePoint c.1) plan)) 0]
          ++ map (fun c => cluster_element c.1 (simple_blocks c.2 0)) plan) /\
  (forall (c : Z * list Frame.t) (i : nat) (webp : Frame.t),
      c ∈ plan -> c.2 !! i = Some webp ->
      let t := sum_durations (take i c.2) in
      let b := {| Block.trackNum := 1;
                  Block.timecode := t;
                  Block.keyframe := 1;
                  Block.invisible := 0;
                  Block.lacing := 0;
                  Block.discardable := 0;
                  Block.frame :=
                    JS.slice (Frame.data webp)
                             (JS.indexOf (Frame.data webp) KEYFRAME_MARKER - 3) |} in
      exists block,
        makeSimpleBlock b = OK block /\
        simple_blocks c.2 0 !! i
        = Some (Element EBML_IDS.SimpleBlock (DStr block) 0) /\
        (i = 0%nat -> t = 0) /\
        (Forall (fun f => 0 <= Frame.duration f <= 32767) frames ->
         0 <= t < CLUSTER_MAX_DURATION /\
         block = [0x81; t / 256; t mod 256; 0x80] ++ Block.frame b)) /\
  (forall (w h : Z) (d0 d1 d2 : jsstring),
      let f (d : jsstring) := Frame.mk w h 1000 d in
      let payload (d : jsstring) := JS.slice d (JS.indexOf d KEYFRAME_MARKER - 3) in
      clusters_of [f d0; f d1; f d2] = [(0, [f d0; f d1; f d2])] /\
      simple_blocks [f d0; f d1; f d2] 0
      = [Element EBML_IDS.SimpleBlock (DStr ([0x81; 0; 0; 0x80] ++ payload d0)) 0;
         Element EBML_IDS.SimpleBlock (DStr ([0x81; 0x03; 0xe8; 0x80] ++ payload d1)) 0;
         Element EBML_IDS.SimpleBlock (DStr ([0x81; 0x07; 0xd0; 0x80] ++ payload d2)) 0]).
Proof.
  intros plan.
  destruct (cluster_plan_spec (length frames) frames 0 (le_n _))
    as (Hcat & Hall & _).
  fold (clusters_of frames) in Hcat, Hall. fold plan in Hcat, Hall.
  split; [apply segment_children_plan|].
  split; [|intros w h d0 d1 d2; split; reflexivity].
  intros c i webp Hc Hi t b.
  exists (block_header b ++ Block.frame b).
  split; [reflexivity|].
  split.
  { rewrite (simple_blocks_lookup _ 0 i webp Hi). rewrite Z.add_0_l. reflexivity. }
  split.
  { intros ->. reflexivity. }
  intros Hvalid.
  assert (Forall (fun f => 0 <= Frame.duration f <= 32767) c.2) as Hc2.
  { eapply Forall_concat_inv; [rewrite Hcat; exact Hvalid|].
    apply list_elem_of_fmap. exists c. split; [reflexivity | exact Hc]. }
  assert (0 <= t < CLUSTER_MAX_DURATION) as Ht.
  { split; [apply sum_durations_take_nonneg; exact Hc2|].
    destruct i as [|i]; [reflexivity|].
    rewrite Forall_forall in Hall. apply (Hall c Hc).
    apply lookup_lt_Some in Hi. lia. }
  split; [exact Ht|].
  rewrite block_header_bytes.
  - reflexivity.
  - simpl. lia.
  - unfold CLUSTER_MAX_DURATION in Ht. simpl. lia.
  - simpl. lia.
Qed.

Lemma cluster_block_timecodes_witness :
  let f := Frame.mk 64 64 1000 [0x10; 0x02; 0x00; 0x9d; 0x01; 0x2a; 64; 0; 64; 0] in
  exists block,
    simple_blocks [f; f; f] 0 !! 2%nat
    = Some (Element EBML_IDS.SimpleBlock (DStr block) 0) /\
    block = [0x81; 0x07; 0xd0; 0x80] ++ Frame.data f.
Proof.
  intros f.
  destruct (cluster_block_timecodes [f; f; f] (Info.mk 3000 64 64)) as (_ & H & _).
  destruct (H (0, [f; f; f]) 2%nat f) as (block & _ & Hb & _ & Hv).
  - apply list_elem_of_here.
  - reflexivity.
  - exists block. split; [exact Hb|].
    destruct Hv as [_ ->]; [|reflexivity].
    repeat constructor; simpl; lia.
Defined.

(** ** The serializer *)

Lemma generateEBML_element_DList id l size :
  generateEBML_element (Element id (DList l) size)
  = (data ← generateEBML l;
     sz ← vintSize (Z.of_nat (length data));
     OK (numToBuffer id ++ sz ++ data)).
Proof.
  cbn [generateEBML_element].
  assert ((fix generateEBML_list (json : list element) : result (list Z) :=
             match json with
             | [] => OK []
             | elt' :: json' =>
               generateEBML_element elt' ≫= λ b : list Z,
                 generateEBML_list json' ≫= λ rest : list Z, OK (b ++ rest)
             end) l = generateEBML l) as ->; [|reflexivity].
  induction l as [|e l IH]; [reflexivity|].
  cbn [generateEBML]. rewrite IH. reflexivity.
Qed.

Lemma generateEBML_single e : generateEBML [e] = generateEBML_element e.
Proof.
  cbn [generateEBML]. destruct (generateEBML_element e); cbn; [|reflexivity].
  rewrite app_nil_r. reflexivity.
Qed.

Lemma generateEBML_cons e l :
  generateEBML (e :: l)
  = (b ← generateEBML [e]; rest ← generateEBML l; OK (b ++ rest)).
Proof. rewrite generateEBML_single. reflexivity. Qed.

Lemma generateEBML_Encoded (bs : list (list Z)) :
  generateEBML (map Encoded bs) = OK (concat bs).
Proof.
  induction bs as [|b bs IH]; [reflexivity|].
  cbn [map generateEBML generateEBML_element mbind result_bind].
  rewrite IH. reflexivity.
Qed.

Lemma generateEBML_Encoded_cons b l :
  generateEBML (Encoded b :: l) = (rest ← generateEBML l; OK (b ++ rest)).
Proof. reflexivity. Qed.

(** ** The position loop *)

Lemma insert_middle {A} (l1 l2 : list A) (x y : A) (n : nat) :
  n = length l1 -> <[n := y]> (l1 ++ x :: l2) = l1 ++ y :: l2.
Proof.
  intros ->. rewrite insert_app_r_alt by lia.
  rewrite Nat.sub_diag. reflexivity.
Qed.

Lemma set_cue_position_fill einfo etracks cid filled tc tcs csize rest position :
  set_cue_position
    ([einfo; etracks;
      Element cid (DList (map cue_of filled ++ new_cuePoint tc :: map new_cuePoint tcs))
              csize] ++ rest)
    (length filled) position
  = OK ([einfo; etracks;
         Element cid (DList (map cue_of (filled ++ [(tc, position)])
                               ++ map new_cuePoint tcs)) csize] ++ rest).
Proof.
  unfold set_cue_position. cbn [app lookup list_lookup].
  rewrite lookup_app_r by (rewrite length_map; lia).
  rewrite length_map, Nat.sub_diag. cbn [lookup list_lookup new_cuePoint].
  cbn [list_insert].
  rewrite insert_app_r_alt by (rewrite length_map; lia).
  rewrite length_map, Nat.sub_diag. cbn [list_insert].
  rewrite map_app, <- app_assoc. reflexivity.
Qed.

Lemma cluster_offsets_length position clusters :
  length (cluster_offsets position clusters) = length clusters.
Proof.
  revert position. induction clusters as [|b bs IH]; intros p; simpl; [reflexivity|].
  rewrite IH. reflexivity.
Qed.

Lemma cluster_offsets_lookup clusters : forall position n p,
  cluster_offsets position clusters !! n = Some p ->
  p = position + Z.of_nat (length (concat (take n clusters))).
Proof.
  induction clusters as [|b bs IH]; intros position n p H.
  - destruct n; discriminate.
  - destruct n as [|n].
    + injection H as <-. simpl. lia.
    + cbn [cluster_offsets lookup list_lookup] in H.
      apply IH in H. cbn [take concat]. rewrite length_app. lia.
Qed.

(** The rounds [i >= 3] of the position loop: each cluster left is given
    the position reached so far and then rendered. *)
Lemma positions_loop_clusters einfo etracks cid csize todo :
  forall tcs filled (done : list (list Z)) position,
    length tcs = length todo ->
    length filled = length done ->
    positions_loop (length todo) (3 + length done)
      ([einfo; etracks;
        Element cid (DList (map cue_of filled ++ map new_cuePoint tcs)) csize]
         ++ map Encoded done ++ todo)
      position
    = (bs ← render_each todo;
       OK ([einfo; etracks;
            Element cid
              (DList (map cue_of (filled ++ zip tcs (cluster_offsets position bs))))
              csize]
             ++ map Encoded (done ++ bs),
           position + Z.of_nat (length (concat bs)))).
Proof.
  induction todo as [|child todo IH]; intros tcs filled done position Htcs Hfilled.
  - destruct tcs; [|discriminate]. cbn.
    rewrite !app_nil_r. f_equal. f_equal. lia.
  - destruct tcs as [|tc tcs]; [discriminate|]. injection Htcs as Htcs.
    cbn [length positions_loop render_each].
    replace (3 <=? 3 + length done)%nat with true
      by (symmetry; apply Nat.leb_le; lia).
    replace (3 + length done - 3)%nat with (length filled) by lia.
    cbn [map]. rewrite set_cue_position_fill. cbn [mbind result_bind].
    assert (forall (X : element) (l : list element),
               ([einfo; etracks; X] ++ map Encoded done ++ child :: l)
               = ([einfo; etracks; X] ++ map Encoded done) ++ child :: l) as Hshape.
    { intros X l. rewrite <- app_assoc. reflexivity. }
    rewrite Hshape.
    assert (length ([einfo; etracks;
                     Element cid (DList (map cue_of (filled ++ [(tc, position)])
                                           ++ map new_cuePoint tcs)) csize]
                      ++ map Encoded done) = (3 + length done)%nat) as Hlen.
    { rewrite length_app, length_map. reflexivity. }
    rewrite list_lookup_middle by (symmetry; exact Hlen).
    destruct (generateEBML [child]) as [b|e]; cbn [mbind result_bind]; [|reflexivity].
    replace (3 + length done =? 2)%nat with false
      by (symmetry; apply Nat.eqb_neq; lia).
    rewrite (insert_middle _ _ _ _ _ (eq_sym Hlen)).
    change (Encoded b :: todo) with (map Encoded [b] ++ todo).
    rewrite <- (app_assoc [_; _; _]). rewrite (app_assoc (map Encoded done)).
    rewrite <- map_app.
    replace (S (3 + length done)) with (3 + length (done ++ [b]))%nat
      by (rewrite length_app; simpl; lia).
    rewrite IH.
    + destruct (render_each todo) as [bs|e]; cbn [mbind result_bind]; [|reflexivity].
      cbn [cluster_offsets zip zip_with concat].
      rewrite <- !app_assoc. cbn [app]. rewrite length_app.
      f_equal. f_equal. lia.
    + exact Htcs.
    + rewrite !length_app. simpl. lia.
Qed.

Lemma bind_OK_inv {A B} (m : result A) (f : A -> result B) (b : B) :
  m ≫= f = OK b -> exists a, m = OK a /\ f a = OK b.
Proof. destruct m as [a|e]; [eauto | discriminate]. Qed.

Ltac bind_inv H :=
  let a := fresh "b" in
  let E := fresh "E" in
  apply bind_OK_inv in H as (a & E & H).

Lemma render_each_Forall2 children bs :
  render_each children = OK bs ->
  Forall2 (fun c b => generateEBML [c] = OK b) children bs.
Proof.
  revert bs. induction children as [|c children IH]; intros bs H.
  - injection H as <-. constructor.
  - cbn [render_each] in H. bind_inv H. bind_inv H. injection H as <-.
    constructor; auto.
Qed.

(** The first three rounds of the position loop: Info, Tracks and the
    Cues skeleton are rendered; Cues stays in the tree. *)
Lemma positions_loop_start einfo etracks ecues clusters :
  positions_loop (length ([einfo; etracks; ecues] ++ clusters)) 0
                 ([einfo; etracks; ecues] ++ clusters) 0
  = (infoB ← generateEBML [einfo];
     tracksB ← generateEBML [etracks];
     cuesB ← generateEBML [ecues];
     positions_loop (length clusters) 3
       ([Encoded infoB; Encoded tracksB; ecues] ++ clusters)
       (0 + Z.of_nat (length infoB) + Z.of_nat (length tracksB)
        + Z.of_nat (length cuesB))).
Proof.
  cbn [app length positions_loop Nat.leb lookup list_lookup mbind result_bind].
  destruct (generateEBML [einfo]) as [infoB|e]; cbn [mbind result_bind]; [|reflexivity].
  cbn [Nat.eqb insert list_insert lookup list_lookup].
  destruct (generateEBML [etracks]) as [tracksB|e]; cbn [mbind result_bind]; [|reflexivity].
  cbn [Nat.eqb insert list_insert lookup list_lookup].
  destruct (generateEBML [ecues]) as [cuesB|e]; cbn [mbind result_bind]; reflexivity.
Qed.

(** [resolved_children] in one equation: the children are rendered in
    order, and the cue of each cluster receives the position at which that
    cluster starts. *)
Lemma resolved_children_eq frames info :
  let plan := clusters_of frames in
  resolved_children frames info
  = (infoB ← generateEBML [createSegmentInfo (Info.duration info)];
     tracksB ← generateEBML [createTracks (Info.width info) (Info.height info)];
     cuesB ← generateEBML
               [Element EBML_IDS.Cues (DList (map new_cuePoint (map fst plan))) 0];
     bs ← render_each (map (fun c => cluster_element c.1 (simple_blocks c.2 0)) plan);
     let start := 0 + Z.of_nat (length infoB) + Z.of_nat (length tracksB)
                  + Z.of_nat (length cuesB) in
     OK ([Encoded infoB; Encoded tracksB;
          Element EBML_IDS.Cues
                  (DList (map cue_of (zip (map fst plan) (cluster_offsets start bs)))) 0]
           ++ map Encoded bs,
         start + Z.of_nat (length (concat bs)))).
Proof.
  intros plan. unfold resolved_children.
  rewrite segment_children_plan. fold plan. cbn [mbind result_bind].
  rewrite positions_loop_start.
  rewrite (map_map fst new_cuePoint).
  destruct (generateEBML [createSegmentInfo _]) as [infoB|e];
    cbn [mbind result_bind]; [|reflexivity].
  destruct (generateEBML [createTracks _ _]) as [tracksB|e];
    cbn [mbind result_bind]; [|reflexivity].
  destruct (generateEBML [Element EBML_IDS.Cues _ _]) as [cuesB|e];
    cbn [mbind result_bind]; [|reflexivity].
  pose proof (positions_loop_clusters (Encoded infoB) (Encoded tracksB) EBML_IDS.Cues 0%nat
                (map (fun c => cluster_element c.1 (simple_blocks c.2 0)) plan)
                (map fst plan) [] []) as H.
  cbn [map app length] in H. rewrite length_map in H.
  rewrite <- (map_map fst new_cuePoint).
  rewrite H by (rewrite ?length_map; reflexivity).
  reflexivity.
Qed.

(** ** Size stability of the Cues element *)

Lemma same_size_refl e : same_size e e.
Proof. intros b H. eauto. Qed.

Lemma generateEBML_same_size l l' :
  Forall2 same_size l l' ->
  forall d, generateEBML l = OK d ->
            exists d', generateEBML l' = OK d' /\ length d' = length d.
Proof.
  induction 1 as [|e e' l l' He _ IH]; intros d H.
  - eauto.
  - cbn [generateEBML] in *. bind_inv H. bind_inv H. injection H as <-.
    destruct (He _ E) as (b' & -> & Hb).
    destruct (IH _ E0) as (d' & -> & Hd).
    eexists. split; [reflexivity|]. rewrite !length_app. lia.
Qed.

Lemma same_size_DList id l l' size :
  Forall2 same_size l l' ->
  same_size (Element id (DList l) size) (Element id (DList l') size).
Proof.
  intros HF b H. rewrite generateEBML_element_DList in *.
  bind_inv H. bind_inv H. injection H as <-.
  destruct (generateEBML_same_size _ _ HF _ E) as (d' & -> & Hd).
  cbn [mbind result_bind]. rewrite Hd, E0. cbn [mbind result_bind].
  eexists. split; [reflexivity|]. rewrite !length_app. lia.
Qed.

(** A number written on a fixed width takes that width whatever it is. *)
Lemma same_size_fixed id n n' size :
  same_size (Element id (DNum n) (S size)) (Element id (DNum n') (S size)).
Proof.
  intros b H. cbn [generateEBML_element mbind result_bind] in *.
  rewrite numToFixedBuffer_length in *.
  bind_inv H. injection H as <-. rewrite E. cbn [mbind result_bind].
  eexists. split; [reflexivity|].
  rewrite !length_app, !numToFixedBuffer_length. simpl. lia.
Qed.

Lemma same_size_cuePoint tc p p' : same_size (cuePoint_at tc p) (cuePoint_at tc p').
Proof.
  unfold cuePoint_at.
  apply same_size_DList. constructor; [apply same_size_refl|].
  constructor; [|constructor].
  apply same_size_DList. constructor; [apply same_size_refl|].
  constructor; [|constructor].
  apply same_size_fixed.
Qed.

Lemma same_size_cues tcs : forall ps,
  length ps = length tcs ->
  Forall2 same_size (map new_cuePoint tcs) (map cue_of (zip tcs ps)).
Proof.
  induction tcs as [|tc tcs IH]; intros [|p ps] H; try discriminate.
  - constructor.
  - cbn [map zip zip_with]. constructor.
    + apply same_size_cuePoint.
    + apply IH. simpl in H. lia.
Qed.

(** ** The document *)

Lemma generateEBML_concat l d :
  generateEBML l = OK d ->
  exists bs, Forall2 (fun e b => generateEBML_element e = OK b) l bs /\ d = concat bs.
Proof.
  revert d. induction l as [|e l IH]; intros d H.
  - injection H as <-. exists []. split; [constructor | reflexivity].
  - cbn [generateEBML] in H.
    apply bind_OK_inv in H as (b & Eb & H).
    apply bind_OK_inv in H as (rest & Erest & H). injection H as <-.
    destruct (IH _ Erest) as (bs & HF & ->).
    exists (b :: bs). split; [constructor; assumption | reflexivity].
Qed.

(** The serialization of a cue point ends with the eight bytes of its
    CueClusterPosition. *)
Lemma cuePoint_bytes tc position b :
  generateEBML_element (cuePoint_at tc position) = OK b ->
  exists pre, b = pre ++ numToFixedBuffer position 8.
Proof.
  unfold cuePoint_at. intros H.
  rewrite generateEBML_element_DList in H.
  apply bind_OK_inv in H as (d & Ed & H).
  apply bind_OK_inv in H as (sz & _ & H). injection H as <-.
  rewrite generateEBML_cons, !generateEBML_single in Ed.
  apply bind_OK_inv in Ed as (time & _ & Ed).
  apply bind_OK_inv in Ed as (tp & Etp & Ed). injection Ed as <-.
  rewrite generateEBML_element_DList in Etp.
  apply bind_OK_inv in Etp as (d' & Ed' & Etp).
  apply bind_OK_inv in Etp as (sz' & _ & Etp). injection Etp as <-.
  rewrite generateEBML_cons, !generateEBML_single in Ed'.
  apply bind_OK_inv in Ed' as (track & _ & Ed').
  apply bind_OK_inv in Ed' as (pos & Epos & Ed'). injection Ed' as <-.
  cbn [generateEBML_element mbind result_bind] in Epos.
  apply bind_OK_inv in Epos as (sz'' & _ & Epos). injection Epos as <-.
  change (numToFixedBuffer (JS.sar position 8) 7 ++ [JS.and position 255])
    with (numToFixedBuffer position 8).
  exists (numToBuffer EBML_IDS.CuePoint ++ sz ++ time ++
          numToBuffer EBML_IDS.CueTrackPositions ++ sz' ++ track ++
          numToBuffer 241 ++ sz'').
  repeat (rewrite <- app_assoc || rewrite <- app_comm_cons). reflexivity.
Qed.

Lemma cue_table_bytes tcs : forall ps bs,
  length ps = length tcs ->
  Forall2 (fun e b => generateEBML_element e = OK b) (map cue_of (zip tcs ps)) bs ->
  Forall2 (fun p b => exists pre, b = pre ++ numToFixedBuffer p 8) ps bs.
Proof.
  induction tcs as [|tc tcs IH]; intros [|p ps] bs Hl HF; try discriminate.
  - inversion HF. constructor.
  - cbn [zip zip_with map] in HF. inversion HF as [|e b l bs' He HF']; subst.
    constructor.
    + apply (cuePoint_bytes tc p b He).
    + apply IH; [simpl in Hl; lia | exact HF'].
Qed.

(** The layout of every document [toWebM] returns: the EBML header, the
    Segment's id and size, then the serialized Info, Tracks, Cues and
    Clusters; the Cues serialized there hold, for the [n]-th cluster, the
    number of bytes of Info, Tracks, Cues and the clusters before it. *)
Lemma toWebM_layout (frames : list Frame.t) (out : bytes) :
  toWebM frames = OK out ->
  exists (info : Info.t) (ebmlB infoB tracksB cuesB size : bytes)
         (clusterBs : list bytes) (positions : list Z),
    let plan := clusters_of frames in
    validateFrames frames = OK info /\
    generateEBML [createEBMLHeader info] = OK ebmlB /\
    generateEBML [createSegmentInfo (Info.duration info)] = OK infoB /\
    generateEBML [createTracks (Info.width info) (Info.height info)] = OK tracksB /\
    generateEBML
      [Element EBML_IDS.Cues (DList (map cue_of (zip (map fst plan) positions))) 0]
    = OK cuesB /\
    Forall2 (fun (c : Z * list Frame.t) (b : bytes) =>
               generateEBML [cluster_element c.1 (simple_blocks c.2 0)] = OK b)
            plan clusterBs /\
    vintSize (Z.of_nat (length (infoB ++ tracksB ++ cuesB ++ concat clusterBs)))
    = OK size /\
    out = ebmlB ++ numToBuffer EBML_IDS.Segment ++ size
                ++ infoB ++ tracksB ++ cuesB ++ concat clusterBs /\
    length positions = length plan /\
    (forall n p,
        positions !! n = Some p ->
        p = Z.of_nat (length infoB) + Z.of_nat (length tracksB)
            + Z.of_nat (length cuesB)
            + Z.of_nat (length (concat (take n clusterBs)))) /\
    (forall b0 b1,
        clusterBs = [b0; b1] ->
        positions !! 1%nat
        = Some (Z.of_nat (length infoB) + Z.of_nat (length tracksB)
                + Z.of_nat (length cuesB) + Z.of_nat (length b0))) /\
    (exists (csize : bytes) (cueBs : list bytes),
        cuesB = numToBuffer EBML_IDS.Cues ++ csize ++ concat cueBs /\
        Forall2 (fun p b => exists pre, b = pre ++ numToFixedBuffer p 8)
                positions cueBs) /\
    Forall (fun p => 0 <= p /\
                     (p < 2 ^ 31 -> numToFixedBuffer p 8 = big_endian 8 p))
           positions.
Proof.
  intros H. unfold toWebM in H.
  bind_inv H. rename b into info. rename E into Hvalid.
  bind_inv H. destruct b as [segment_data position]. rename E into Hres.
  rewrite resolved_children_eq in Hres.
  bind_inv Hres. rename b into infoB. rename E into HinfoB.
  bind_inv Hres. rename b into tracksB. rename E into HtracksB.
  bind_inv Hres. rename b into cuesB0. rename E into HcuesB0.
  bind_inv Hres. rename b into clusterBs. rename E into Hclusters.
  cbv zeta in Hres. injection Hres as <- <-.
  set (start := 0 + Z.of_nat (length infoB) + Z.of_nat (length tracksB)
                + Z.of_nat (length cuesB0)) in *.
  set (positions := cluster_offsets start clusterBs) in *.
  rewrite generateEBML_cons in H.
  bind_inv H. rename b into ebmlB. rename E into HebmlB.
  bind_inv H. rename b into segmentB. rename E into Hsegment.
  injection H as <-.
  rewrite generateEBML_single, generateEBML_element_DList in Hsegment.
  bind_inv Hsegment. rename b into content. rename E into Hcontent.
  bind_inv Hsegment. rename b into size. rename E into Hsize.
  injection Hsegment as <-.
  cbn [app] in Hcontent. rewrite !generateEBML_Encoded_cons in Hcontent.
  rewrite generateEBML_cons, generateEBML_Encoded in Hcontent.
  apply bind_OK_inv in Hcontent as (rest1 & Hrest1 & Hcontent).
  injection Hcontent as <-.
  apply bind_OK_inv in Hrest1 as (rest2 & Hrest2 & Hrest1).
  injection Hrest1 as <-.
  apply bind_OK_inv in Hrest2 as (cuesB & HcuesB & Hrest2).
  cbn [mbind result_bind] in Hrest2. injection Hrest2 as <-.
  apply render_each_Forall2 in Hclusters.
  pose proof (Forall2_length _ _ _ Hclusters) as Hlen. rewrite length_map in Hlen.
  assert (length positions = length (map fst (clusters_of frames))) as Hplen.
  { unfold positions. rewrite cluster_offsets_length, length_map. lia. }
  assert (length cuesB = length cuesB0) as Hstable.
  { rewrite !generateEBML_single in *.
    destruct (same_size_DList EBML_IDS.Cues _ _ 0%nat
                (same_size_cues (map fst (clusters_of frames)) positions Hplen)
                _ HcuesB0) as (b' & Hb' & Hl).
    congruence. }
  assert (forall n p,
             positions !! n = Some p ->
             p = Z.of_nat (length infoB) + Z.of_nat (length tracksB)
                 + Z.of_nat (length cuesB)
                 + Z.of_nat (length (concat (take n clusterBs)))) as Hpos.
  { intros n p Hp. apply cluster_offsets_lookup in Hp. subst start. lia. }
  assert (exists (csize : list Z) (cueBs : list (list Z)),
             cuesB = numToBuffer EBML_IDS.Cues ++ csize ++ concat cueBs /\
             Forall2 (fun p b => exists pre, b = pre ++ numToFixedBuffer p 8)
                     positions cueBs) as Hbytes.
  { pose proof HcuesB as Hc.
    rewrite generateEBML_single, generateEBML_element_DList in Hc.
    apply bind_OK_inv in Hc as (d & Ed & Hc).
    apply bind_OK_inv in Hc as (csize & _ & Hc). injection Hc as <-.
    destruct (generateEBML_concat _ _ Ed) as (cueBs & HF & ->).
    exists csize, cueBs. split; [reflexivity|].
    apply (cue_table_bytes (map fst (clusters_of frames))); [exact Hplen | exact HF]. }
  assert (Forall (fun p => 0 <= p /\
                           (p < 2 ^ 31 -> numToFixedBuffer p 8 = big_endian 8 p))
                 positions) as Hrange.
  { apply Forall_lookup. intros n p Hp. specialize (Hpos n p Hp).
    split; [lia|]. intros Hlt.
    rewrite numToFixedBuffer_int32, ToInt32_small by lia. reflexivity. }
  exists info, ebmlB, infoB, tracksB, cuesB, size, clusterBs, positions.
  cbv zeta.
  split; [exact Hvalid|].
  split; [exact HebmlB|].
  split; [exact HinfoB|].
  split; [exact HtracksB|].
  split; [exact HcuesB|].
  split; [apply Forall2_fmap_l in Hclusters; exact Hclusters|].
  split; [exact Hsize|].
  split; [reflexivity|].
  split; [rewrite Hplen, length_map; reflexivity|].
  split; [exact Hpos|].
  split; [|split; [exact Hbytes | exact Hrange]].
  intros b0 b1 ->. subst positions. cbn [cluster_offsets lookup list_lookup].
  f_equal. subst start. lia.
Qed.

(** ** When the serializer returns *)

Lemma pos_toString2_length p :
  Z.of_nat (length (JS.pos_toString2 p)) = Z.log2 (Zpos p) + 1.
Proof.
  induction p as [p IH|p IH|]; cbn [JS.pos_toString2].
  - rewrite length_app, Nat2Z.inj_add, IH. change (Z.of_nat (length [JS.C1])) with 1.
    rewrite Pos2Z.inj_xI, Z.log2_succ_double by lia. lia.
  - rewrite length_app, Nat2Z.inj_add, IH. change (Z.of_nat (length [JS.C0])) with 1.
    rewrite Pos2Z.inj_xO, Z.log2_double by lia. lia.
  - reflexivity.
Qed.

Lemma toString2_length n :
  0 <= n -> Z.of_nat (length (JS.toString2 n)) = Z.log2 n + 1.
Proof.
  intros H. destruct n as [|p|p]; [reflexivity | apply pos_toString2_length | lia].
Qed.

Lemma bitsToBuffer_loop_length fuel : forall s : bitstring,
  (length s <= fuel)%nat ->
  length (bitsToBuffer_loop fuel s) = ((length s + 7) / 8)%nat.
Proof.
  induction fuel as [|fuel IH]; intros s H.
  - destruct s; [reflexivity | simpl in H; lia].
  - destruct s as [|c s]; [reflexivity|].
    cbn [bitsToBuffer_loop length]. rewrite IH by (rewrite length_drop; simpl in *; lia).
    rewrite length_drop. cbn [length].
    pose proof (Nat.div_mod_eq (S (length s) - 8 + 7) 8).
    pose proof (Nat.div_mod_eq (S (length s) + 7) 8).
    pose proof (Nat.mod_upper_bound (S (length s) - 8 + 7) 8).
    pose proof (Nat.mod_upper_bound (S (length s) + 7) 8).
    lia.
Qed.

Lemma bitsToBuffer_length (bits : bitstring) :
  (length bits <= 8 * length (bitsToBuffer bits) < length bits + 8)%nat.
Proof.
  unfold bitsToBuffer. rewrite length_map.
  rewrite bitsToBuffer_loop_length by lia.
  rewrite length_app.
  destruct (length bits mod 8 =? 0)%nat eqn:E.
  - apply Nat.eqb_eq in E. cbn [length]. rewrite Nat.add_0_l.
    pose proof (Nat.div_mod_eq (length bits + 7) 8).
    pose proof (Nat.div_mod_eq (length bits) 8).
    pose proof (Nat.mod_upper_bound (length bits + 7) 8).
    lia.
  - apply Nat.eqb_neq in E. rewrite repeat_length.
    pose proof (Nat.div_mod_eq (length bits) 8).
    pose proof (Nat.mod_upper_bound (length bits) 8).
    pose proof (Nat.div_mod_eq (8 - length bits mod 8 + length bits + 7) 8).
    pose proof (Nat.mod_upper_bound (8 - length bits mod 8 + length bits + 7) 8).
    lia.
Qed.

(** For a content of 1 to 2^56 - 1 bytes (a JavaScript length is below
    2^53) the size computation raises nothing and yields at most 9
    bytes. *)
Lemma vintSize_OK len :
  1 <= len < 2 ^ 56 ->
  exists size, vintSize len = OK size /\ (length size <= 9)%nat.
Proof.
  intros H. unfold vintSize.
  destruct (Z.eqb_spec len 0); [lia|].
  unfold JS.ceil_div8, JS.ceil_log2, JS.repeat_char.
  pose proof (toString2_length len ltac:(lia)) as Hbits.
  pose proof (Z.le_log2_log2_up len) as Hle.
  assert (0 <= Z.log2_up len <= 56) as HL.
  { split; [apply Z.log2_up_nonneg|]. apply Z.log2_up_le_pow2; lia. }
  pose proof (Z.log2_nonneg len) as Hl.
  set (zeroes := (Z.log2_up len + 7) / 8) in *.
  assert (0 <= zeroes <= 7 /\ Z.log2_up len <= 8 * zeroes) as [Hz Hz8].
  { subst zeroes. pose proof (Z.div_mod (Z.log2_up len + 7) 8 ltac:(lia)).
    pose proof (Z.mod_pos_bound (Z.log2_up len + 7) 8 ltac:(lia)). lia. }
  destruct (Z.ltb_spec (zeroes * 7 + 7 + 1 - Z.of_nat (length (JS.toString2 len))) 0);
    [lia|].
  cbn [mbind result_bind].
  destruct (Z.ltb_spec zeroes 0); [lia|].
  cbn [mbind result_bind].
  eexists. split; [reflexivity|].
  match goal with |- (length (bitsToBuffer ?b) <= 9)%nat =>
    pose proof (bitsToBuffer_length b) as Hlen;
    assert (length b = Z.to_nat (8 * zeroes + 9)) as Hb
  end.
  { rewrite !length_app, !repeat_length. cbn [length]. lia. }
  rewrite Hb in Hlen. clear - Hlen Hz. lia.
Qed.

Lemma numToBuffer_loop_length fuel : forall num parts,
  (length (numToBuffer_loop fuel num parts) <= length parts + fuel)%nat.
Proof.
  induction fuel as [|fuel IH]; intros num parts; cbn [numToBuffer_loop]; [lia|].
  destruct (0 <? num); [|lia].
  specialize (IH (JS.sar num 8) (parts ++ [JS.and num 255])).
  rewrite length_app in IH. cbn [length] in IH. lia.
Qed.

Lemma numToBuffer_length id : (length (numToBuffer id) <= 4)%nat.
Proof.
  unfold numToBuffer. rewrite length_rev.
  pose proof (numToBuffer_loop_length 4 id []) as H. cbn [length] in H. lia.
Qed.

Lemma element_bytes_OK id (content : list Z) :
  1 <= Z.of_nat (length content) < 2 ^ 56 ->
  exists size,
    vintSize (Z.of_nat (length content)) = OK size /\
    1 <= Z.of_nat (length (numToBuffer id ++ size ++ content))
      <= 13 + Z.of_nat (length content).
Proof.
  intros H. destruct (vintSize_OK _ H) as (size & E & Hs).
  exists size. split; [exact E|].
  rewrite !length_app. pose proof (numToBuffer_length id). lia.
Qed.

Lemma renders_DStr id (s : jsstring) size :
  1 <= Z.of_nat (length s) < 2 ^ 56 ->
  renders (Element id (DStr s) size) (13 + Z.of_nat (length s)).
Proof.
  intros H. unfold renders. cbn [generateEBML_element mbind result_bind].
  assert (length (strToBuffer s) = length s) as Hl by apply length_map.
  destruct (element_bytes_OK id (strToBuffer s)) as (sz & -> & Hb); [lia|].
  cbn [mbind result_bind]. eexists. split; [reflexivity|]. lia.
Qed.

Lemma renders_DNum id n :
  0 <= n < 2 ^ 64 -> renders (Element id (DNum n) 0) 21.
Proof.
  intros H. unfold renders. cbn [generateEBML_element mbind result_bind].
  pose proof (bitsToBuffer_length (JS.toString2 n)) as Hl.
  pose proof (toString2_length n ltac:(lia)) as Hbits.
  assert (0 <= Z.log2 n < 64) as Hlog.
  { split; [apply Z.log2_nonneg|].
    destruct (Z.eq_dec n 0) as [->|]; [reflexivity|].
    apply Z.log2_lt_pow2; lia. }
  destruct (element_bytes_OK id (bitsToBuffer (JS.toString2 n))) as (sz & -> & Hb); [lia|].
  cbn [mbind result_bind]. eexists. split; [reflexivity|]. lia.
Qed.

Lemma renders_fixed id n size :
  Z.of_nat (S size) < 2 ^ 56 ->
  renders (Element id (DNum n) (S size)) (13 + Z.of_nat (S size)).
Proof.
  intros H. unfold renders. cbn [generateEBML_element mbind result_bind].
  change (numToFixedBuffer (JS.sar n 8) size ++ [JS.and n 255])
    with (numToFixedBuffer n (S size)).
  pose proof (numToFixedBuffer_length n (S size)) as Hl.
  destruct (element_bytes_OK id (numToFixedBuffer n (S size))) as (sz & -> & Hb); [lia|].
  cbn [mbind result_bind]. eexists. split; [reflexivity|]. lia.
Qed.

Lemma renders_DList id l d size :
  generateEBML l = OK d ->
  1 <= Z.of_nat (length d) < 2 ^ 56 ->
  renders (Element id (DList l) size) (13 + Z.of_nat (length d)).
Proof.
  intros E H. unfold renders. rewrite generateEBML_element_DList, E.
  cbn [mbind result_bind].
  destruct (element_bytes_OK id d H) as (sz & -> & Hb).
  cbn [mbind result_bind]. eexists. split; [reflexivity|]. lia.
Qed.

Lemma renders_le e n m : renders e n -> n <= m -> renders e m.
Proof. intros (b & E & H) Hle. exists b. split; [exact E | lia]. Qed.

(** A list whose entries render, renders; its length is bounded by the
    sum of the bounds of the entries. *)
Lemma generateEBML_bounded l ns :
  Forall2 renders l ns ->
  exists d, generateEBML l = OK d /\
            Z.of_nat (length l) <= Z.of_nat (length d) <= sum_list_Z ns.
Proof.
  induction 1 as [|e n l ns (b & E & Hb) _ (d & IH & Hd)].
  - exists []. split; [reflexivity|]. simpl. lia.
  - cbn [generateEBML]. rewrite E, IH. cbn [mbind result_bind].
    eexists. split; [reflexivity|].
    rewrite length_app. cbn [length sum_list_Z foldr] in *.
    fold (sum_list_Z ns). lia.
Qed.

Lemma render_each_bounded l ns :
  Forall2 renders l ns ->
  exists bs, render_each l = OK bs /\
             Z.of_nat (length l) <= Z.of_nat (length (concat bs)) <= sum_list_Z ns.
Proof.
  induction 1 as [|e n l ns (b & E & Hb) _ (bs & IH & Hd)].
  - exists []. split; [reflexivity|]. simpl. lia.
  - cbn [render_each]. rewrite generateEBML_single, E, IH. cbn [mbind result_bind].
    eexists. split; [reflexivity|].
    cbn [concat]. rewrite length_app. cbn [length sum_list_Z foldr] in *.
    fold (sum_list_Z ns). lia.
Qed.

Ltac split_Forall2 :=
  lazymatch goal with
  | |- Forall2 _ [] [] => constructor
  | |- Forall2 _ (_ :: _) (_ :: _) => constructor; [|split_Forall2]
  end.

Lemma createEBMLHeader_OK info :
  exists b, generateEBML [createEBMLHeader info] = OK b.
Proof. eexists. vm_compute. reflexivity. Qed.

Lemma doubleToString_length d : length (doubleToString d) = 8%nat.
Proof. unfold doubleToString. rewrite length_map. reflexivity. Qed.

Lemma createSegmentInfo_renders duration :
  renders (createSegmentInfo duration) 93.
Proof.
  unfold createSegmentInfo.
  destruct (generateEBML_bounded
              [Element 0x2ad7b1 (DNum TIMECODE_SCALE) 0;
               Element 0x4d80 (DStr (JS.of_string "whammy")) 0;
               Element 0x5741 (DStr (JS.of_string "whammy")) 0;
               Element 0x4489 (DStr (doubleToString duration)) 0]
              [21; 19; 19; 21]) as (d & E & Hd).
  { split_Forall2.
    - apply renders_DNum. unfold TIMECODE_SCALE. lia.
    - apply (renders_DStr _ (JS.of_string "whammy")). simpl. lia.
    - apply (renders_DStr _ (JS.of_string "whammy")). simpl. lia.
    - eapply renders_le; [apply renders_DStr|];
        rewrite doubleToString_length; simpl; lia. }
  cbn [length sum_list_Z foldr] in Hd.
  eapply renders_le; [eapply renders_DList; [exact E | lia] | lia].
Qed.

Lemma createTracks_renders width height :
  0 <= width < 2 ^ 64 -> 0 <= height < 2 ^ 64 ->
  renders (createTracks width height) 215.
Proof.
  intros Hw Hh. unfold createTracks.
  destruct (generateEBML_bounded
              [Element 0xb0 (DNum width) 0; Element 0xba (DNum height) 0]
              [21; 21]) as (video & Evideo & Hvideo).
  { split_Forall2; apply renders_DNum; assumption. }
  cbn [length sum_list_Z foldr] in Hvideo.
  destruct (generateEBML_bounded
              [Element 0xd7 (DNum 1) 0;
               Element 0x73c5 (DNum 1) 0;
               Element 0x9c (DNum 0) 0;
               Element 0x22b59c (DStr (JS.of_string "und")) 0;
               Element 0x86 (DStr (JS.of_string "V_VP8")) 0;
               Element 0x258688 (DStr (JS.of_string "VP8")) 0;
               Element 0x83 (DNum 1) 0;
               Element 0xe0 (DList [Element 0xb0 (DNum width) 0;
                                    Element 0xba (DNum height) 0]) 0]
              [21; 21; 21; 16; 18; 16; 21; 55]) as (entry & Eentry & Hentry).
  { split_Forall2;
      try (apply renders_DNum; lia).
    - apply (renders_DStr _ (JS.of_string "und")). simpl. lia.
    - apply (renders_DStr _ (JS.of_string "V_VP8")). simpl. lia.
    - apply (renders_DStr _ (JS.of_string "VP8")). simpl. lia.
    - eapply renders_le; [eapply renders_DList; [exact Evideo | lia] | lia]. }
  cbn [length sum_list_Z foldr] in Hentry.
  destruct (generateEBML_bounded
              [Element EBML_IDS.TrackEntry
                 (DList [Element 0xd7 (DNum 1) 0;
                         Element 0x73c5 (DNum 1) 0;
                         Element 0x9c (DNum 0) 0;
                         Element 0x22b59c (DStr (JS.of_string "und")) 0;
                         Element 0x86 (DStr (JS.of_string "V_VP8")) 0;
                         Element 0x258688 (DStr (JS.of_string "VP8")) 0;
                         Element 0x83 (DNum 1) 0;
                         Element 0xe0 (DList [Element 0xb0 (DNum width) 0;
                                              Element 0xba (DNum height) 0]) 0]) 0]
              [202]) as (tracks & Etracks & Htracks).
  { split_Forall2.
    eapply renders_le; [eapply renders_DList; [exact Eentry | lia] | lia]. }
  cbn [length sum_list_Z foldr] in Htracks.
  eapply renders_le; [eapply renders_DList; [exact Etracks | lia] | lia].
Qed.

(** A cue point renders whatever position it holds. *)
Lemma cuePoint_renders tc position :
  0 <= tc < 2 ^ 64 -> renders (cuePoint_at tc position) 89.
Proof.
  intros Htc. unfold cuePoint_at.
  destruct (generateEBML_bounded
              [Element 0xf7 (DNum 1) 0; Element 0xf1 (DNum position) 8]
              [21; 21]) as (tp & Etp & Htp).
  { split_Forall2.
    - apply renders_DNum. lia.
    - apply (renders_fixed _ _ 7). simpl. lia. }
  cbn [length sum_list_Z foldr] in Htp.
  destruct (generateEBML_bounded
              [Element 0xb3 (DNum tc) 0;
               Element EBML_IDS.CueTrackPositions
                 (DList [Element 0xf7 (DNum 1) 0; Element 0xf1 (DNum position) 8]) 0]
              [21; 55]) as (cp & Ecp & Hcp).
  { split_Forall2.
    - apply renders_DNum. assumption.
    - eapply renders_le; [eapply renders_DList; [exact Etp | lia] | lia]. }
  cbn [length sum_list_Z foldr] in Hcp.
  eapply renders_le; [eapply renders_DList; [exact Ecp | lia] | lia].
Qed.

(** *** The clusters render *)

Lemma frames_cost_app k l1 l2 :
  frames_cost k (l1 ++ l2) = frames_cost k l1 + frames_cost k l2.
Proof.
  unfold frames_cost, sum_list_Z. induction l1 as [|f l1 IH]; simpl; [reflexivity|].
  rewrite IH. lia.
Qed.

Lemma frames_cost_cons k f l :
  frames_cost k (f :: l) = k + Z.of_nat (length (Frame.data f)) + frames_cost k l.
Proof. reflexivity. Qed.

Lemma frames_cost_split k l :
  frames_cost k l = k * Z.of_nat (length l) + frames_cost 0 l.
Proof.
  induction l as [|f l IH]; [unfold frames_cost, sum_list_Z; simpl; lia|].
  rewrite !frames_cost_cons, IH. cbn [length]. lia.
Qed.

Lemma frames_cost_0_nonneg l : 0 <= frames_cost 0 l.
Proof.
  induction l as [|f l IH]; [reflexivity|]. rewrite frames_cost_cons. lia.
Qed.

Lemma block_header_length b : length (block_header b) = 4%nat.
Proof. reflexivity. Qed.

Lemma slice_length (s : jsstring) k : (length (JS.slice s k) <= length s)%nat.
Proof. unfold JS.slice. rewrite length_drop. lia. Qed.

Lemma simple_blocks_render clusterFrames : forall clusterCounter,
  frames_cost 0 clusterFrames < 2 ^ 55 ->
  Forall2 renders (simple_blocks clusterFrames clusterCounter)
          (map (fun f => 17 + Z.of_nat (length (Frame.data f))) clusterFrames).
Proof.
  induction clusterFrames as [|webp rest IH]; intros c H; cbn [simple_blocks map].
  - constructor.
  - rewrite frames_cost_cons in H. pose proof (frames_cost_0_nonneg rest).
    constructor; [|apply IH; lia].
    eapply renders_le; [apply renders_DStr|];
      rewrite length_app, block_header_length; cbn [block_of Block.frame];
      match goal with |- context [JS.slice ?s ?k] =>
        pose proof (slice_length s k) end; lia.
Qed.

Lemma cluster_renders tc clusterFrames :
  0 <= tc < 2 ^ 64 ->
  clusterFrames <> [] ->
  frames_cost 0 clusterFrames + 64 * Z.of_nat (length clusterFrames) < 2 ^ 55 ->
  renders (cluster_element tc (simple_blocks clusterFrames 0))
          (frames_cost 64 clusterFrames).
Proof.
  intros Htc Hne Hsize. unfold cluster_element.
  pose proof (frames_cost_0_nonneg clusterFrames) as H0.
  destruct (generateEBML_bounded
              (Element 0xe7 (DNum tc) 0 :: simple_blocks clusterFrames 0)
              (21 :: map (fun f => 17 + Z.of_nat (length (Frame.data f))) clusterFrames))
    as (d & E & Hd).
  { constructor; [apply renders_DNum; assumption|].
    apply simple_blocks_render. lia. }
  cbn [length sum_list_Z foldr] in Hd.
  change (foldr Z.add 0 (map (fun f => 17 + Z.of_nat (length (Frame.data f))) clusterFrames))
    with (frames_cost 17 clusterFrames) in Hd.
  rewrite (frames_cost_split 17) in Hd.
  rewrite (frames_cost_split 64).
  assert (1 <= Z.of_nat (length clusterFrames)) by (destruct clusterFrames; simpl; [congruence | lia]).
  eapply renders_le; [eapply renders_DList; [exact E | lia] | lia].
Qed.

(** The start times of the clusters lie between the loop's initial time
    and the total duration, when no duration is negative. *)
Lemma cluster_plan_times fuel : forall remaining tc0 c,
  (length remaining <= fuel)%nat ->
  Forall (fun f => 0 <= Frame.duration f) remaining ->
  c ∈ cluster_plan fuel remaining tc0 ->
  tc0 <= c.1 <= tc0 + sum_durations remaining.
Proof.
  induction fuel as [|fuel IH]; intros remaining tc0 c Hfuel Hd Hc.
  - destruct remaining; simpl in Hc; inversion Hc.
  - destruct remaining as [|frame rest]; [inversion Hc|].
    cbn [cluster_plan] in Hc.
    destruct (collect_frames_spec frame rest [] 0)
      as (taken & remaining' & E & Hrest & _ & _).
    rewrite E in Hc.
    assert (Forall (fun f => 0 <= Frame.duration f) (frame :: taken) /\
            Forall (fun f => 0 <= Frame.duration f) remaining') as [Ht Hr].
    { rewrite Hrest in Hd. change (frame :: taken ++ remaining')
        with ((frame :: taken) ++ remaining') in Hd.
      apply Forall_app in Hd. exact Hd. }
    pose proof (sum_durations_nonneg _ Ht) as Hs.
    pose proof (sum_durations_nonneg _ Hr) as Hs'.
    assert (sum_durations (frame :: rest)
            = sum_durations (frame :: taken) + sum_durations remaining') as Hsum.
    { rewrite Hrest. change (frame :: taken ++ remaining')
        with ((frame :: taken) ++ remaining').
      apply sum_durations_app. }
    apply elem_of_cons in Hc as [-> | Hc].
    + cbn [fst]. lia.
    + apply IH in Hc.
      * lia.
      * simpl in Hfuel. rewrite Hrest, length_app in Hfuel. lia.
      * exact Hr.
Qed.

Lemma sum_durations_bound frames :
  Forall (fun f => 0 <= Frame.duration f <= 32767) frames ->
  0 <= sum_durations frames <= 32767 * Z.of_nat (length frames).
Proof.
  induction 1 as [|f l Hf _ IH]; [simpl; unfold sum_durations; simpl; lia|].
  rewrite sum_durations_cons. cbn [length]. lia.
Qed.

Lemma frames_cost_nonneg k l : 0 <= k -> 0 <= frames_cost k l.
Proof.
  intros Hk. rewrite frames_cost_split. pose proof (frames_cost_0_nonneg l). lia.
Qed.

Lemma clusters_render (plan : list (Z * list Frame.t)) :
  Forall (fun c : Z * list Frame.t => 0 <= c.1 < 2 ^ 64 /\ c.2 <> []) plan ->
  frames_cost 64 (concat (map snd plan)) < 2 ^ 55 ->
  Forall2 renders
          (map (fun c => cluster_element c.1 (simple_blocks c.2 0)) plan)
          (map (fun c : Z * list Frame.t => frames_cost 64 c.2) plan).
Proof.
  induction 1 as [|c plan [Htc Hne] _ IH]; intros Hsize; cbn [map].
  - constructor.
  - cbn [map concat] in Hsize. rewrite frames_cost_app in Hsize.
    pose proof (frames_cost_nonneg 64 c.2 ltac:(lia)).
    pose proof (frames_cost_nonneg 64 (concat (map snd plan)) ltac:(lia)).
    constructor; [|apply IH; lia].
    apply cluster_renders; [assumption | assumption |].
    pose proof (frames_cost_split 64 c.2). lia.
Qed.

Lemma clusters_cost (plan : list (Z * list Frame.t)) :
  sum_list_Z (map (fun c : Z * list Frame.t => frames_cost 64 c.2) plan)
  = frames_cost 64 (concat (map snd plan)).
Proof.
  induction plan as [|c plan IH]; [reflexivity|].
  cbn [map concat]. rewrite frames_cost_app, <- IH. reflexivity.
Qed.

Lemma cues_render tcs :
  Forall (fun tc => 0 <= tc < 2 ^ 64) tcs ->
  Forall2 renders (map new_cuePoint tcs) (map (fun _ => 89) tcs).
Proof.
  induction 1 as [|tc tcs Htc _ IH]; cbn [map]; constructor; [|exact IH].
  apply (cuePoint_renders tc 0 Htc).
Qed.

Lemma sum_list_Z_const {A} (l : list A) k :
  sum_list_Z (map (fun _ => k) l) = k * Z.of_nat (length l).
Proof.
  unfold sum_list_Z. induction l as [|x l IH]; simpl; [lia|]. rewrite IH. lia.
Qed.

Lemma length_concat_nonempty {A} (ls : list (list A)) :
  Forall (fun l => l <> []) ls -> (length ls <= length (concat ls))%nat.
Proof.
  induction 1 as [|l ls Hl _ IH]; [reflexivity|].
  cbn [concat length]. rewrite length_app.
  destruct l; [congruence|]. simpl. lia.
Qed.

(** [toWebM] returns a document for every accepted frame list whose
    durations are in range, whose dimensions are non-negative integers
    below 2^64 and whose size measure is below 2^55. *)
Lemma toWebM_total frames info :
  validateFrames frames = OK info ->
  Forall (fun f => 0 <= Frame.duration f <= 32767) frames ->
  0 <= Info.width info < 2 ^ 64 ->
  0 <= Info.height info < 2 ^ 64 ->
  payload_size frames < 2 ^ 55 ->
  exists out, toWebM frames = OK out.
Proof.
  intros Hvalid Hdur Hw Hh Hsize.
  unfold toWebM. rewrite Hvalid. cbn [mbind result_bind].
  rewrite resolved_children_eq.
  set (plan := clusters_of frames) in *.
  destruct (cluster_plan_spec (length frames) frames 0 (le_n _))
    as (Hcat & Hall & _ & Hne).
  fold (clusters_of frames) in Hcat, Hall, Hne. fold plan in Hcat, Hall, Hne.
  assert (frames <> []) as Hframes.
  { intros ->. discriminate. }
  specialize (Hne Hframes).
  (* sizes *)
  unfold payload_size in Hsize.
  pose proof (frames_cost_0_nonneg frames) as Hc0.
  pose proof (frames_cost_split 256 frames) as H256.
  pose proof (frames_cost_split 64 frames) as H64.
  pose proof (sum_durations_bound frames Hdur) as Hsum.
  assert (length plan <= length frames)%nat as Hplan.
  { etransitivity; [|rewrite <- Hcat; reflexivity].
    rewrite <- (length_map snd plan).
    apply length_concat_nonempty.
    apply Forall_fmap. eapply Forall_impl; [exact Hall|]. simpl. tauto. }
  assert (1 <= length plan)%nat as Hplan1 by (destruct plan; simpl; [congruence | lia]).
  assert (Forall (fun c : Z * list Frame.t => 0 <= c.1 < 2 ^ 64 /\ c.2 <> []) plan)
    as Hclusters.
  { apply Forall_forall. intros c Hc. split.
    - pose proof (cluster_plan_times (length frames) frames 0 c (le_n _)
                    ltac:(eapply Forall_impl; [exact Hdur|]; simpl; intros; lia) Hc).
      lia.
    - rewrite Forall_forall in Hall. apply (Hall c Hc). }
  (* Info, Tracks *)
  destruct (createSegmentInfo_renders (Info.duration info)) as (infoB & EI & HI).
  rewrite (generateEBML_single (createSegmentInfo _)), EI. cbn [mbind result_bind].
  destruct (createTracks_renders _ _ Hw Hh) as (tracksB & ET & HT).
  rewrite (generateEBML_single (createTracks _ _)), ET. cbn [mbind result_bind].
  (* the Cues skeleton *)
  destruct (generateEBML_bounded (map new_cuePoint (map fst plan))
                                 (map (fun _ => 89) (map fst plan)))
    as (cues0 & Ecues0 & Hcues0).
  { apply cues_render. apply Forall_fmap.
    eapply Forall_impl; [exact Hclusters|]. simpl. tauto. }
  rewrite sum_list_Z_const, !length_map in Hcues0.
  destruct (renders_DList EBML_IDS.Cues _ _ 0%nat Ecues0 ltac:(lia))
    as (cuesB0 & EC0 & HC0).
  rewrite (generateEBML_single (Element EBML_IDS.Cues _ _)), EC0.
  cbn [mbind result_bind].
  (* the clusters *)
  destruct (render_each_bounded _ _ (clusters_render plan Hclusters
                                       ltac:(rewrite Hcat; lia)))
    as (bs & Ebs & Hbs).
  rewrite clusters_cost, Hcat, length_map in Hbs.
  rewrite Ebs. cbn [mbind result_bind]. cbv zeta.
  (* the final render *)
  rewrite generateEBML_cons.
  destruct (createEBMLHeader_OK info) as (ebmlB & ->). cbn [mbind result_bind].
  rewrite (generateEBML_single (Element EBML_IDS.Segment _ _)),
    generateEBML_element_DList.
  cbn [app]. rewrite !generateEBML_Encoded_cons.
  rewrite generateEBML_cons, generateEBML_Encoded.
  set (positions := cluster_offsets _ bs).
  assert (length positions = length (map fst plan)) as Hplen.
  { unfold positions. rewrite cluster_offsets_length, length_map.
    apply render_each_Forall2, Forall2_length in Ebs.
    rewrite length_map in Ebs. lia. }
  destruct (same_size_DList EBML_IDS.Cues _ _ 0%nat
              (same_size_cues (map fst plan) positions Hplen) _ EC0)
    as (cuesB & EC & HC).
  rewrite (generateEBML_single (Element EBML_IDS.Cues _ _)), EC.
  cbn [mbind result_bind].
  destruct (vintSize_OK (Z.of_nat (length (infoB ++ tracksB ++ cuesB ++ concat bs))))
    as (size & -> & _).
  { rewrite !length_app. lia. }
  cbn [mbind result_bind]. eauto.
Qed.

(** C2.  For every frame list that [validateFrames] accepts, with
    durations in [0, 32767], dimensions below 2^64 and a size measure
    below 2^55, [toWebM] returns a document; the document is the EBML
    header, the Segment's id and size, and then the serialized Info,
    Tracks, Cues and Clusters in this order; and the CueClusterPosition of
    the [n]-th cue of the Cues serialized there is the number of bytes of
    Info, Tracks, Cues and the clusters before the [n]-th one, as they
    stand in the document.  For two clusters the second position is
    [len Info + len Tracks + len Cues + len Cluster_0].  The serialization
    of each cue ends with the eight bytes of its position, which are its
    big-endian encoding as long as the position is below 2^31. *)
Theorem cue_positions_are_cluster_offsets (frames : list Frame.t) (info : Info.t) :
  validateFrames frames = OK info ->
  Forall (fun f => 0 <= Frame.duration f <= 32767) frames ->
  0 <= Info.width info < 2 ^ 64 ->
  0 <= Info.height info < 2 ^ 64 ->
  payload_size frames < 2 ^ 55 ->
  exists (out ebmlB infoB tracksB cuesB size : bytes)
         (clusterBs : list bytes) (positions : list Z),
    let plan := clusters_of frames in
    toWebM frames = OK out /\
    generateEBML [createEBMLHeader info] = OK ebmlB /\
    generateEBML [createSegmentInfo (Info.duration info)] = OK infoB /\
    generateEBML [createTracks (Info.width info) (Info.height info)] = OK tracksB /\
    generateEBML
      [Element EBML_IDS.Cues (DList (map cue_of (zip (map fst plan) positions))) 0]
    = OK cuesB /\
    Forall2 (fun (c : Z * list Frame.t) (b : bytes) =>
               generateEBML [cluster_element c.1 (simple_blocks c.2 0)] = OK b)
            plan clusterBs /\
    vintSize (Z.of_nat (length (infoB ++ tracksB ++ cuesB ++ concat clusterBs)))
    = OK size /\
    out = ebmlB ++ numToBuffer EBML_IDS.Segment ++ size
                ++ infoB ++ tracksB ++ cuesB ++ concat clusterBs /\
    length positions = length plan /\
    (forall n p,
        positions !! n = Some p ->
        p = Z.of_nat (length infoB) + Z.of_nat (length tracksB)
            + Z.of_nat (length cuesB)
            + Z.of_nat (length (concat (take n clusterBs)))) /\
    (forall b0 b1,
        clusterBs = [b0; b1] ->
        positions !! 1%nat
        = Some (Z.of_nat (length infoB) + Z.of_nat (length tracksB)
                + Z.of_nat (length cuesB) + Z.of_nat (length b0))) /\
    (exists (csize : bytes) (cueBs : list bytes),
        cuesB = numToBuffer EBML_IDS.Cues ++ csize ++ concat cueBs /\
        Forall2 (fun p b => exists pre, b = pre ++ numToFixedBuffer p 8)
                positions cueBs) /\
    Forall (fun p => 0 <= p /\
                     (p < 2 ^ 31 -> numToFixedBuffer p 8 = big_endian 8 p))
           positions.
Proof.
  intros Hvalid Hdur Hw Hh Hsize.
  destruct (toWebM_total frames info Hvalid Hdur Hw Hh Hsize) as (out & Hout).
  destruct (toWebM_layout frames out Hout)
    as (info' & ebmlB & infoB & tracksB & cuesB & size & clusterBs & positions & H).
  cbv zeta in H. destruct H as (Hvalid' & H).
  rewrite Hvalid in Hvalid'. injection Hvalid' as <-.
  exists out, ebmlB, infoB, tracksB, cuesB, size, clusterBs, positions.
  cbv zeta. split; [exact Hout | exact H].
Qed.

Lemma cue_positions_are_cluster_offsets_witness :
  exists (out : bytes) (positions : list Z),
    toWebM two_cluster_frames = OK out /\
    length positions = length (clusters_of two_cluster_frames).
Proof.
  destruct (cue_positions_are_cluster_offsets two_cluster_frames (Info.mk 40000 64 64))
    as (out & _ & _ & _ & _ & _ & _ & positions
        & Hout & _ & _ & _ & _ & _ & _ & _ & Hl & _).
  - reflexivity.
  - repeat constructor; simpl; lia.
  - simpl. lia.
  - simpl. lia.
  - reflexivity.
  - exists out, positions. split; assumption.
Defined.

(** *** The shape of every size descriptor *)

Lemma bitsToBuffer_loop_step fuel (c : JS.bit_char) (s : bitstring) :
  bitsToBuffer_loop (S fuel) (c :: s)
  = JS.parseInt2 (take 8 (c :: s)) :: bitsToBuffer_loop fuel (drop 8 (c :: s)).
Proof. reflexivity. Qed.

Lemma bitsToBuffer_first (c : JS.bit_char) (bits : bitstring) :
  (length (c :: bits) mod 8 = 1)%nat ->
  exists rest,
    bitsToBuffer (c :: bits)
    = JS.ToUint8 (JS.int_of (JS.parseInt2 (repeat JS.C0 7 ++ [c]))) :: rest /\
    (8 * length rest = length bits)%nat.
Proof.
  intros Hmod. unfold bitsToBuffer. rewrite Hmod.
  cbn [Nat.eqb Nat.sub repeat app length].
  rewrite bitsToBuffer_loop_step.
  cbn [firstn skipn map].
  eexists. split; [reflexivity|].
  rewrite drop_0, length_map, bitsToBuffer_loop_length by lia.
  cbn [length] in Hmod.
  pose proof (Nat.div_mod_eq (S (length bits)) 8).
  pose proof (Nat.div_mod_eq (length bits + 7) 8).
  pose proof (Nat.mod_upper_bound (length bits + 7) 8).
  lia.
Qed.

(** For every content length from 1 to 2^56 - 1 the descriptor emitted
    starts with a byte 00 or 01 and has [zeroes + 2] bytes, which the
    EBML reading rule rejects. *)
Lemma vintSize_rejected len :
  1 <= len < 2 ^ 56 ->
  exists size,
    vintSize len = OK size /\
    Z.of_nat (length size) = JS.ceil_div8 (JS.ceil_log2 len) + 2 /\
    reference_vint_decode size = None.
Proof.
  intros H. unfold vintSize.
  destruct (Z.eqb_spec len 0); [lia|].
  unfold JS.ceil_div8, JS.ceil_log2, JS.repeat_char.
  pose proof (toString2_length len ltac:(lia)) as Hbits.
  pose proof (Z.le_log2_log2_up len) as Hle.
  assert (0 <= Z.log2_up len <= 56) as HL.
  { split; [apply Z.log2_up_nonneg|]. apply Z.log2_up_le_pow2; lia. }
  pose proof (Z.log2_nonneg len) as Hl.
  remember ((Z.log2_up len + 7) / 8) as zeroes eqn:Hzdef.
  assert (0 <= zeroes <= 7 /\ Z.log2_up len <= 8 * zeroes) as [Hz Hz8].
  { subst zeroes. pose proof (Z.div_mod (Z.log2_up len + 7) 8 ltac:(lia)).
    pose proof (Z.mod_pos_bound (Z.log2_up len + 7) 8 ltac:(lia)). lia. }
  clear Hzdef.
  destruct (Z.ltb_spec (zeroes * 7 + 7 + 1 - Z.of_nat (length (JS.toString2 len))) 0);
    [lia|].
  cbn [mbind result_bind].
  destruct (Z.ltb_spec zeroes 0); [lia|].
  cbn [mbind result_bind].
  remember (repeat JS.C0
              (Z.to_nat (zeroes * 7 + 7 + 1 - Z.of_nat (length (JS.toString2 len))))
              ++ JS.toString2 len) as padded eqn:Hpadded.
  assert (length padded = Z.to_nat (zeroes * 7 + 8)) as Hplen.
  { subst padded. rewrite length_app, repeat_length. lia. }
  clear Hpadded Hbits.
  destruct (Z.to_nat zeroes) as [|z] eqn:Ez.
  - assert (zeroes = 0) as -> by lia.
    cbn [repeat app].
    destruct (bitsToBuffer_first JS.C1 padded) as (rest & -> & Hrest).
    { cbn [length]. rewrite Hplen. reflexivity. }
    eexists. split; [reflexivity|].
    rewrite Hplen in Hrest.
    assert (length rest = 1%nat) as Hr by (simpl in Hrest; lia).
    split; [cbn [length]; lia|].
    destruct rest as [|x [|y rest]]; try discriminate. reflexivity.
  - cbn [repeat app].
    destruct (bitsToBuffer_first JS.C0 (repeat JS.C0 z ++ JS.C1 :: padded))
      as (rest & -> & Hrest).
    { cbn [length]. rewrite !length_app, repeat_length. cbn [length]. rewrite Hplen.
      replace (S (z + S (Z.to_nat (zeroes * 7 + 8))))
        with (1 + (Z.to_nat zeroes + 1) * 8)%nat by lia.
      rewrite Nat.Div0.mod_add. reflexivity. }
    eexists. split; [reflexivity|].
    rewrite !length_app, repeat_length in Hrest. cbn [length] in Hrest.
    rewrite Hplen in Hrest.
    split; [cbn [length]; lia | reflexivity].
Qed.

(** C1.  What the serializer emits as the size descriptor: a content of
    length 0 is rejected; for every length from 1 to 2^56 - 1 the
    descriptor has [zeroes + 2] bytes and starts with at least seven zero
    bits, so the EBML reading rule rejects it; at length 1 the bytes are
    01 01, where EBML has 81; the values at the other boundary lengths
    follow. *)
Theorem vintSize_boundary_lengths :
  vintSize 0 = Throw RangeError /\
  vintSize 1 = OK [0x01; 0x01] /\
  vintSize 127 = OK [0x00; 0x80; 0x7f] /\
  vintSize 128 = OK [0x00; 0x80; 0x80] /\
  vintSize 16383 = OK [0x00; 0x40; 0x3f; 0xff] /\
  vintSize 16384 = OK [0x00; 0x40; 0x40; 0x00] /\
  reference_vint_decode [0x01; 0x01] = None /\
  reference_vint_decode [0x81] = Some (1, []) /\
  leading_zero_bits 0x01 = 7 /\
  Z.of_nat (length [0x01; 0x01]) - 1 = 1 /\
  (forall len,
      1 <= len < 2 ^ 56 ->
      exists size,
        vintSize len = OK size /\
        Z.of_nat (length size) = JS.ceil_div8 (JS.ceil_log2 len) + 2 /\
        reference_vint_decode size = None).
Proof.
  repeat (split; [reflexivity|]). apply vintSize_rejected.
Qed.

(** * Further properties *)

(** ** Big-endian values *)

Lemma from_big_endian_fold bs : forall acc,
  fold_left (fun acc b => acc * 256 + b) bs acc
  = acc * 256 ^ Z.of_nat (length bs) + from_big_endian bs.
Proof.
  unfold from_big_endian.
  induction bs as [|b bs IH]; intros acc.
  - simpl. lia.
  - cbn [fold_left length]. rewrite (IH (acc * 256 + b)), (IH (0 * 256 + b)).
    rewrite Nat2Z.inj_succ, Z.pow_succ_r by lia. lia.
Qed.

Lemma from_big_endian_cons b bs :
  from_big_endian (b :: bs) = b * 256 ^ Z.of_nat (length bs) + from_big_endian bs.
Proof.
  unfold from_big_endian at 1. cbn [fold_left].
  rewrite from_big_endian_fold. lia.
Qed.

Lemma from_big_endian_app bs1 bs2 :
  from_big_endian (bs1 ++ bs2)
  = from_big_endian bs1 * 256 ^ Z.of_nat (length bs2) + from_big_endian bs2.
Proof.
  unfold from_big_endian at 1. rewrite fold_left_app.
  fold (from_big_endian bs1). apply from_big_endian_fold.
Qed.

Lemma from_big_endian_snoc bs b :
  from_big_endian (bs ++ [b]) = from_big_endian bs * 256 + b.
Proof. rewrite from_big_endian_app. reflexivity. Qed.

Lemma from_big_endian_range bs :
  Forall (fun b => 0 <= b < 256) bs ->
  0 <= from_big_endian bs < 256 ^ Z.of_nat (length bs).
Proof.
  induction bs as [|b bs IH] using rev_ind; intros H.
  - simpl. unfold from_big_endian. simpl. lia.
  - apply Forall_app in H as [H Hb]. apply Forall_inv in Hb.
    specialize (IH H).
    rewrite from_big_endian_snoc, length_app, Nat2Z.inj_add.
    change (Z.of_nat (length [b])) with 1.
    rewrite Z.pow_add_r by lia. change (256 ^ 1) with 256. lia.
Qed.

(** ** [numToBuffer] *)

Lemma numToBuffer_loop_digits fuel : forall num parts,
  0 < num < 2 ^ 31 -> num < 256 ^ Z.of_nat fuel ->
  exists digits d ds,
    numToBuffer_loop fuel num parts = parts ++ digits /\
    rev digits = d :: ds /\ 0 < d /\
    Forall (fun b => 0 <= b < 256) digits /\
    from_big_endian (rev digits) = num.
Proof.
  induction fuel as [|fuel IH]; intros num parts Hnum Hfuel.
  - simpl in Hfuel. lia.
  - cbn [numToBuffer_loop].
    destruct (Z.ltb_spec 0 num) as [_|]; [|lia].
    rewrite sar_8, and_0xff, ToInt32_small by lia.
    pose proof (Z.div_mod num 256 ltac:(lia)) as Hdm.
    pose proof (Z.mod_pos_bound num 256 ltac:(lia)) as Hm.
    destruct (Z.eq_dec (num / 256) 0) as [E0|Hq].
    + rewrite E0, numToBuffer_loop_done by lia.
      exists [num mod 256], (num mod 256), [].
      split; [reflexivity|]. split; [reflexivity|].
      split; [lia|]. split; [constructor; [lia | constructor]|].
      unfold from_big_endian. simpl. lia.
    + assert (0 < num / 256) as Hpos.
      { pose proof (Z.div_pos num 256 ltac:(lia) ltac:(lia)). lia. }
      destruct (IH (num / 256) (parts ++ [num mod 256])) as (digits & d & ds & E & Er & Hd & HF & Hv).
      * split; [lia|]. apply Z.div_lt_upper_bound; lia.
      * apply Z.div_lt_upper_bound; [lia|].
        rewrite Nat2Z.inj_succ, Z.pow_succ_r in Hfuel by lia. lia.
      * exists (num mod 256 :: digits), d, (ds ++ [num mod 256]).
        split; [rewrite E, <- app_assoc; reflexivity|].
        split; [cbn [rev]; rewrite Er; reflexivity|].
        split; [exact Hd|].
        split; [constructor; [lia | exact HF]|].
        cbn [rev]. rewrite from_big_endian_snoc, Hv. lia.
Qed.

(** X1.  For an id (or any number) with [0 < num < 2^31], [numToBuffer]
    returns the shortest big-endian encoding of [num]: one to four bytes,
    the first of which is not 0, that denote [num]. *)
Theorem numToBuffer_round_trip (num : Z) :
  0 < num < 2 ^ 31 ->
  exists b rest,
    numToBuffer num = b :: rest /\
    0 < b < 256 /\
    Forall (fun x => 0 <= x < 256) rest /\
    (length (b :: rest) <= 4)%nat /\
    from_big_endian (numToBuffer num) = num.
Proof.
  intros Hnum.
  destruct (numToBuffer_loop_digits 4 num [] Hnum) as (digits & d & ds & E & Er & Hd & HF & Hv).
  { change (256 ^ Z.of_nat 4) with (2 ^ 32). lia. }
  unfold numToBuffer. rewrite E. cbn [app]. rewrite Er.
  apply Forall_rev in HF. rewrite Er in HF.
  pose proof (Forall_inv HF) as Hd'. cbv beta in Hd'. apply Forall_inv_tail in HF.
  exists d, ds. split; [reflexivity|]. split; [lia|]. split; [exact HF|].
  split.
  - pose proof (numToBuffer_length num) as Hl. unfold numToBuffer in Hl.
    rewrite E in Hl. cbn [app] in Hl. rewrite Er in Hl. exact Hl.
  - rewrite <- Er. exact Hv.
Qed.

Lemma numToBuffer_round_trip_witness :
  exists b rest,
    numToBuffer EBML_IDS.Segment = b :: rest /\
    0 < b < 256 /\
    Forall (fun x => 0 <= x < 256) rest /\
    (length (b :: rest) <= 4)%nat /\
    from_big_endian (numToBuffer EBML_IDS.Segment) = EBML_IDS.Segment.
Proof. apply (numToBuffer_round_trip EBML_IDS.Segment). vm_compute. split; reflexivity. Defined.

(** X2.  Outside that range [numToBuffer] does not encode its argument:
    for [num <= 0] it returns no byte at all, and for
    [2^31 <= num < 2^32] ([num >> 8] is negative there) only the last
    byte of [num]. *)
Theorem numToBuffer_out_of_range (num : Z) :
  (num <= 0 -> numToBuffer num = []) /\
  (2 ^ 31 <= num < 2 ^ 32 -> numToBuffer num = [num mod 256]).
Proof.
  split; intros H; unfold numToBuffer.
  - rewrite numToBuffer_loop_done by lia. reflexivity.
  - change (numToBuffer_loop 4 num [])
      with (if 0 <? num
            then numToBuffer_loop 3 (JS.sar num 8) ([] ++ [JS.and num 0xff])
            else []).
    destruct (Z.ltb_spec 0 num) as [_|]; [|lia].
    assert (JS.ToInt32 num = num - 2 ^ 32) as E.
    { unfold JS.ToInt32.
      rewrite <- (Z.mod_add _ (-1)) by lia.
      rewrite Z.mod_small by lia. lia. }
    rewrite numToBuffer_loop_done.
    + cbn [app rev]. rewrite and_0xff, E.
      f_equal. rewrite <- (Z.mod_add (num - 2 ^ 32) (2 ^ 24) 256) by lia.
      f_equal. lia.
    + rewrite sar_8, E.
      pose proof (Z.div_lt_upper_bound (num - 2 ^ 32) 256 0 ltac:(lia) ltac:(lia)). lia.
Qed.

Lemma numToBuffer_out_of_range_witness :
  numToBuffer (-5) = [] /\ numToBuffer 0x80000001 = [0x80000001 mod 256].
Proof.
  split.
  - apply (proj1 (numToBuffer_out_of_range (-5))). lia.
  - apply (proj2 (numToBuffer_out_of_range 0x80000001)). lia.
Defined.
(** ** Binary digits *)

Lemma bits_value_fold bits : forall acc,
  fold_left (fun acc c => 2 * acc + bit_value c) bits acc
  = acc * 2 ^ Z.of_nat (length bits) + bits_value bits.
Proof.
  unfold bits_value.
  induction bits as [|c bits IH]; intros acc.
  - simpl. lia.
  - cbn [fold_left length]. rewrite (IH (2 * acc + bit_value c)), (IH (2 * 0 + bit_value c)).
    rewrite Nat2Z.inj_succ, Z.pow_succ_r by lia. lia.
Qed.

Lemma bits_value_cons c bits :
  bits_value (c :: bits) = bit_value c * 2 ^ Z.of_nat (length bits) + bits_value bits.
Proof.
  unfold bits_value at 1. cbn [fold_left]. rewrite bits_value_fold. lia.
Qed.

Lemma bits_value_app bits1 bits2 :
  bits_value (bits1 ++ bits2)
  = bits_value bits1 * 2 ^ Z.of_nat (length bits2) + bits_value bits2.
Proof.
  unfold bits_value at 1. rewrite fold_left_app.
  fold (bits_value bits1). apply bits_value_fold.
Qed.

Lemma bits_value_zeros n bits : bits_value (repeat JS.C0 n ++ bits) = bits_value bits.
Proof.
  induction n as [|n IH]; [reflexivity|].
  cbn [repeat app]. rewrite bits_value_cons, IH. simpl. lia.
Qed.

Lemma bits_value_range bits : 0 <= bits_value bits < 2 ^ Z.of_nat (length bits).
Proof.
  induction bits as [|c bits IH] using rev_ind.
  - unfold bits_value. simpl. lia.
  - rewrite bits_value_app, length_app, Nat2Z.inj_add.
    change (Z.of_nat (length [c])) with 1.
    rewrite Z.pow_add_r by lia. change (2 ^ 1) with 2.
    assert (0 <= bits_value [c] <= 1) by (destruct c; unfold bits_value; simpl; lia).
    lia.
Qed.

Lemma radix2_run_digits s : forall acc seen,
  forallb is_digit s = true ->
  JS.radix2_run s acc seen
  = if seen || negb (Nat.eqb (length s) 0)
    then Some (acc * 2 ^ Z.of_nat (length s) + bits_value s) else None.
Proof.
  induction s as [|c s IH]; intros acc seen H.
  - cbn [JS.radix2_run length Nat.eqb negb]. rewrite orb_false_r.
    destruct seen; [|reflexivity]. f_equal. unfold bits_value. simpl. lia.
  - cbn [forallb] in H. apply andb_true_iff in H as [Hc H].
    rewrite bits_value_cons. cbn [length Nat.eqb negb]. rewrite orb_true_r.
    rewrite Nat2Z.inj_succ, Z.pow_succ_r by lia.
    destruct c; [| |discriminate]; cbn [JS.radix2_run]; rewrite IH by exact H;
      cbn [orb bit_value]; f_equal; lia.
Qed.

Lemma parseInt2_digits s :
  forallb is_digit s = true -> s <> [] -> JS.parseInt2 s = Some (bits_value s).
Proof.
  intros H Hne. destruct s as [|c s]; [congruence|].
  assert (JS.parseInt2 (c :: s) = JS.radix2_run (c :: s) 0 false) as ->.
  { destruct c; try reflexivity. discriminate. }
  rewrite radix2_run_digits by exact H. cbn [length Nat.eqb negb orb]. f_equal; lia.
Qed.

Lemma forallb_take {A} (f : A -> bool) n l :
  forallb f l = true -> forallb f (take n l) = true.
Proof.
  rewrite !forallb_forall. intros H x Hx. apply H.
  rewrite <- (take_drop n l). apply in_or_app. left. exact Hx.
Qed.

Lemma forallb_drop {A} (f : A -> bool) n l :
  forallb f l = true -> forallb f (drop n l) = true.
Proof.
  rewrite !forallb_forall. intros H x Hx. apply H.
  rewrite <- (take_drop n l). apply in_or_app. right. exact Hx.
Qed.

(** ** [bitsToBuffer] *)

Lemma bitsToBuffer_loop_value k : forall fuel (s : bitstring),
  length s = (8 * k)%nat -> (length s <= fuel)%nat ->
  forallb is_digit s = true ->
  let out := map (fun x => JS.ToUint8 (JS.int_of x)) (bitsToBuffer_loop fuel s) in
  from_big_endian out = bits_value s /\
  Forall (fun b => 0 <= b < 256) out /\
  length out = k.
Proof.
  induction k as [|k IH]; intros fuel s Hlen Hfuel Hd out; subst out.
  - destruct s; [|discriminate]. destruct fuel; simpl; repeat split; constructor.
  - destruct s as [|c s]; [discriminate|].
    destruct fuel as [|fuel]; [simpl in Hfuel; lia|].
    rewrite bitsToBuffer_loop_step. cbn [map].
    assert (length (take 8 (c :: s)) = 8%nat) as Ht by (rewrite length_take; lia).
    assert (length (drop 8 (c :: s)) = (8 * k)%nat) as Hdl by (rewrite length_drop; lia).
    rewrite parseInt2_digits.
    2:{ apply forallb_take. exact Hd. }
    2:{ intros E. rewrite E in Ht. discriminate. }
    pose proof (bits_value_range (take 8 (c :: s))) as Hr. rewrite Ht in Hr.
    change (2 ^ Z.of_nat 8) with 256 in Hr.
    assert (JS.ToUint8 (JS.int_of (Some (bits_value (take 8 (c :: s)))))
            = bits_value (take 8 (c :: s))) as ->.
    { unfold JS.ToUint8, JS.int_of. cbn [default]. apply Z.mod_small.
      change (2 ^ 8) with 256. lia. }
    destruct (IH fuel (drop 8 (c :: s))) as (Hv & HF & Hl).
    { exact Hdl. }
    { rewrite Hdl. simpl in Hfuel, Hlen. lia. }
    { apply forallb_drop. exact Hd. }
    split; [|split].
    + rewrite from_big_endian_cons, Hv, Hl.
      rewrite <- (take_drop 8 (c :: s)) at 3.
      rewrite bits_value_app, Hdl.
      rewrite Nat2Z.inj_mul, Z.pow_mul_r by lia. reflexivity.
    + constructor; [lia | exact HF].
    + cbn [length]. rewrite Hl. reflexivity.
Qed.

Lemma bitsToBuffer_digits (bits : bitstring) :
  forallb is_digit bits = true ->
  from_big_endian (bitsToBuffer bits) = bits_value bits /\
  Forall (fun b => 0 <= b < 256) (bitsToBuffer bits) /\
  length (bitsToBuffer bits) = ((length bits + 7) / 8)%nat.
Proof.
  intros Hd. unfold bitsToBuffer.
  set (pad := if (length bits mod 8 =? 0)%nat then [] else repeat JS.C0 (8 - length bits mod 8)).
  assert (exists n, pad = repeat JS.C0 n /\ (length (pad ++ bits) = 8 * ((length bits + 7) / 8))%nat)
    as (n & Hpad & Hlen).
  { subst pad.
    pose proof (Nat.div_mod_eq (length bits) 8).
    pose proof (Nat.mod_upper_bound (length bits) 8 ltac:(lia)).
    pose proof (Nat.div_mod_eq (length bits + 7) 8).
    pose proof (Nat.mod_upper_bound (length bits + 7) 8 ltac:(lia)).
    destruct (Nat.eqb_spec (length bits mod 8) 0) as [E|E].
    - exists 0%nat. split; [reflexivity|]. cbn [app]. lia.
    - exists (8 - length bits mod 8)%nat. split; [reflexivity|].
      rewrite length_app, repeat_length. lia. }
  destruct (bitsToBuffer_loop_value ((length bits + 7) / 8) (length (pad ++ bits)) (pad ++ bits))
    as (Hv & HF & Hl).
  - exact Hlen.
  - lia.
  - rewrite forallb_app, Hd, Hpad, andb_true_r.
    clear. induction n; [reflexivity | exact IHn].
  - split; [|split; [exact HF | exact Hl]].
    rewrite Hv, Hpad. apply bits_value_zeros.
Qed.

(** X3.  On a string of binary digits, [bitsToBuffer] returns the bytes,
    most significant first, of the number the string denotes: as many
    bytes as eight-digit groups are needed, each in [0, 256). *)
Theorem bitsToBuffer_value (bits : bitstring) :
  forallb is_digit bits = true ->
  from_big_endian (bitsToBuffer bits) = bits_value bits /\
  Forall (fun b => 0 <= b < 256) (bitsToBuffer bits) /\
  length (bitsToBuffer bits) = ((length bits + 7) / 8)%nat.
Proof. apply bitsToBuffer_digits. Qed.

Lemma bitsToBuffer_value_witness :
  from_big_endian (bitsToBuffer (JS.toString2 1000)) = bits_value (JS.toString2 1000) /\
  Forall (fun b => 0 <= b < 256) (bitsToBuffer (JS.toString2 1000)) /\
  length (bitsToBuffer (JS.toString2 1000)) = ((length (JS.toString2 1000) + 7) / 8)%nat.
Proof. apply (bitsToBuffer_value (JS.toString2 1000)). reflexivity. Defined.

Lemma pos_toString2_value p :
  forallb is_digit (JS.pos_toString2 p) = true /\
  bits_value (JS.pos_toString2 p) = Zpos p.
Proof.
  induction p as [p [Hd Hv]|p [Hd Hv]|]; cbn [JS.pos_toString2].
  - rewrite forallb_app, Hd, bits_value_app, Hv. split; [reflexivity|].
    change (bits_value [JS.C1]) with 1. simpl. lia.
  - rewrite forallb_app, Hd, bits_value_app, Hv. split; [reflexivity|].
    change (bits_value [JS.C0]) with 0. simpl. lia.
  - split; reflexivity.
Qed.

Lemma toString2_value n :
  0 <= n ->
  forallb is_digit (JS.toString2 n) = true /\ bits_value (JS.toString2 n) = n.
Proof.
  intros H. destruct n as [|p|p]; [split; reflexivity | apply pos_toString2_value | lia].
Qed.

(** X4.  A number [n >= 0] given without [size] is written by
    [generateEBML] as the shortest big-endian encoding of [n] (one byte 0
    for [n = 0]): the data are [log2 n / 8 + 1] bytes, which denote [n],
    and the element is its id, the size descriptor for that length and
    the data. *)
Theorem unsized_number_bytes (id n : Z) :
  0 <= n ->
  let data := bitsToBuffer (JS.toString2 n) in
  from_big_endian data = n /\
  Forall (fun b => 0 <= b < 256) data /\
  Z.of_nat (length data) = Z.log2 n / 8 + 1 /\
  generateEBML_element (Element id (DNum n) 0)
  = (size ← vintSize (Z.log2 n / 8 + 1); OK (numToBuffer id ++ size ++ data)).
Proof.
  intros Hn data. subst data.
  destruct (toString2_value n Hn) as [Hd Hv].
  destruct (bitsToBuffer_digits _ Hd) as (Hbv & HF & Hl).
  assert (Z.of_nat (length (bitsToBuffer (JS.toString2 n))) = Z.log2 n / 8 + 1) as Hlen.
  { rewrite Hl. pose proof (toString2_length n Hn) as Hb.
    rewrite Nat2Z.inj_div, Nat2Z.inj_add, Hb.
    change (Z.of_nat 7) with 7. change (Z.of_nat 8) with 8.
    replace (Z.log2 n + 1 + 7) with (Z.log2 n + 1 * 8) by lia.
    rewrite Z.div_add by lia. reflexivity. }
  split; [rewrite Hbv; exact Hv|]. split; [exact HF|]. split; [exact Hlen|].
  cbn [generateEBML_element mbind result_bind]. rewrite Hlen. reflexivity.
Qed.

Lemma unsized_number_bytes_witness :
  from_big_endian (bitsToBuffer (JS.toString2 TIMECODE_SCALE)) = TIMECODE_SCALE /\
  bitsToBuffer (JS.toString2 0) = [0].
Proof.
  split.
  - apply (unsized_number_bytes 0x2ad7b1 TIMECODE_SCALE). vm_compute. discriminate.
  - reflexivity.
Defined.
Lemma forallb_repeat_C0 n : forallb is_digit (repeat JS.C0 n) = true.
Proof. induction n; [reflexivity | exact IHn]. Qed.

(** X5.  The size descriptor [generateEBML] emits for a content of [len]
    bytes, [1 <= len < 2^56], denotes (big-endian) a marker bit at
    position [7 * zeroes + 8] followed by [len] itself; [len] is below
    the marker, so it can be read back from the descriptor. *)
Theorem vintSize_value (len : Z) :
  1 <= len < 2 ^ 56 ->
  let zeroes := JS.ceil_div8 (JS.ceil_log2 len) in
  exists size,
    vintSize len = OK size /\
    Forall (fun b => 0 <= b < 256) size /\
    from_big_endian size = 2 ^ (7 * zeroes + 8) + len /\
    len < 2 ^ (7 * zeroes + 8).
Proof.
  intros H zeroes. subst zeroes. unfold vintSize.
  destruct (Z.eqb_spec len 0); [lia|].
  unfold JS.ceil_div8, JS.ceil_log2, JS.repeat_char.
  pose proof (toString2_length len ltac:(lia)) as Hbits.
  destruct (toString2_value len ltac:(lia)) as [Hdig Hval].
  pose proof (Z.le_log2_log2_up len) as Hle.
  assert (0 <= Z.log2_up len <= 56) as HL.
  { split; [apply Z.log2_up_nonneg|]. apply Z.log2_up_le_pow2; lia. }
  pose proof (Z.log2_nonneg len) as Hl.
  remember ((Z.log2_up len + 7) / 8) as zeroes eqn:Hzdef.
  assert (0 <= zeroes <= 7 /\ Z.log2_up len <= 8 * zeroes) as [Hz Hz8].
  { subst zeroes. pose proof (Z.div_mod (Z.log2_up len + 7) 8 ltac:(lia)).
    pose proof (Z.mod_pos_bound (Z.log2_up len + 7) 8 ltac:(lia)). lia. }
  clear Hzdef.
  destruct (Z.ltb_spec (zeroes * 7 + 7 + 1 - Z.of_nat (length (JS.toString2 len))) 0);
    [lia|].
  cbn [mbind result_bind].
  destruct (Z.ltb_spec zeroes 0); [lia|].
  cbn [mbind result_bind].
  remember (repeat JS.C0
              (Z.to_nat (zeroes * 7 + 7 + 1 - Z.of_nat (length (JS.toString2 len))))
              ++ JS.toString2 len) as padded eqn:Hpadded.
  assert (Z.of_nat (length padded) = 7 * zeroes + 8) as Hplen.
  { subst padded. rewrite length_app, repeat_length. lia. }
  assert (forallb is_digit padded = true /\ bits_value padded = len) as [Hpd Hpv].
  { subst padded. rewrite forallb_app, forallb_repeat_C0, Hdig, bits_value_zeros. auto. }
  clear Hpadded.
  destruct (bitsToBuffer_digits (repeat JS.C0 (Z.to_nat zeroes) ++ [JS.C1] ++ padded))
    as (Hv & HF & _).
  { rewrite forallb_app, forallb_repeat_C0. cbn [app forallb is_digit andb]. exact Hpd. }
  eexists. split; [reflexivity|]. split; [exact HF|].
  split.
  - rewrite Hv, bits_value_zeros. cbn [app]. rewrite bits_value_cons, Hplen, Hpv.
    cbn [bit_value]. lia.
  - pose proof (bits_value_range padded) as Hr. rewrite Hplen, Hpv in Hr. lia.
Qed.

Lemma vintSize_value_witness :
  exists size,
    vintSize 300 = OK size /\
    Forall (fun b => 0 <= b < 256) size /\
    from_big_endian size = 2 ^ (7 * JS.ceil_div8 (JS.ceil_log2 300) + 8) + 300 /\
    300 < 2 ^ (7 * JS.ceil_div8 (JS.ceil_log2 300) + 8).
Proof. apply (vintSize_value 300). lia. Defined.

(** ** [generateEBML] on lists *)

Lemma generateEBML_app_eq (json1 json2 : list element) :
  generateEBML (json1 ++ json2)
  = (b1 ← generateEBML json1; b2 ← generateEBML json2; OK (b1 ++ b2)).
Proof.
  induction json1 as [|e json1 IH]; cbn [app generateEBML].
  - cbn [mbind result_bind]. destruct (generateEBML json2); reflexivity.
  - rewrite IH. cbn [mbind result_bind].
    destruct (generateEBML_element e) as [b|]; [|reflexivity].
    destruct (generateEBML json1) as [b1|]; [|reflexivity].
    destruct (generateEBML json2) as [b2|]; [|reflexivity].
    cbn [mbind result_bind]. rewrite <- app_assoc. reflexivity.
Qed.

(** X6.  [generateEBML] of two lists of entries put one after the other
    is the bytes of the first followed by the bytes of the second; an
    error in the first is raised before the second is looked at. *)
Theorem generateEBML_app (json1 json2 : list element) :
  generateEBML (json1 ++ json2)
  = (b1 ← generateEBML json1; b2 ← generateEBML json2; OK (b1 ++ b2)).
Proof. apply generateEBML_app_eq. Qed.


(** ** [flattenArray] *)

Lemma array_item_deep_ind (P : array_item -> Prop) :
  (forall x, P (Value x)) ->
  (forall items, Forall P items -> P (ArrayLike items)) ->
  forall item, P item.
Proof.
  intros HV HA. fix IH 1. intros [x|items].
  - apply HV.
  - apply HA. induction items as [|item items IHitems]; constructor.
    + apply IH.
    + exact IHitems.
Qed.

Lemma flattenArray_item_leaves item : forall output,
  flattenArray_item item output = output ++ leaves item.
Proof.
  induction item as [x|items HF] using array_item_deep_ind; intros output.
  - reflexivity.
  - cbn [flattenArray_item leaves]. revert output.
    induction HF as [|item items Hitem _ IH]; intros output.
    + cbn [flat_map]. rewrite app_nil_r. reflexivity.
    + rewrite IH, Hitem. cbn [flat_map]. rewrite app_assoc. reflexivity.
Qed.

Lemma leaves_Uint8Array b : leaves (Uint8Array b) = b.
Proof.
  unfold Uint8Array. cbn [leaves].
  induction b as [|x b IH]; [reflexivity|].
  cbn [map flat_map leaves app]. rewrite IH. reflexivity.
Qed.

Lemma flattenArray_flat_map (arr : list array_item) : forall output,
  flattenArray arr output = output ++ flat_map leaves arr.
Proof.
  induction arr as [|item arr IH]; intros output; cbn [flattenArray flat_map].
  - rewrite app_nil_r. reflexivity.
  - rewrite IH, flattenArray_item_leaves, app_assoc. reflexivity.
Qed.

(** X8.  [flattenArray(arr, output)] pushes to [output], after what it
    already holds, every item of [arr] that is not an array-like, at any
    depth and in left-to-right order; nothing is dropped or reordered.
    On an array of byte arrays it returns their concatenation. *)
Theorem flattenArray_leaves (arr : list array_item) (output : list Z) :
  flattenArray arr output = output ++ flat_map leaves arr /\
  (forall bs : list (list Z), flattenArray (map Uint8Array bs) output = output ++ concat bs).
Proof.
  split; [apply flattenArray_flat_map|].
  intros bs. rewrite flattenArray_flat_map. f_equal.
  induction bs as [|b bs IH]; [reflexivity|].
  cbn [map flat_map concat]. rewrite leaves_Uint8Array, IH. reflexivity.
Qed.

(** X9.  With [outputAsArray], what [generateEBML] returns is
    [flattenArray] of the array [ebml] its loop fills: the bytes of each
    entry in order, an element giving its id, its size descriptor and its
    data. *)
Theorem generateEBML_flattens_ebml (json : list element) :
  generateEBML json = (ebml ← ebml_array json; OK (flattenArray ebml [])).
Proof.
  assert (forall ebml out, flattenArray ebml out = out ++ flat_map leaves ebml) as Hflat.
  { intros ebml out. apply flattenArray_flat_map. }
  induction json as [|elt json IH]; [reflexivity|].
  cbn [generateEBML]. rewrite IH. clear IH.
  destruct elt as [b|id data size].
  - cbn [generateEBML_element ebml_array mbind result_bind].
    destruct (ebml_array json) as [ebml|]; [|reflexivity].
    cbn [mbind result_bind]. rewrite !Hflat. cbn [app flat_map].
    rewrite leaves_Uint8Array. reflexivity.
  - assert (generateEBML_element (Element id data size)
            = (d ← match data with
                   | DList l => generateEBML l
                   | DNum n =>
                     OK (match size with
                         | O => bitsToBuffer (JS.toString2 n)
                         | S _ => numToFixedBuffer n size
                         end)
                   | DStr s => OK (strToBuffer s)
                   end;
               sz ← vintSize (Z.of_nat (length d));
               OK (numToBuffer id ++ sz ++ d))) as ->.
    { destruct data; [reflexivity | reflexivity | apply generateEBML_element_DList]. }
    cbn [ebml_array].
    destruct (match data with
              | DList l => generateEBML l
              | DNum n => _
              | DStr s => _
              end) as [d|]; [|reflexivity].
    cbn [mbind result_bind].
    destruct (vintSize (Z.of_nat (length d))) as [sz|]; [|reflexivity].
    cbn [mbind result_bind].
    destruct (ebml_array json) as [ebml|]; [|reflexivity].
    cbn [mbind result_bind]. rewrite !Hflat. cbn [app flat_map].
    rewrite !leaves_Uint8Array, <- !app_assoc. reflexivity.
Qed.
(** ** [validateFrames]: what is accepted and which error is raised *)

(** X10.  [validateFrames] returns exactly when the list is not empty and
    every frame after the first has the first frame's width and height
    and a duration in [0, 32767]; what it returns is the first frame's
    dimensions and the sum of all durations, the first frame's included. *)
Theorem validateFrames_accepts_iff (frames : list Frame.t) (info : Info.t) :
  validateFrames frames = OK info <->
  exists frame0 rest,
    frames = frame0 :: rest /\
    Forall (fun f => Frame.width f = Frame.width frame0 /\
                     Frame.height f = Frame.height frame0 /\
                     0 <= Frame.duration f <= 32767) rest /\
    info = {| Info.duration := sum_durations frames;
              Info.width := Frame.width frame0;
              Info.height := Frame.height frame0 |}.
Proof. apply validateFrames_OK_iff. Qed.

Lemma validateFrames_loop_app i good rest width height d :
  Forall (frame_accepted width height) good ->
  validateFrames_loop i (good ++ rest) width height d
  = validateFrames_loop (i + length good) rest width height (d + sum_durations good).
Proof.
  intros H. revert i d.
  induction H as [|f good (Hw & Hh & Hd) _ IH]; intros i d; cbn [app length].
  - change (sum_durations []) with 0. rewrite Nat.add_0_r, Z.add_0_r. reflexivity.
  - cbn [validateFrames_loop]. rewrite Hw, Hh, !Z.eqb_refl. cbn [negb].
    destruct (Z.ltb_spec (Frame.duration f) 0); [lia|].
    destruct (Z.ltb_spec 32767 (Frame.duration f)); [lia|]. cbn [orb].
    rewrite IH, sum_durations_cons. f_equal; lia.
Qed.

(** X11.  The error [validateFrames] raises is about the first frame
    that fails a check, named by its position counted from 1; on that
    frame the width is checked before the height and the height before
    the duration. *)
Theorem validateFrames_first_error (frame0 bad : Frame.t) (good rest : list Frame.t) :
  Forall (fun f => Frame.width f = Frame.width frame0 /\
                   Frame.height f = Frame.height frame0 /\
                   0 <= Frame.duration f <= 32767) good ->
  let frames := frame0 :: good ++ bad :: rest in
  let n := (length good + 2)%nat in
  (Frame.width bad <> Frame.width frame0 ->
   validateFrames frames = Throw (InconsistentWidth n)) /\
  (Frame.width bad = Frame.width frame0 ->
   Frame.height bad <> Frame.height frame0 ->
   validateFrames frames = Throw (InconsistentHeight n)) /\
  (Frame.width bad = Frame.width frame0 ->
   Frame.height bad = Frame.height frame0 ->
   Frame.duration bad < 0 \/ 32767 < Frame.duration bad ->
   validateFrames frames = Throw (InvalidDuration n)).
Proof.
  intros Hgood frames n. subst frames n. cbn [validateFrames].
  rewrite (validateFrames_loop_app 1 good (bad :: rest) _ _ _ Hgood).
  cbn [validateFrames_loop].
  replace (1 + length good + 1)%nat with (length good + 2)%nat by lia.
  split; [|split].
  - intros Hw. destruct (Z.eqb_spec (Frame.width bad) (Frame.width frame0)); [tauto|].
    reflexivity.
  - intros Hw Hh. rewrite Hw, Z.eqb_refl. cbn [negb].
    destruct (Z.eqb_spec (Frame.height bad) (Frame.height frame0)); [tauto|].
    reflexivity.
  - intros Hw Hh Hd. rewrite Hw, Hh, !Z.eqb_refl. cbn [negb].
    destruct (Z.ltb_spec (Frame.duration bad) 0); [reflexivity|].
    destruct (Z.ltb_spec 32767 (Frame.duration bad)); [reflexivity|]. lia.
Qed.

Lemma validateFrames_first_error_witness :
  validateFrames [Frame.mk 64 64 10 []; Frame.mk 64 64 20 []; Frame.mk 64 48 40000 []]
  = Throw (InconsistentHeight 3).
Proof.
  apply (validateFrames_first_error (Frame.mk 64 64 10 []) (Frame.mk 64 48 40000 [])
                                    [Frame.mk 64 64 20 []] []).
  - repeat constructor; simpl; lia.
  - reflexivity.
  - simpl. lia.
Defined.

(** ** The document [toWebM] returns *)

(** X12.  Every document [toWebM] returns starts with the same 46 bytes,
    the EBML header (its id 1A 45 DF A3, its size and the seven header
    fields, the DocType being "webm"), followed by the id of the Segment,
    18 53 80 67. *)
Theorem toWebM_signature (frames : list Frame.t) (out : bytes) :
  toWebM frames = OK out ->
  exists rest,
    out = [0x1a; 0x45; 0xdf; 0xa3; 0x00; 0x80; 0x27;
           0x42; 0x86; 0x01; 0x01; 0x01;
           0x42; 0xf7; 0x01; 0x01; 0x01;
           0x42; 0xf2; 0x01; 0x01; 0x04;
           0x42; 0xf3; 0x01; 0x01; 0x08;
           0x42; 0x82; 0x00; 0x80; 0x04; 0x77; 0x65; 0x62; 0x6d;
           0x42; 0x87; 0x01; 0x01; 0x02;
           0x42; 0x85; 0x01; 0x01; 0x02]
          ++ [0x18; 0x53; 0x80; 0x67] ++ rest.
Proof.
  intros H.
  destruct (toWebM_layout frames out H)
    as (info & ebmlB & infoB & tracksB & cuesB & size & clusterBs & positions & L).
  cbv zeta in L. destruct L as (_ & Hebml & _ & _ & _ & _ & _ & Hout & _).
  assert (generateEBML [createEBMLHeader info]
          = OK [0x1a; 0x45; 0xdf; 0xa3; 0x00; 0x80; 0x27;
                0x42; 0x86; 0x01; 0x01; 0x01;
                0x42; 0xf7; 0x01; 0x01; 0x01;
                0x42; 0xf2; 0x01; 0x01; 0x04;
                0x42; 0xf3; 0x01; 0x01; 0x08;
                0x42; 0x82; 0x00; 0x80; 0x04; 0x77; 0x65; 0x62; 0x6d;
                0x42; 0x87; 0x01; 0x01; 0x02;
                0x42; 0x85; 0x01; 0x01; 0x02]) as E by (vm_compute; reflexivity).
  rewrite E in Hebml. injection Hebml as <-.
  exists (size ++ infoB ++ tracksB ++ cuesB ++ concat clusterBs).
  rewrite Hout. reflexivity.
Qed.

Lemma toWebM_signature_witness :
  exists out rest,
    toWebM two_cluster_frames = OK out /\
    out = [0x1a; 0x45; 0xdf; 0xa3; 0x00; 0x80; 0x27;
           0x42; 0x86; 0x01; 0x01; 0x01;
           0x42; 0xf7; 0x01; 0x01; 0x01;
           0x42; 0xf2; 0x01; 0x01; 0x04;
           0x42; 0xf3; 0x01; 0x01; 0x08;
           0x42; 0x82; 0x00; 0x80; 0x04; 0x77; 0x65; 0x62; 0x6d;
           0x42; 0x87; 0x01; 0x01; 0x02;
           0x42; 0x85; 0x01; 0x01; 0x02]
          ++ [0x18; 0x53; 0x80; 0x67] ++ rest.
Proof.
  destruct (toWebM two_cluster_frames) as [out|e] eqn:E;
    [|vm_compute in E; discriminate].
  exists out.
  destruct (toWebM_signature two_cluster_frames out E) as [rest H].
  exists rest. split; [reflexivity | exact H].
Defined.
(** ** More on the clusters *)

Lemma cluster_plan_start fuel : forall remaining tc k c,
  cluster_plan fuel remaining tc !! k = Some c ->
  c.1 = tc + sum_durations (concat (map snd (take k (cluster_plan fuel remaining tc)))).
Proof.
  induction fuel as [|fuel IH]; intros remaining tc k c Hk.
  - destruct remaining; discriminate.
  - destruct remaining as [|frame rest]; [discriminate|].
    cbn [cluster_plan] in *.
    destruct (collect_frames_spec frame rest [] 0)
      as (taken & remaining' & E & _ & _ & _).
    rewrite E in *. cbn [app] in *.
    destruct k as [|k].
    + injection Hk as <-. cbn [take map concat fst]. change (sum_durations []) with 0. lia.
    + cbn [lookup list_lookup] in Hk. apply IH in Hk. rewrite Hk.
      cbn [take map concat snd]. rewrite sum_durations_app. lia.
Qed.

Lemma lookup_map {A B} (f : A -> B) (l : list A) (i : nat) (x : A) :
  l !! i = Some x -> map f l !! i = Some (f x).
Proof.
  revert i. induction l as [|y l IH]; intros [|i] H; try discriminate.
  - injection H as ->. reflexivity.
  - apply (IH i H).
Qed.

(** X13.  The Timecode of the [k]-th cluster [toWebM] builds (and the
    CueTime of its cue point) is the total duration of the frames of the
    clusters before it; the first cluster starts at 0. *)
Theorem cluster_timecode_is_elapsed (frames : list Frame.t) (info : Info.t)
        (k : nat) (c : Z * list Frame.t) :
  let plan := clusters_of frames in
  plan !! k = Some c ->
  let elapsed := sum_durations (concat (map snd (take k plan))) in
  c.1 = elapsed /\
  exists children cuePoints,
    segment_children frames info = OK children /\
    children !! 2%nat = Some (Element EBML_IDS.Cues (DList cuePoints) 0) /\
    cuePoints !! k = Some (new_cuePoint elapsed) /\
    children !! (3 + k)%nat = Some (cluster_element elapsed (simple_blocks c.2 0)).
Proof.
  intros plan Hk elapsed.
  assert (c.1 = elapsed) as Hc.
  { pose proof (cluster_plan_start _ _ _ _ _ Hk) as Hc. rewrite Z.add_0_l in Hc.
    exact Hc. }
  clearbody elapsed. subst elapsed. split; [reflexivity|].
  eexists _, _. split; [apply segment_children_plan|].
  fold plan. split; [reflexivity|]. split.
  - apply (lookup_map (fun c => new_cuePoint c.1) _ _ _ Hk).
  - change (3 + k)%nat with (S (S (S k))). cbn [app lookup list_lookup].
    apply (lookup_map (fun c => cluster_element c.1 (simple_blocks c.2 0)) _ _ _ Hk).
Qed.

Lemma cluster_timecode_is_elapsed_witness :
  (30000, [Frame.mk 64 64 10000 [0x10; 0x02; 0x00; 0x9d; 0x01; 0x2a; 64; 0; 64; 0]]).1
  = sum_durations (concat (map snd (take 1 (clusters_of two_cluster_frames)))).
Proof.
  apply (cluster_timecode_is_elapsed two_cluster_frames (Info.mk 40000 64 64) 1).
  reflexivity.
Defined.

(** X14.  A non-empty list of frames whose durations, the last frame's
    apart, add up to less than 30000 ms at every point makes one single
    cluster, which starts at 0 and holds all the frames. *)
Theorem single_cluster (frames : list Frame.t) :
  (0 < length frames)%nat ->
  (forall i, (0 < i < length frames)%nat ->
             sum_durations (take i frames) < CLUSTER_MAX_DURATION) ->
  clusters_of frames = [(0, frames)].
Proof.
  intros Hne Hopen. unfold clusters_of.
  destruct frames as [|frame rest]; [simpl in Hne; lia|].
  cbn [length cluster_plan].
  destruct (collect_frames_spec frame rest [] 0)
    as (taken & remaining' & E & Hrest & _ & Hclosed).
  rewrite E. cbn [app].
  destruct remaining' as [|f remaining'].
  - rewrite app_nil_r in Hrest. subst taken.
    destruct (length rest); reflexivity.
  - exfalso. specialize (Hclosed ltac:(discriminate)).
    specialize (Hopen (S (length taken))).
    rewrite Hrest in Hopen. cbn [take length] in Hopen.
    rewrite take_app_length, length_app in Hopen. cbn [length] in Hopen.
    specialize (Hopen ltac:(lia)). lia.
Qed.

Lemma single_cluster_witness :
  clusters_of (take 3 two_cluster_frames) = [(0, take 3 two_cluster_frames)].
Proof.
  apply (single_cluster (take 3 two_cluster_frames)).
  - simpl. lia.
  - intros [|[|[|i]]] Hi; simpl in Hi; try lia; vm_compute; reflexivity.
Defined.

(** X15.  What [toWebM] puts in a block after the four header bytes is
    [data.slice(data.indexOf(marker) - 3)].  When the first marker has at
    least three characters before it, that is the frame data from three
    characters before the marker on.  Otherwise the start of the slice is
    negative and counts from the end: with the marker after [p < 3]
    characters only the last [3 - p] characters of the data are kept, and
    with no marker at all only the last four. *)
Theorem block_payload (webp : Frame.t) (clusterCounter : Z) :
  let data := Frame.data webp in
  let payload := Block.frame (block_of webp clusterCounter) in
  ((forall pre post, data <> pre ++ KEYFRAME_MARKER ++ post) ->
   payload = drop (length data - 4) data) /\
  (forall pre post,
      data = pre ++ KEYFRAME_MARKER ++ post ->
      (forall pre' post',
          data = pre' ++ KEYFRAME_MARKER ++ post' -> (length pre <= length pre')%nat) ->
      ((3 <= length pre)%nat -> payload = drop (length pre - 3) data) /\
      ((length pre < 3)%nat -> payload = drop (length data - (3 - length pre)) data)).
Proof.
  intros data payload. subst payload. cbn [block_of Block.frame]. fold data.
  split.
  - intros Habsent. rewrite (indexOf_absent _ _ Habsent).
    unfold JS.slice. change (-1 - 3 <? 0) with true. cbv iota.
    f_equal. lia.
  - intros pre post Hdata Hfirst.
    assert (JS.indexOf data KEYFRAME_MARKER = Z.of_nat (length pre)) as ->.
    { rewrite Hdata. apply indexOf_first. rewrite <- Hdata. exact Hfirst. }
    assert (length data = (length pre + 3 + length post)%nat) as Hlen.
    { rewrite Hdata, !length_app. simpl. lia. }
    unfold JS.slice. split; intros Hp.
    + destruct (Z.ltb_spec (Z.of_nat (length pre) - 3) 0); [lia|]. f_equal. lia.
    + destruct (Z.ltb_spec (Z.of_nat (length pre) - 3) 0); [|lia]. f_equal. lia.
Qed.

Lemma block_payload_witness :
  Block.frame (block_of (Frame.mk 64 64 10 [1; 2; 3; 4; 5; 6]) 0) = [3; 4; 5; 6] /\
  Block.frame (block_of (Frame.mk 64 64 10 ([7] ++ KEYFRAME_MARKER ++ [8; 9])) 0) = [8; 9].
Proof.
  split.
  - apply (proj1 (block_payload (Frame.mk 64 64 10 [1; 2; 3; 4; 5; 6]) 0)).
    apply no_marker_in_sample.
  - apply (proj2 (block_payload (Frame.mk 64 64 10 ([7] ++ KEYFRAME_MARKER ++ [8; 9])) 0)
                 [7] [8; 9]).
    + reflexivity.
    + intros [|a pre'] post'; simpl; [intros [=] | lia].
    + simpl. lia.
Defined.
(** ** [parseRIFF] *)

Lemma code_units_range s : Forall (fun b => 0 <= b < 256) (code_units s).
Proof.
  unfold code_units. apply Forall_map, Forall_forall. intros c _. cbv beta.
  pose proof (nat_ascii_bounded c). lia.
Qed.

Lemma riff_length_group c :
  let g := padStart8 (JS.toString2 (Z.of_nat (nat_of_ascii c))) in
  length g = 8%nat /\ forallb is_digit g = true /\
  bits_value g = Z.of_nat (nat_of_ascii c).
Proof.
  destruct c as [[] [] [] [] [] [] [] []]; vm_compute; auto.
Qed.

Lemma riff_length_digits (lenBytes : binary_string) :
  let bits := concat (map (fun c => padStart8 (JS.toString2 (Z.of_nat (nat_of_ascii c))))
                          lenBytes) in
  length bits = (8 * length lenBytes)%nat /\
  forallb is_digit bits = true /\
  bits_value bits = from_big_endian (code_units lenBytes).
Proof.
  induction lenBytes as [|c l (Hl & Hd & Hv)]; [repeat split|].
  destruct (riff_length_group c) as (Gl & Gd & Gv).
  cbn [map concat] in *.
  change (code_units (c :: l)) with (Z.of_nat (nat_of_ascii c) :: code_units l).
  split; [|split].
  - rewrite length_app, Gl, Hl. cbn [length]. lia.
  - rewrite forallb_app, Gd, Hd. reflexivity.
  - rewrite bits_value_app, from_big_endian_cons, Gv, Hv, Hl.
    replace (length (code_units l)) with (length l)
      by (unfold code_units; rewrite length_map; reflexivity).
    rewrite Nat2Z.inj_mul, Z.pow_mul_r by lia. reflexivity.
Qed.

Lemma riff_length_eq (lenBytes : binary_string) :
  riff_length lenBytes
  = match lenBytes with
    | [] => None
    | _ :: _ => Some (from_big_endian (code_units lenBytes))
    end.
Proof.
  destruct lenBytes as [|c l]; [reflexivity|].
  destruct (riff_length_digits (c :: l)) as (Hl & Hd & Hv).
  unfold riff_length. rewrite parseInt2_digits.
  - rewrite Hv. reflexivity.
  - exact Hd.
  - intros E. rewrite E in Hl. discriminate.
Qed.

(** X16.  The length of a RIFF or LIST chunk is read from the (up to
    four) characters after the id as a number with the most significant
    byte first; with no character there it is [NaN]. *)
Theorem riff_length_big_endian (lenBytes : binary_string) :
  riff_length lenBytes
  = match lenBytes with
    | [] => None
    | _ :: _ => Some (from_big_endian (code_units lenBytes))
    end.
Proof. apply riff_length_eq. Qed.

Lemma riff_length_nonneg lenBytes len : riff_length lenBytes = Some len -> 0 <= len.
Proof.
  rewrite riff_length_eq. destruct lenBytes as [|c l]; [discriminate|].
  intros H.
  assert (len = from_big_endian (code_units (c :: l))) as -> by congruence.
  apply from_big_endian_range, code_units_range.
Qed.

Lemma substr_from_nonneg {A} (s : list A) start :
  0 <= start -> substr_from s start = drop (Z.to_nat start) s.
Proof.
  intros H. unfold substr_from.
  destruct (Z.ltb_spec start 0); [lia|].
  destruct (Z.le_gt_cases start (Z.of_nat (length s))).
  - rewrite Z.min_l by lia. reflexivity.
  - rewrite Z.min_r, Nat2Z.id by lia.
    rewrite !drop_ge by lia. reflexivity.
Qed.

Lemma substr_length {A} (s : list A) start len :
  0 <= start -> (length (substr s start len) <= length s - Z.to_nat start)%nat.
Proof.
  intros H. unfold substr. rewrite substr_from_nonneg by exact H.
  rewrite length_take, length_drop. lia.
Qed.

Lemma parseRIFF_loop_total fuel : forall str offset chunks,
  0 <= offset -> (length str <= fuel + Z.to_nat offset)%nat ->
  exists r, parseRIFF_loop fuel str offset chunks = OK r.
Proof.
  induction fuel as [|fuel IH]; intros str offset chunks Hoff Hfuel.
  - cbn [parseRIFF_loop]. destruct (Z.ltb_spec offset (Z.of_nat (length str))); [lia|eauto].
  - cbn [parseRIFF_loop].
    destruct (Z.ltb_spec offset (Z.of_nat (length str))); [|eauto].
    destruct (_ || _)%bool.
    + destruct (IH (substr str (offset + 8) (riff_length (substr str (offset + 4) (Some 4))))
                   0 ∅ ltac:(lia)) as [nested ->].
      { pose proof (substr_length str (offset + 8)
                      (riff_length (substr str (offset + 4) (Some 4))) ltac:(lia)). lia. }
      cbn [mbind result_bind].
      destruct (riff_length (substr str (offset + 4) (Some 4))) as [len|] eqn:El; [|eauto].
      apply riff_length_nonneg in El.
      apply IH; lia.
    + destruct (String.eqb _ _); eauto.
Qed.


Lemma parseRIFF_loop_keeps fuel : forall str offset chunks r key x l,
  parseRIFF_loop fuel str offset chunks = OK r ->
  chunks !! key = Some (x :: l) ->
  exists l', r !! key = Some (x :: l').
Proof.
  assert (forall (chunks : riff_chunks) id key x l new,
             chunks !! key = Some (x :: l) ->
             exists l', <[id := default [] (chunks !! id) ++ [new]]> chunks !! key
                        = Some (x :: l')) as Hins.
  { intros chunks id key x l new H. destruct (decide (id = key)) as [->|Hne].
    - rewrite lookup_insert_eq, H. cbn [default app]. eauto.
    - rewrite lookup_insert_ne by exact Hne. eauto. }
  induction fuel as [|fuel IH]; intros str offset chunks r key x l H Hkey.
  - cbn [parseRIFF_loop] in H.
    destruct (offset <? Z.of_nat (length str)); [discriminate|].
    injection H as <-. eauto.
  - cbn [parseRIFF_loop] in H.
    destruct (offset <? Z.of_nat (length str)); [|injection H as <-; eauto].
    destruct (_ || _)%bool.
    + destruct (parseRIFF_loop fuel _ 0 ∅) as [nested|]; [|discriminate].
      cbn [mbind result_bind] in H.
      destruct (Hins chunks (string_of_list_ascii (substr str offset (Some 4)))
                     key x l (Nested nested) Hkey) as [l1 H1].
      destruct (riff_length _).
      * apply (IH _ _ _ _ _ _ _ H H1).
      * injection H as <-. eauto.
    + destruct (String.eqb _ _); injection H as <-; apply (Hins _ _ _ _ _ _ Hkey).
Qed.
Lemma parseRIFF_loop_step fuel str offset chunks :
  parseRIFF_loop (S fuel) str offset chunks
  = if offset <? Z.of_nat (length str) then
      let id := string_of_list_ascii (substr str offset (Some 4)) in
      let entries := default [] (chunks !! id) in
      if (String.eqb id "RIFF" || String.eqb id "LIST")%bool then
        let len := riff_length (substr str (offset + 4) (Some 4)) in
        nested ← parseRIFF_loop fuel (substr str (offset + 8) len) 0 ∅;
        let chunks := <[id := entries ++ [Nested nested]]> chunks in
        match len with
        | Some len => parseRIFF_loop fuel str (offset + 8 + len) chunks
        | None => OK chunks
        end
      else if String.eqb id "WEBP" then
        OK (<[id := entries ++ [Leaf (code_units (substr_from str (offset + 8)))]]> chunks)
      else
        OK (<[id := entries ++ [Leaf (code_units (substr_from str (offset + 4)))]]> chunks)
    else OK chunks.
Proof. reflexivity. Qed.

Lemma substr_nonneg {A} (s : list A) start len :
  0 <= start -> substr s start (Some len) = take (Z.to_nat len) (drop (Z.to_nat start) s).
Proof. intros H. unfold substr. rewrite substr_from_nonneg by exact H. reflexivity. Qed.

Lemma drop_take_sub {A} (l : list A) k n : drop k (take n l) = take (n - k) (drop k l).
Proof.
  destruct (Nat.le_gt_cases n k) as [H|H].
  - replace (n - k)%nat with 0%nat by lia. rewrite take_0.
    apply drop_ge. rewrite length_take. lia.
  - replace n with (k + (n - k))%nat at 1 by lia.
    symmetry. apply take_drop_commute.
Qed.

(** The chunk map of a string that starts with the id WEBP. *)
Lemma parseRIFF_loop_WEBP fuel (rest : binary_string) :
  parseRIFF_loop (S fuel) (list_ascii_of_string "WEBP" ++ rest) 0 ∅
  = OK {[ "WEBP"%string := [Leaf (code_units (drop 4 rest))] ]}.
Proof.
  rewrite parseRIFF_loop_step. cbv zeta.
  destruct (Z.ltb_spec 0 (Z.of_nat (length (list_ascii_of_string "WEBP" ++ rest))))
    as [_|H]; [|simpl in H; lia].
  rewrite substr_nonneg by lia.
  change (take (Z.to_nat 4) (drop (Z.to_nat 0) (list_ascii_of_string "WEBP" ++ rest)))
    with (list_ascii_of_string "WEBP").
  change (string_of_list_ascii (list_ascii_of_string "WEBP")) with "WEBP"%string.
  cbn [String.eqb Ascii.eqb Bool.eqb orb].
  rewrite lookup_empty. cbn [default app].
  rewrite substr_from_nonneg by lia.
  change (drop (Z.to_nat (0 + 8)) (list_ascii_of_string "WEBP" ++ rest))
    with (drop 4 rest).
  rewrite insert_empty. reflexivity.
Qed.

(** The chunk map of a WebP file: its first RIFF entry holds one WEBP
    chunk, whose payload is what follows the eight characters after the
    RIFF header, cut to the length read. *)
Lemma parseRIFF_webp_file (lenBytes tag payload : binary_string) :
  length lenBytes = 4%nat ->
  length tag = 4%nat ->
  let len := from_big_endian (code_units lenBytes) in
  4 <= len ->
  let file := list_ascii_of_string "RIFF" ++ lenBytes
                ++ list_ascii_of_string "WEBP" ++ tag ++ payload in
  exists riff,
    parseRIFF file = OK riff /\
    riff_payload riff = OK (code_units (take (Z.to_nat (len - 8)) payload)).
Proof.
  intros HL Ht len Hlen file.
  assert (riff_length lenBytes = Some len) as Hrl.
  { rewrite riff_length_eq. destruct lenBytes; [discriminate | reflexivity]. }
  clearbody len.
  destruct lenBytes as [|l0 [|l1 [|l2 [|l3 [|]]]]]; try discriminate. clear HL.
  destruct tag as [|t0 [|t1 [|t2 [|t3 [|]]]]]; try discriminate. clear Ht.
  set (fuel := (14 + length payload)%nat).
  assert (length file = S (S fuel)) as Hfuel by reflexivity.
  assert (substr file 0 (Some 4) = list_ascii_of_string "RIFF") as Eid.
  { rewrite substr_nonneg by lia. reflexivity. }
  assert (substr file (0 + 4) (Some 4) = [l0; l1; l2; l3]) as Elen.
  { rewrite substr_nonneg by lia. reflexivity. }
  assert (substr file (0 + 8) (Some len)
          = list_ascii_of_string "WEBP"
              ++ take (Z.to_nat len - 4) ([t0; t1; t2; t3] ++ payload)) as Edata.
  { rewrite substr_nonneg by lia.
    replace (Z.to_nat len) with (4 + (Z.to_nat len - 4))%nat at 1 by lia.
    reflexivity. }
  unfold parseRIFF. rewrite Hfuel, parseRIFF_loop_step.
  destruct (Z.ltb_spec 0 (Z.of_nat (length file))) as [_|H]; [|lia].
  cbv zeta. rewrite Eid, Elen, Hrl, Edata.
  change (string_of_list_ascii (list_ascii_of_string "RIFF")) with "RIFF"%string.
  cbn [String.eqb Ascii.eqb Bool.eqb orb].
  rewrite parseRIFF_loop_WEBP. cbn [mbind result_bind].
  rewrite lookup_empty. cbn [default app].
  set (VP8 := code_units (drop 4 (take (Z.to_nat len - 4) (t0 :: t1 :: t2 :: t3 :: payload)))).
  destruct (parseRIFF_loop_total (S fuel) file (0 + 8 + len)
              (<["RIFF"%string := [Nested {[ "WEBP"%string := [Leaf VP8] ]}]]> ∅)
              ltac:(lia) ltac:(lia)) as [r Hr].
  rewrite Hr.
  destruct (parseRIFF_loop_keeps _ _ _ _ _ "RIFF"%string
              (Nested {[ "WEBP"%string := [Leaf VP8] ]}) [] Hr) as [l' Hl'].
  { apply lookup_insert_eq. }
  exists r. split; [reflexivity|].
  unfold riff_payload. rewrite Hl', lookup_singleton_eq.
  subst VP8. do 2 f_equal. rewrite drop_take_sub.
  change (drop 4 (t0 :: t1 :: t2 :: t3 :: payload)) with payload. f_equal. lia.
Qed.

(** X18.  A file made of the id RIFF, four length characters, the id
    WEBP, four more characters (the tag of the first sub-chunk, which is
    not looked at) and a payload is decoded to that payload, cut to the
    length read (at least 4) minus the 8 characters of WEBP and the tag;
    whatever follows the RIFF chunk does not change it.  A length that is
    at least the size of the rest, which is what a little-endian length
    read most significant byte first usually is, keeps the whole
    payload. *)
Theorem webp_of_binary_payload (lenBytes tag payload : binary_string) :
  length lenBytes = 4%nat ->
  length tag = 4%nat ->
  let len := from_big_endian (code_units lenBytes) in
  4 <= len ->
  let file := list_ascii_of_string "RIFF" ++ lenBytes
                ++ list_ascii_of_string "WEBP" ++ tag ++ payload in
  exists w,
    webp_of_binary file = OK w /\
    WebP.data w = code_units (take (Z.to_nat (len - 8)) payload) /\
    (8 + Z.of_nat (length payload) <= len -> WebP.data w = code_units payload).
Proof.
  intros HL Ht len Hlen file.
  destruct (parseRIFF_webp_file lenBytes tag payload HL Ht Hlen) as (riff & Hriff & HP).
  unfold webp_of_binary. subst file. rewrite Hriff. cbn [mbind result_bind].
  unfold parseWebP. rewrite HP. cbn [mbind result_bind].
  eexists. split; [reflexivity|]. cbn [WebP.data].
  split; [reflexivity|].
  intros Hall. subst len. rewrite take_ge by lia. reflexivity.
Qed.

Lemma webp_of_binary_payload_witness :
  exists w,
    webp_of_binary (list_ascii_of_string "RIFF" ++ list_ascii_of_string "0000"
                      ++ list_ascii_of_string "WEBP" ++ list_ascii_of_string "VP8 "
                      ++ list_ascii_of_string "payload") = OK w /\
    WebP.data w = code_units (list_ascii_of_string "payload").
Proof.
  destruct (webp_of_binary_payload (list_ascii_of_string "0000")
              (list_ascii_of_string "VP8 ") (list_ascii_of_string "payload"))
    as (w & Hw & _ & Hdata).
  - reflexivity.
  - reflexivity.
  - vm_compute. discriminate.
  - exists w. split; [exact Hw|]. apply Hdata. vm_compute. discriminate.
Defined.

(** X19.  A string whose first four characters are neither RIFF nor LIST
    (the empty string too) makes one chunk of everything after its id, so
    the chunk map has no RIFF entry and reading the image fails with a
    TypeError ([riff.RIFF] is undefined). *)
Theorem webp_of_binary_not_riff (decoded : binary_string) :
  let id := string_of_list_ascii (take 4 decoded) in
  id <> "RIFF"%string -> id <> "LIST"%string ->
  webp_of_binary decoded = Throw TypeError.
Proof.
  intros id HR HL. unfold webp_of_binary, parseRIFF.
  destruct decoded as [|c s]; [reflexivity|].
  cbn [length]. rewrite parseRIFF_loop_step.
  destruct (Z.ltb_spec 0 (Z.of_nat (length (c :: s)))) as [_|H]; [|simpl in H; lia].
  cbv zeta. rewrite substr_nonneg by lia.
  change (take (Z.to_nat 4) (drop (Z.to_nat 0) (c :: s))) with (take 4 (c :: s)).
  fold id.
  destruct (String.eqb_spec id "RIFF"); [contradiction|].
  destruct (String.eqb_spec id "LIST"); [contradiction|].
  cbn [orb]. rewrite lookup_empty. cbn [default app].
  assert (forall x, parseWebP (<[id := x]> ∅) = Throw TypeError) as Hfail.
  { intros x. unfold parseWebP, riff_payload.
    rewrite lookup_insert_ne by assumption. rewrite lookup_empty. reflexivity. }
  destruct (String.eqb id "WEBP"); cbn [mbind result_bind]; apply Hfail.
Qed.

Lemma webp_of_binary_not_riff_witness :
  webp_of_binary (list_ascii_of_string "GIF89a") = Throw TypeError.
Proof.
  apply (webp_of_binary_not_riff (list_ascii_of_string "GIF89a")); discriminate.
Defined.

Lemma parseWebP_at_marker (riff : riff_chunks) (pre rest : jsstring) (b0 b1 b2 b3 : Z) :
  let VP8 := pre ++ KEYFRAME_MARKER ++ b0 :: b1 :: b2 :: b3 :: rest in
  riff_payload riff = OK VP8 ->
  (forall pre' post',
      VP8 = pre' ++ KEYFRAME_MARKER ++ post' -> (length pre <= length pre')%nat) ->
  0 <= b0 < 256 -> 0 <= b1 < 256 -> 0 <= b2 < 256 -> 0 <= b3 < 256 ->
  parseWebP riff
  = OK {| WebP.width := (b0 + 256 * b1) mod 2 ^ 14;
          WebP.height := (b2 + 256 * b3) mod 2 ^ 14;
          WebP.data := VP8;
          WebP.riff := riff;
          WebP.horizontalScale := (b0 + 256 * b1) / 2 ^ 14;
          WebP.verticalScale := (b2 + 256 * b3) / 2 ^ 14 |}.
Proof.
  intros VP8 HP Hfirst H0 H1 H2 H3.
  pose proof (indexOf_first pre KEYFRAME_MARKER (b0 :: b1 :: b2 :: b3 :: rest) Hfirst) as Hk.
  fold VP8 in Hk.
  assert (forall (i : nat) x,
             (b0 :: b1 :: b2 :: b3 :: rest) !! i = Some x ->
             JS.int_of (JS.charCodeAt VP8 (Z.of_nat (length pre) + 3 + Z.of_nat i)) = x)
    as Hc.
  { intros i x Hx. unfold JS.charCodeAt.
    destruct (Z.ltb_spec (Z.of_nat (length pre) + 3 + Z.of_nat i) 0); [lia|].
    replace (Z.to_nat (Z.of_nat (length pre) + 3 + Z.of_nat i))
      with (length pre + (3 + i))%nat by lia.
    unfold VP8. rewrite lookup_app_r by lia.
    replace (length pre + (3 + i) - length pre)%nat with (3 + i)%nat by lia.
    simpl. rewrite Hx. reflexivity. }
  apply parseWebP_words; try assumption; rewrite Hk.
  - apply (Hc 0%nat). reflexivity.
  - apply (Hc 1%nat). reflexivity.
  - apply (Hc 2%nat). reflexivity.
  - apply (Hc 3%nat). reflexivity.
Qed.

(** X21.  From the file to the picture size: when the payload of such a
    file holds the keyframe marker, first after [pre], followed by the
    characters [b0 b1 b2 b3], reading the image gives the width
    [(b0 + 256 b1) mod 2^14] and the height [(b2 + 256 b3) mod 2^14],
    the scales being the two bits above, and the payload as data. *)
Theorem webp_of_binary_dimensions (lenBytes tag payload : binary_string)
        (pre rest : jsstring) (b0 b1 b2 b3 : Z) :
  length lenBytes = 4%nat ->
  length tag = 4%nat ->
  8 + Z.of_nat (length payload) <= from_big_endian (code_units lenBytes) ->
  code_units payload = pre ++ KEYFRAME_MARKER ++ b0 :: b1 :: b2 :: b3 :: rest ->
  (forall pre' post',
      code_units payload = pre' ++ KEYFRAME_MARKER ++ post' ->
      (length pre <= length pre')%nat) ->
  exists w,
    webp_of_binary (list_ascii_of_string "RIFF" ++ lenBytes
                      ++ list_ascii_of_string "WEBP" ++ tag ++ payload) = OK w /\
    WebP.data w = code_units payload /\
    WebP.width w = (b0 + 256 * b1) mod 2 ^ 14 /\
    WebP.height w = (b2 + 256 * b3) mod 2 ^ 14 /\
    WebP.horizontalScale w = (b0 + 256 * b1) / 2 ^ 14 /\
    WebP.verticalScale w = (b2 + 256 * b3) / 2 ^ 14.
Proof.
  intros HL Ht Hlen Hpay Hfirst.
  destruct (parseRIFF_webp_file lenBytes tag payload HL Ht ltac:(lia)) as (riff & Hriff & HP).
  rewrite take_ge in HP by lia.
  unfold webp_of_binary. rewrite Hriff. cbn [mbind result_bind].
  pose proof (code_units_range payload) as HF. rewrite Hpay in HF.
  apply Forall_app in HF as [_ HF]. apply Forall_app in HF as [_ HF].
  inversion HF as [|? ? H0 HF0]; subst. inversion HF0 as [|? ? H1 HF1]; subst.
  inversion HF1 as [|? ? H2 HF2]; subst. inversion HF2 as [|? ? H3 _]; subst.
  rewrite Hpay in HP, Hfirst.
  rewrite (parseWebP_at_marker riff pre rest b0 b1 b2 b3 HP Hfirst H0 H1 H2 H3).
  eexists. split; [reflexivity|]. cbn [WebP.data WebP.width WebP.height
                                        WebP.horizontalScale WebP.verticalScale].
  rewrite Hpay. repeat split.
Qed.

Lemma webp_of_binary_dimensions_witness :
  exists w,
    webp_of_binary (list_ascii_of_string "RIFF" ++ list_ascii_of_string "0000"
                      ++ list_ascii_of_string "WEBP" ++ list_ascii_of_string "VP8 "
                      ++ map ascii_of_nat [0; 0; 0; 0; 16; 2; 0; 157; 1; 42; 64; 1; 240; 0; 9]%nat)
    = OK w /\
    WebP.width w = 320 /\ WebP.height w = 240.
Proof.
  destruct (webp_of_binary_dimensions
              (list_ascii_of_string "0000") (list_ascii_of_string "VP8 ")
              (map ascii_of_nat [0; 0; 0; 0; 16; 2; 0; 157; 1; 42; 64; 1; 240; 0; 9]%nat)
              [0; 0; 0; 0; 16; 2; 0] [9] 64 1 240 0)
    as (w & Hw & _ & Hwidth & Hheight & _).
  - reflexivity.
  - reflexivity.
  - vm_compute. discriminate.
  - reflexivity.
  - intros pre' post' H. vm_compute in H.
    destruct pre' as [|a0 [|a1 [|a2 [|a3 [|a4 [|a5 [|a6 pre']]]]]]];
      simpl; try lia; discriminate H.
  - exists w. split; [exact Hw|]. split; [exact Hwidth | exact Hheight].
Defined.
(** ** [doubleToString] *)

Lemma from_big_endian_big_endian width : forall v,
  from_big_endian (big_endian width v) = v mod 256 ^ Z.of_nat width.
Proof.
  induction width as [|width IH]; intros v.
  - unfold big_endian, from_big_endian. simpl. rewrite Z.mod_1_r. reflexivity.
  - rewrite big_endian_S, from_big_endian_snoc, IH.
    rewrite Nat2Z.inj_succ, Z.pow_succ_r by lia.
    rewrite (Z.rem_mul_r v 256) by lia. lia.
Qed.

Lemma big_endian_range width v : Forall (fun b => 0 <= b < 256) (big_endian width v).
Proof.
  unfold big_endian. apply Forall_map, Forall_forall. intros i _. cbv beta.
  apply Z.mod_pos_bound. lia.
Qed.

Lemma doubleToString_big_endian num :
  doubleToString num = big_endian 8 (float64_bits num).
Proof.
  unfold doubleToString, big_endian.
  cbn [rev seq map app Nat.sub].
  rewrite !Z.shiftr_div_pow2 by lia. reflexivity.
Qed.

Lemma float64_bits_fields num :
  0 < Z.abs num < 2 ^ 53 ->
  exists e frac,
    float64_bits num
    = (if num <? 0 then 1 else 0) * 2 ^ 63 + (e + 1023) * 2 ^ 52 + frac /\
    0 <= e <= 52 /\ 0 <= frac < 2 ^ 52 /\
    (2 ^ 52 + frac) = Z.abs num * 2 ^ (52 - e).
Proof.
  intros Ha. unfold float64_bits.
  destruct (Z.eqb_spec num 0); [lia|].
  pose proof (Z.log2_spec (Z.abs num) ltac:(lia)) as Hlog.
  pose proof (Z.log2_nonneg (Z.abs num)) as Hnn.
  assert (Z.log2 (Z.abs num) <= 52) as Hle.
  { assert (Z.log2 (Z.abs num) < 53); [|lia].
    apply Z.log2_lt_pow2; lia. }
  destruct (Z.leb_spec (Z.log2 (Z.abs num)) 52); [|lia].
  destruct (Z.ltb_spec 1023 (Z.log2 (Z.abs num))); [lia|].
  set (e := Z.log2 (Z.abs num)) in *.
  assert (2 ^ e * 2 ^ (52 - e) = 2 ^ 52) as Hpow.
  { rewrite <- Z.pow_add_r by lia. f_equal. lia. }
  assert (0 < 2 ^ (52 - e)) as Hq by (apply Z.pow_pos_nonneg; lia).
  rewrite Z.pow_succ_r in Hlog by lia.
  exists e, (Z.abs num * 2 ^ (52 - e) - 2 ^ 52).
  split; [reflexivity|]. split; [lia|]. split; [|lia].
  set (p := 2 ^ e) in *. set (q := 2 ^ (52 - e)) in *.
  change (2 ^ 52) with 4503599627370496 in *. nia.
Qed.

(** X20.  [doubleToString] of an integer below 2^53 in absolute value is
    eight characters with codes below 256 which, read most significant
    first as an IEEE-754 double, denote that integer again. *)
Theorem doubleToString_round_trip (num : Z) :
  - 2 ^ 53 < num < 2 ^ 53 ->
  length (doubleToString num) = 8%nat /\
  Forall (fun b => 0 <= b < 256) (doubleToString num) /\
  float64_value (from_big_endian (doubleToString num)) = Some num.
Proof.
  intros Hnum. rewrite doubleToString_big_endian.
  split; [reflexivity|]. split; [apply big_endian_range|].
  rewrite from_big_endian_big_endian.
  destruct (Z.eq_dec num 0) as [->|Hnz]; [reflexivity|].
  destruct (float64_bits_fields num ltac:(lia)) as (e & frac & -> & He & Hf & Hm).
  set (s := if num <? 0 then 1 else 0).
  assert (0 <= s <= 1) as Hs by (subst s; destruct (num <? 0); lia).
  change (256 ^ Z.of_nat 8) with (2 ^ 64).
  change (2 ^ 52) with 4503599627370496 in Hf.
  assert (s * 2 ^ 63 + (e + 1023) * 2 ^ 52 + frac
          = frac + (s * 2 ^ 11 + (e + 1023)) * 2 ^ 52) as Ebits by lia.
  rewrite Z.mod_small by lia.
  unfold float64_value.
  assert ((s * 2 ^ 63 + (e + 1023) * 2 ^ 52 + frac) / 2 ^ 63 = s) as ->.
  { symmetry. apply (Z.div_unique _ _ _ ((e + 1023) * 2 ^ 52 + frac)); lia. }
  assert ((s * 2 ^ 63 + (e + 1023) * 2 ^ 52 + frac) / 2 ^ 52 = s * 2 ^ 11 + (e + 1023)) as ->.
  { symmetry. apply (Z.div_unique _ _ _ frac); lia. }
  assert ((s * 2 ^ 63 + (e + 1023) * 2 ^ 52 + frac) mod 2 ^ 52 = frac) as ->.
  { symmetry. apply (Z.mod_unique _ _ (s * 2 ^ 11 + (e + 1023))); lia. }
  assert ((s * 2 ^ 11 + (e + 1023)) mod 2 ^ 11 = e + 1023) as ->.
  { symmetry. apply (Z.mod_unique _ _ s); lia. }
  cbv zeta.
  destruct (Z.eqb_spec (e + 1023) 0); [lia|].
  destruct (Z.eqb_spec (e + 1023) 2047); [lia|].
  rewrite Hm.
  assert (0 < 2 ^ (52 - e)) as Hq by (apply Z.pow_pos_nonneg; lia).
  assert (Some (Z.abs num)
          = if 1075 <=? e + 1023 then Some (Z.abs num * 2 ^ (52 - e) * 2 ^ (e + 1023 - 1075))
            else if (Z.abs num * 2 ^ (52 - e)) mod 2 ^ (1075 - (e + 1023)) =? 0
                 then Some (Z.abs num * 2 ^ (52 - e) / 2 ^ (1075 - (e + 1023)))
                 else None) as <-.
  { destruct (Z.leb_spec 1075 (e + 1023)).
    - assert (e = 52) as -> by lia. f_equal. simpl. lia.
    - replace (1075 - (e + 1023)) with (52 - e) by lia.
      rewrite Z.mod_mul, Z.div_mul by lia. reflexivity. }
  cbn [fmap option_fmap option_map]. f_equal. subst s.
  destruct (Z.ltb_spec num 0); simpl; lia.
Qed.

Lemma doubleToString_round_trip_witness :
  doubleToString 3000 = [0x40; 0xa7; 0x70; 0; 0; 0; 0; 0] /\
  float64_value (from_big_endian (doubleToString 3000)) = Some 3000.
Proof.
  split; [reflexivity|].
  apply (doubleToString_round_trip 3000). lia.
Defined.
(** ** The output is made of bytes *)

Lemma and_0xff_range num : 0 <= JS.and num 0xff < 256.
Proof. rewrite and_0xff. apply Z.mod_pos_bound. lia. Qed.

Lemma numToBuffer_loop_bytes fuel : forall num parts,
  Forall (fun x => 0 <= x < 256) parts ->
  Forall (fun x => 0 <= x < 256) (numToBuffer_loop fuel num parts).
Proof.
  induction fuel as [|fuel IH]; intros num parts H; cbn [numToBuffer_loop]; [exact H|].
  destruct (0 <? num); [|exact H].
  apply IH, Forall_app. split; [exact H|].
  constructor; [apply and_0xff_range | constructor].
Qed.

Lemma numToBuffer_bytes num : Forall (fun x => 0 <= x < 256) (numToBuffer num).
Proof. apply Forall_rev, numToBuffer_loop_bytes. constructor. Qed.

Lemma ToUint8_range x : 0 <= JS.ToUint8 x < 256.
Proof. unfold JS.ToUint8. apply Z.mod_pos_bound. lia. Qed.

Lemma bitsToBuffer_bytes bits : Forall (fun x => 0 <= x < 256) (bitsToBuffer bits).
Proof.
  unfold bitsToBuffer. apply Forall_map, Forall_forall. intros x _. apply ToUint8_range.
Qed.

Lemma strToBuffer_bytes s : Forall (fun x => 0 <= x < 256) (strToBuffer s).
Proof.
  unfold strToBuffer. apply Forall_map, Forall_forall. intros x _. apply ToUint8_range.
Qed.

Lemma vintSize_bytes len size :
  vintSize len = OK size -> Forall (fun x => 0 <= x < 256) size.
Proof.
  unfold vintSize. destruct (len =? 0); [discriminate|]. cbv zeta.
  destruct (JS.repeat_char JS.C0 (_ - _)); cbn [mbind result_bind]; [|discriminate].
  destruct (JS.repeat_char _ _); cbn [mbind result_bind]; [|discriminate].
  intros [= <-]. apply bitsToBuffer_bytes.
Qed.

Lemma generateEBML_bytes l : forall d,
  Forall renders_bytes l -> generateEBML l = OK d ->
  Forall (fun x => 0 <= x < 256) d.
Proof.
  induction l as [|e l IH]; intros d HF H.
  - injection H as <-. constructor.
  - cbn [generateEBML] in H.
    apply bind_OK_inv in H as (b & Eb & H).
    apply bind_OK_inv in H as (rest & Erest & H). injection H as <-.
    apply Forall_app. split.
    + apply (Forall_inv HF), Eb.
    + apply IH; [apply (Forall_inv_tail HF) | exact Erest].
Qed.

Lemma renders_bytes_element id data size :
  match data with
  | DList l => Forall renders_bytes l
  | _ => True
  end ->
  renders_bytes (Element id data size).
Proof.
  intros Hd b H.
  assert (exists d sz, b = numToBuffer id ++ sz ++ d /\
                       vintSize (Z.of_nat (length d)) = OK sz /\
                       Forall (fun x => 0 <= x < 256) d) as (d & sz & -> & Hsz & HF).
  { destruct data as [n|s|l].
    - cbn [generateEBML_element] in H.
      apply bind_OK_inv in H as (d & Ed & H). injection Ed as <-.
      apply bind_OK_inv in H as (sz & Esz & H). injection H as <-.
      eexists _, sz. split; [reflexivity|]. split; [exact Esz|].
      destruct size; [apply bitsToBuffer_bytes|].
      rewrite numToFixedBuffer_int32. apply big_endian_range.
    - cbn [generateEBML_element] in H.
      apply bind_OK_inv in H as (d & Ed & H). injection Ed as <-.
      apply bind_OK_inv in H as (sz & Esz & H). injection H as <-.
      eexists _, sz. split; [reflexivity|]. split; [exact Esz|].
      apply strToBuffer_bytes.
    - rewrite generateEBML_element_DList in H.
      apply bind_OK_inv in H as (d & Ed & H).
      apply bind_OK_inv in H as (sz & Esz & H). injection H as <-.
      exists d, sz. split; [reflexivity|]. split; [exact Esz|].
      apply (generateEBML_bytes l d Hd Ed). }
  apply Forall_app. split; [apply numToBuffer_bytes|].
  apply Forall_app. split; [apply (vintSize_bytes _ _ Hsz) | exact HF].
Qed.

Ltac renders_bytes_tree :=
  repeat lazymatch goal with
         | |- renders_bytes (Element _ _ _) => apply renders_bytes_element; cbv beta iota
         | |- Forall _ (_ :: _) => constructor
         | |- Forall _ [] => constructor
         | |- True => exact I
         end.

Lemma generateEBML_single_bytes e b :
  renders_bytes e -> generateEBML [e] = OK b -> Forall (fun x => 0 <= x < 256) b.
Proof. intros He H. rewrite generateEBML_single in H. apply He, H. Qed.

Lemma renders_bytes_cluster tc clusterFrames :
  renders_bytes (cluster_element tc (simple_blocks clusterFrames 0)).
Proof.
  apply renders_bytes_element. constructor; [apply renders_bytes_element; exact I|].
  generalize 0. induction clusterFrames as [|webp rest IH]; intros clusterCounter.
  - constructor.
  - cbn [simple_blocks]. constructor; [apply renders_bytes_element; exact I | apply IH].
Qed.

(** X22.  Every document [toWebM] returns is made of bytes: each entry of
    the array is an integer from 0 to 255. *)
Theorem toWebM_bytes (frames : list Frame.t) (out : bytes) :
  toWebM frames = OK out -> Forall (fun x => 0 <= x < 256) out.
Proof.
  intros H.
  destruct (toWebM_layout frames out H)
    as (info & ebmlB & infoB & tracksB & cuesB & size & clusterBs & positions & L).
  cbv zeta in L.
  destruct L as (_ & Hebml & Hinfo & Htracks & Hcues & Hclusters & Hsize & -> & _).
  apply Forall_app. split.
  { refine (generateEBML_single_bytes _ _ _ Hebml).
    unfold createEBMLHeader. renders_bytes_tree. }
  apply Forall_app. split; [apply numToBuffer_bytes|].
  apply Forall_app. split; [apply (vintSize_bytes _ _ Hsize)|].
  apply Forall_app. split.
  { refine (generateEBML_single_bytes _ _ _ Hinfo).
    unfold createSegmentInfo. renders_bytes_tree. }
  apply Forall_app. split.
  { refine (generateEBML_single_bytes _ _ _ Htracks).
    unfold createTracks. renders_bytes_tree. }
  apply Forall_app. split.
  { refine (generateEBML_single_bytes _ _ _ Hcues).
    apply renders_bytes_element.
    apply Forall_map, Forall_forall. intros c _. cbv beta.
    unfold cue_of, cuePoint_at. renders_bytes_tree. }
  apply Forall_concat.
  clear - Hclusters.
  induction Hclusters as [|c b plan bs Hb _ IH]; [constructor|].
  constructor; [|exact IH].
  apply (generateEBML_single_bytes _ _ (renders_bytes_cluster _ _) Hb).
Qed.

Lemma toWebM_bytes_witness :
  exists out,
    toWebM two_cluster_frames = OK out /\ Forall (fun x => 0 <= x < 256) out.
Proof.
  destruct (toWebM two_cluster_frames) as [out|e] eqn:E;
    [|vm_compute in E; discriminate].
  exists out. split; [reflexivity|].
  apply (toWebM_bytes two_cluster_frames out E).
Defined.
(** ** The duration written *)

Lemma strToBuffer_of_bytes s : Forall (fun x => 0 <= x < 256) s -> strToBuffer s = s.
Proof.
  unfold strToBuffer. induction 1 as [|x s Hx _ IH]; [reflexivity|].
  cbn [map]. rewrite IH. f_equal. unfold JS.ToUint8. apply Z.mod_small.
  change (2 ^ 8) with 256. lia.
Qed.

Lemma createSegmentInfo_bytes duration :
  generateEBML [createSegmentInfo duration]
  = OK ([0x15; 0x49; 0xa9; 0x66; 0x00; 0x80; 0x2c;
         0x2a; 0xd7; 0xb1; 0x00; 0x80; 0x03; 0x0f; 0x42; 0x40;
         0x4d; 0x80; 0x00; 0x80; 0x06; 0x77; 0x68; 0x61; 0x6d; 0x6d; 0x79;
         0x57; 0x41; 0x00; 0x80; 0x06; 0x77; 0x68; 0x61; 0x6d; 0x6d; 0x79;
         0x44; 0x89; 0x00; 0x80; 0x08] ++ doubleToString duration).
Proof.
  rewrite generateEBML_single. unfold createSegmentInfo.
  rewrite generateEBML_element_DList.
  change [Element 0x2ad7b1 (DNum TIMECODE_SCALE) 0;
          Element 0x4d80 (DStr (JS.of_string "whammy")) 0;
          Element 0x5741 (DStr (JS.of_string "whammy")) 0;
          Element 0x4489 (DStr (doubleToString duration)) 0]
    with ([Element 0x2ad7b1 (DNum TIMECODE_SCALE) 0;
           Element 0x4d80 (DStr (JS.of_string "whammy")) 0;
           Element 0x5741 (DStr (JS.of_string "whammy")) 0]
            ++ [Element 0x4489 (DStr (doubleToString duration)) 0]).
  rewrite generateEBML_app_eq.
  assert (generateEBML [Element 0x2ad7b1 (DNum TIMECODE_SCALE) 0;
                        Element 0x4d80 (DStr (JS.of_string "whammy")) 0;
                        Element 0x5741 (DStr (JS.of_string "whammy")) 0]
          = OK [0x2a; 0xd7; 0xb1; 0x00; 0x80; 0x03; 0x0f; 0x42; 0x40;
                0x4d; 0x80; 0x00; 0x80; 0x06; 0x77; 0x68; 0x61; 0x6d; 0x6d; 0x79;
                0x57; 0x41; 0x00; 0x80; 0x06; 0x77; 0x68; 0x61; 0x6d; 0x6d; 0x79])
    as -> by (vm_compute; reflexivity).
  assert (generateEBML [Element 0x4489 (DStr (doubleToString duration)) 0]
          = OK ([0x44; 0x89; 0x00; 0x80; 0x08] ++ doubleToString duration)) as ->.
  { rewrite generateEBML_single. cbn [generateEBML_element mbind result_bind].
    rewrite strToBuffer_of_bytes
      by (rewrite doubleToString_big_endian; apply big_endian_range).
    rewrite doubleToString_length. reflexivity. }
  cbn [mbind result_bind].
  rewrite !length_app, doubleToString_length. reflexivity.
Qed.

(** X23.  The Info element of every document [toWebM] returns comes right
    after the Segment's id and size, and ends with the Duration element:
    its id 44 89, its size and, as eight bytes, the double
    [doubleToString] gives for the sum of the durations of all the
    frames, the first one included. *)
Theorem toWebM_duration (frames : list Frame.t) (out : bytes) :
  toWebM frames = OK out ->
  exists ebmlB size rest,
    length ebmlB = 46%nat /\
    out = ebmlB ++ [0x18; 0x53; 0x80; 0x67] ++ size
            ++ ([0x15; 0x49; 0xa9; 0x66; 0x00; 0x80; 0x2c;
                 0x2a; 0xd7; 0xb1; 0x00; 0x80; 0x03; 0x0f; 0x42; 0x40;
                 0x4d; 0x80; 0x00; 0x80; 0x06; 0x77; 0x68; 0x61; 0x6d; 0x6d; 0x79;
                 0x57; 0x41; 0x00; 0x80; 0x06; 0x77; 0x68; 0x61; 0x6d; 0x6d; 0x79;
                 0x44; 0x89; 0x00; 0x80; 0x08]
                  ++ doubleToString (sum_durations frames))
            ++ rest /\
    vintSize (Z.of_nat (51 + length rest)) = OK size.
Proof.
  intros H.
  destruct (toWebM_layout frames out H)
    as (info & ebmlB & infoB & tracksB & cuesB & size & clusterBs & positions & L).
  cbv zeta in L.
  destruct L as (Hvalid & Hebml & Hinfo & _ & _ & _ & Hsize & -> & _).
  apply validateFrames_OK_iff in Hvalid as (f0 & rest & _ & _ & ->).
  cbn [Info.duration] in Hinfo.
  rewrite createSegmentInfo_bytes in Hinfo. injection Hinfo as <-.
  assert (generateEBML [createEBMLHeader
                          {| Info.duration := sum_durations frames;
                             Info.width := Frame.width f0;
                             Info.height := Frame.height f0 |}]
          = OK ebmlB -> length ebmlB = 46%nat) as Hlen.
  { intros E. vm_compute in E. injection E as <-. reflexivity. }
  exists ebmlB, size, (tracksB ++ cuesB ++ concat clusterBs).
  split; [apply Hlen, Hebml|]. split; [reflexivity|].
  rewrite <- Hsize. f_equal; f_equal;
    rewrite !length_app, doubleToString_length; simpl; lia.
Qed.

Lemma toWebM_duration_witness :
  exists out ebmlB size rest,
    toWebM two_cluster_frames = OK out /\
    out = ebmlB ++ [0x18; 0x53; 0x80; 0x67] ++ size
            ++ ([0x15; 0x49; 0xa9; 0x66; 0x00; 0x80; 0x2c;
                 0x2a; 0xd7; 0xb1; 0x00; 0x80; 0x03; 0x0f; 0x42; 0x40;
                 0x4d; 0x80; 0x00; 0x80; 0x06; 0x77; 0x68; 0x61; 0x6d; 0x6d; 0x79;
                 0x57; 0x41; 0x00; 0x80; 0x06; 0x77; 0x68; 0x61; 0x6d; 0x6d; 0x79;
                 0x44; 0x89; 0x00; 0x80; 0x08]
                  ++ doubleToString 40000)
            ++ rest.
Proof.
  destruct (toWebM two_cluster_frames) as [out|e] eqn:E;
    [|vm_compute in E; discriminate].
  destruct (toWebM_duration two_cluster_frames out E) as (ebmlB & size & rest & _ & H & _).
  exists out, ebmlB, size, rest. split; [reflexivity | exact H].
Defined.
